(** * g10/encode.c: shallow embedding and verification

    The message-encryption front end of GnuPG (g10/encode.c):
    [encode_simple] (symmetric / store-only), [encode_crypt] (public key),
    the lazy [encrypt_filter], [write_pubkey_enc_from_list] and the batch
    front end [encode_crypt_files].

    The C functions are sequences of calls into the rest of GnuPG (iobuf,
    packet builder, public-key and passphrase primitives).  Those callees
    are not part of this file: they are transitions on an abstract world
    [W], collected in the class [Externals].  Every call the C code makes is
    also recorded as an [event], so that statements about "what was written
    before what" are statements about the event log of a run.  The global
    option block [opt] is part of the state because [encode_crypt] writes
    to [opt.pgp2]. *)

From Stdlib Require Import ZArith List String Ascii Bool Lia.
Import ListNotations.
Open Scope Z_scope.

Set Implicit Arguments.

(** ** C scalars *)

(** Truth value of a C [int] used as a condition. *)
Definition nz (x : Z) : bool := negb (x =? 0).

(** Value of a C truth expression. *)
Definition b2i (b : bool) : Z := if b then 1 else 0.

(** Assignment to a [u32] variable. *)
Definition to_u32 (x : Z) : Z := x mod 2 ^ 32.

(** Assignment of an [int] to a [byte] field. *)
Definition to_byte (x : Z) : Z := x mod 2 ^ 8.

Definition is_some {A} (o : option A) : bool :=
  match o with Some _ => true | None => false end.

(** ** The option block [opt] (options.h), restricted to the fields
    encode.c reads.  Flags are C ints. *)
Module opt.
Record t := mk {
  verbose : Z;
  armor : Z;
  compress : Z;
  textmode : Z;
  rfc1991 : Z;
  pgp2 : Z;
  no_literal : Z;
  throw_keyid : Z;
  def_cipher_algo : Z;
  def_digest_algo : Z;
  s2k_mode : Z;
  s2k_digest_algo : Z;
  s2k_cipher_algo : Z;
  set_filename : option string;
  set_filesize : Z
}.

(** [opt.pgp2 = v;] *)
Definition with_pgp2 (v : Z) (o : t) : t :=
  mk (verbose o) (armor o) (compress o) (textmode o) (rfc1991 o) v
     (no_literal o) (throw_keyid o) (def_cipher_algo o) (def_digest_algo o)
     (s2k_mode o) (s2k_digest_algo o) (s2k_cipher_algo o)
     (set_filename o) (set_filesize o).
End opt.

(** ** Data structures (packet.h, cipher.h, filter.h) *)

Definition byte := Z.
Definition MPI := Z.

Record DEK := mkDEK {
  dek_algo : Z;
  dek_keylen : Z;
  dek_key : list byte;
  dek_use_mdc : Z
}.

(** [hash_algo] is a [byte]. *)
Record STRING2KEY := mkS2K {
  s2k_mode : Z;
  s2k_hash_algo : Z;
  s2k_salt : list byte;
  s2k_count : Z
}.

(** Preference types (packet.h, [preftype_t]). *)
Inductive preftype_t := PREFTYPE_SYM | PREFTYPE_HASH | PREFTYPE_ZIP.

(** A recipient key (packet.h).  [pk_prefs] and [pk_mdc_feature] are what
    the key advertises: for each preference type the algorithm ids in
    order of preference, and whether the key's owner accepts
    integrity-protected data; both are read by pkclist.c only. *)
Record PKT_public_key := mkPK {
  pubkey_algo : Z;
  pkey : list MPI;
  pk_prefs : preftype_t -> list Z;
  pk_mdc_feature : Z
}.

(** [PK_LIST] is a NULL-terminated singly linked list of keys. *)
Definition PK_LIST := list PKT_public_key.

(** [pubkey_algo] and [throw_keyid] are [byte] fields, as is
    [pubkey_algo] of a key: what encode.c stores into [throw_keyid] is an
    [int] and is cut to a byte. *)
Record PKT_pubkey_enc := mkPubkeyEnc {
  enc_keyid : Z * Z;
  enc_pubkey_algo : Z;
  enc_throw_keyid : Z;
  enc_data : list MPI
}.

(** [version] and [cipher_algo] are [byte] fields; the [algo] of a DEK
    is an [int]. *)
Record PKT_symkey_enc := mkSymkeyEnc {
  symkey_version : Z;
  symkey_cipher_algo : Z;
  symkey_s2k : STRING2KEY
}.

(** An input stream as encode.c sees it: the chunks successive
    [iobuf_read (inp, buf, 4096)] calls deliver before the call that
    returns -1, and the length [iobuf_get_filelength] reports (0 when the
    length cannot be obtained). *)
Record IOBUF := mkIOBUF {
  iobuf_reads : list (list byte);
  iobuf_filelength : Z
}.

(** An output stream is a handle into the world. *)
Definition OUTBUF := Z.

Record PKT_plaintext := mkPlaintext {
  pt_len : Z;
  pt_mode : ascii;
  pt_new_ctb : Z;
  pt_timestamp : Z;
  pt_name : string;
  pt_buf : option IOBUF
}.

Inductive PACKET :=
| PKT_NONE
| PKT_SYMKEY_ENC (enc : PKT_symkey_enc)
| PKT_PUBKEY_ENC (enc : PKT_pubkey_enc)
| PKT_PLAINTEXT (pt : PKT_plaintext).

Record cipher_filter_context_t := mkCfx {
  cfx_dek : option DEK;
  cfx_datalen : Z
}.

Record compress_filter_context_t := mkZfx {
  zfx_algo : Z
}.

Record encrypt_filter_context_t := mkEfx {
  efx_pk_list : PK_LIST;
  efx_cfx : cipher_filter_context_t;
  efx_header_okay : Z
}.

(** The filters encode.c pushes, with the context each is pushed with. *)
Inductive iobuf_filter :=
| text_filter
| armor_filter
| cipher_filter (cfx : cipher_filter_context_t)
| compress_filter (zfx : compress_filter_context_t).

(** Control codes of the filter protocol (iobuf.h). *)
Inductive iobufctrl :=
| IOBUFCTRL_INIT
| IOBUFCTRL_FREE
| IOBUFCTRL_UNDERFLOW
| IOBUFCTRL_FLUSH
| IOBUFCTRL_DESC
| IOBUFCTRL_CANCEL.

Inductive status := STATUS_END_ENCRYPTION.

(** ** Events: every call encode.c makes that is visible outside it *)

Inductive event :=
| Log_info (fmt : string)
| Log_error (fmt : string)
| Is_file_compressed (filename : option string)
| Build_pk_list (remusr : list string) (rc : Z) (pk_list : PK_LIST)
| Iobuf_open (filename : option string) (inp : option IOBUF)
| Open_outfile (filename : option string) (armored : Z) (rc : Z)
| Push_filter_inp (f : iobuf_filter)
| Push_filter_out (out : OUTBUF) (f : iobuf_filter)
| Passphrase_to_dek (algo : Z) (s2k : STRING2KEY) (dek : option DEK)
| Make_session_key (dek : DEK)
| Print_pubkey_algo_note (algo : Z)
| Pubkey_encrypt (pk : PKT_public_key) (rc : Z)
| Build_packet (out : OUTBUF) (pkt : PACKET) (rc : Z)
| Iobuf_write (out : OUTBUF) (data : list byte) (rc : Z)
| Iobuf_close_inp (inp : option IOBUF)
| Iobuf_cancel_inp (inp : option IOBUF)
| Iobuf_close_out (out : option OUTBUF)
| Iobuf_cancel_out (out : option OUTBUF)
| Write_status (st : status)
| Free_symkey_enc (enc : PKT_symkey_enc)
| Free_pubkey_enc (enc : PKT_pubkey_enc)
| Free_packet (pkt : PACKET)
| Free_dek (dek : option DEK)
| Free_s2k (s2k : option STRING2KEY)
| Release_pk_list (pk_list : PK_LIST)
| Bug.

(** ** The rest of GnuPG, as seen from encode.c

    Constants and macros come from headers that are not part of this
    file's source (errors.h, cipher.h, iobuf.h, packet.h); functions come
    from other translation units.  Functions that touch files, the random
    pool, the terminal or the output stream are transitions on the world;
    the others are pure. *)
Class Externals (W : Type) := {
  G10ERR_OPEN_FILE : Z;
  G10ERR_PASSPHRASE : Z;
  G10ERR_WRITE_FILE : Z;
  CIPHER_ALGO_3DES : Z;
  DEFAULT_CIPHER_ALGO : Z;
  PUBKEY_USAGE_ENC : Z;
  IOBUF_FILELENGTH_LIMIT : Z;
  is_RSA : Z -> bool;
  nbits_from_pk : PKT_public_key -> Z;
  pubkey_nbits : Z -> list MPI -> Z;
  keyid_from_pk : PKT_public_key -> Z * Z;
  encode_session_key : DEK -> Z -> MPI;
  make_basename : string -> string;
  calc_packet_length : PACKET -> Z;
  ext_is_file_compressed : W -> option string -> (Z * Z) * W;
  ext_build_pk_list : W -> list string -> Z -> (Z * PK_LIST) * W;
  ext_iobuf_open : W -> option string -> option IOBUF * W;
  ext_open_outfile : W -> option string -> Z -> (Z * OUTBUF) * W;
  ext_passphrase_to_dek :
    W -> Z -> STRING2KEY -> Z -> (option DEK * STRING2KEY) * W;
  ext_make_session_key : W -> Z -> (Z * list byte) * W;
  ext_pubkey_encrypt : W -> Z -> MPI -> list MPI -> (Z * list MPI) * W;
  ext_build_packet : W -> OUTBUF -> PACKET -> Z * W;
  ext_iobuf_write : W -> OUTBUF -> list byte -> Z * W;
  ext_make_timestamp : W -> Z * W
}.

(** ** State, log and the monad the embedding is written in *)

Record state (W : Type) := mkState {
  world : W;
  options : opt.t
}.

Definition M (W A : Type) : Type := state W -> A * state W * list event.

Definition ret {W A} (a : A) : M W A := fun s => (a, s, []).

Definition bind {W A B} (m : M W A) (f : A -> M W B) : M W B :=
  fun s =>
    let '(a, s1, l1) := m s in
    let '(b, s2, l2) := f a s1 in
    (b, s2, l1 ++ l2).

Definition emit {W} (e : event) : M W unit := fun s => (tt, s, [e]).

(** A statement guarded by a condition that only logs. *)
Definition when {W} (c : bool) (e : event) : M W unit :=
  fun s => (tt, s, if c then [e] else []).

Definition get_opt {W} : M W opt.t := fun s => (options s, s, []).

Definition set_pgp2 {W} (v : Z) : M W unit :=
  fun s => (tt, mkState (world s) (opt.with_pgp2 v (options s)), []).

(** Call of a world transition, logging [ev result]. *)
Definition call {W R} (f : W -> R * W) (ev : R -> list event) : M W R :=
  fun s =>
    let '(r, w) := f (world s) in
    (r, mkState w (options s), ev r).

Definition val {W A} (r : A * state W * list event) : A := fst (fst r).
Definition st {W A} (r : A * state W * list event) : state W := snd (fst r).
Definition log {W A} (r : A * state W * list event) : list event := snd r.

Declare Scope monad_scope.
Delimit Scope monad_scope with monad.
Notation "x <- m ;; k" := (bind m (fun x => k))
  (at level 61, m at next level, right associativity) : monad_scope.
Notation "' pat <- m ;; k" :=
  (bind m (fun x => match x with pat => k end))
  (at level 61, pat pattern, m at next level, right associativity)
  : monad_scope.
Notation "m ;; k" := (bind m (fun _ => k))
  (at level 61, right associativity) : monad_scope.
Open Scope monad_scope.

(** ** Recipient policy (pkclist.c) *)

(** Modelled from the spec: part of [select_algo_from_prefs] below.  The
    algorithms of type [preftype] that every key of [pk_list] advertises
    ("the intersection of all recipients' advertised" preferences), in
    the order of the first key's preferences. *)
Definition common_prefs (pk_list : PK_LIST) (preftype : preftype_t)
  : list Z :=
  match pk_list with
  | [] => []
  | pk :: rest =>
      filter
        (fun a =>
           forallb (fun pk' => existsb (Z.eqb a) (pk_prefs pk' preftype)) rest)
        (pk_prefs pk preftype)
  end.

(** Modelled from the spec: [select_algo_from_prefs] lives in pkclist.c,
    which is not among the sources at hand.  Spec 4.4: the algorithm "most
    preferred across the intersection of all recipients' advertised"
    preferences; for the cipher the caller "falls back to a fixed default
    algorithm if no common preference exists" (encode.c tests the result
    against -1), for compression "compression is skipped entirely if the
    intersection is empty" (encode.c tests the result against 0).  The
    intersection is ranked by the first recipient's order. *)
Definition select_algo_from_prefs (pk_list : PK_LIST) (preftype : preftype_t)
  : Z :=
  match common_prefs pk_list preftype with
  | a :: _ => a
  | [] => match preftype with PREFTYPE_ZIP => 0 | _ => -1 end
  end.

(** Modelled from the spec: [select_mdc_from_pklist] lives in pkclist.c,
    which is not among the sources at hand.  Spec 4.4: integrity protection
    is "enabled if and only if every recipient's key supports it; a single
    non-supporting recipient disables it for the whole message". *)
Definition select_mdc_from_pklist (pk_list : PK_LIST) : Z :=
  b2i (forallb (fun pk => nz (pk_mdc_feature pk)) pk_list).

(** ** encode.c

    The embedding follows the default build: the blocks under
    [ENABLE_COMMENT_PACKETS] (encode.c:136-143 and 324-331) are not
    compiled, and the [DBG_CIPHER] hex dump of the session key
    (encode.c:359-360 and 495-497) is debugging output without an event.
    Local variables of the C functions are let-bound values; an early
    [return] or [goto leave] ends the run of the enclosing branch. *)

(** What a filter call does: it returns a code, or never returns
    ([BUG ()]). *)
Inductive result := Returns (rc : Z) | Aborts.

Section Program.
Context {W : Type} {X : Externals W}.

Local Abbreviation M := (M W).

(** *** Calls into the rest of GnuPG *)

Definition log_info (fmt : string) : M unit := emit (Log_info fmt).
Definition log_error (fmt : string) : M unit := emit (Log_error fmt).

Definition is_file_compressed (filename : option string) : M (Z * Z) :=
  call (fun w => ext_is_file_compressed w filename)
       (fun _ => [Is_file_compressed filename]).

Definition build_pk_list (remusr : list string) (use : Z)
  : M (Z * PK_LIST) :=
  call (fun w => ext_build_pk_list w remusr use)
       (fun r => [Build_pk_list remusr (fst r) (snd r)]).

Definition iobuf_open (filename : option string) : M (option IOBUF) :=
  call (fun w => ext_iobuf_open w filename)
       (fun r => [Iobuf_open filename r]).

Definition open_outfile (filename : option string) (mode : Z)
  : M (Z * OUTBUF) :=
  call (fun w => ext_open_outfile w filename mode)
       (fun r => [Open_outfile filename mode (fst r)]).

Definition passphrase_to_dek (algo : Z) (s2k : STRING2KEY) (mode : Z)
  : M (option DEK * STRING2KEY) :=
  call (fun w => ext_passphrase_to_dek w algo s2k mode)
       (fun r => [Passphrase_to_dek algo (snd r) (fst r)]).

(** [make_session_key] fills in the key and its length for the cipher
    [dek->algo]; the algorithm and the MDC flag are the caller's. *)
Definition make_session_key (dek : DEK) : M DEK :=
  call (fun w =>
          let '(keylen, key, w') := ext_make_session_key w (dek_algo dek) in
          (mkDEK (dek_algo dek) keylen key (dek_use_mdc dek), w'))
       (fun d => [Make_session_key d]).

Definition pubkey_encrypt (pk : PKT_public_key) (frame : MPI)
  : M (Z * list MPI) :=
  call (fun w => ext_pubkey_encrypt w (pubkey_algo pk) frame (pkey pk))
       (fun r => [Pubkey_encrypt pk (fst r)]).

Definition build_packet (out : OUTBUF) (pkt : PACKET) : M Z :=
  call (fun w => ext_build_packet w out pkt)
       (fun rc => [Build_packet out pkt rc]).

Definition iobuf_write (out : OUTBUF) (buf : list byte) : M Z :=
  call (fun w => ext_iobuf_write w out buf)
       (fun rc => [Iobuf_write out buf rc]).

Definition make_timestamp : M Z :=
  call (fun w => ext_make_timestamp w) (fun _ => []).

Definition iobuf_get_filelength (a : IOBUF) : Z := iobuf_filelength a.

(** [if (pt) pt->buf = NULL;] seen through [pkt.pkt.plaintext]. *)
Definition clear_buf (pkt : PACKET) : PACKET :=
  match pkt with
  | PKT_PLAINTEXT pt =>
      PKT_PLAINTEXT
        (mkPlaintext (pt_len pt) (pt_mode pt) (pt_new_ctb pt)
                     (pt_timestamp pt) (pt_name pt) None)
  | _ => pkt
  end.

(** *** write_pubkey_enc_from_list (encode.c:522-581) *)

Fixpoint write_pubkey_enc_from_list
  (pk_list : PK_LIST) (dek : DEK) (out : OUTBUF) : M Z :=
  match pk_list with
  | [] => ret 0
  | pk :: next =>
      o <- get_opt ;;
      emit (Print_pubkey_algo_note (pubkey_algo pk)) ;;
      let frame :=
        encode_session_key dek (pubkey_nbits (pubkey_algo pk) (pkey pk)) in
      '(rc, data) <- pubkey_encrypt pk frame ;;
      let enc :=
        mkPubkeyEnc (keyid_from_pk pk) (pubkey_algo pk)
                    (to_byte (opt.throw_keyid o)) data in
      rc <- (if nz rc then
               log_error "pubkey_encrypt failed: %s" ;; ret rc
             else
               when (nz (opt.verbose o))
                    (Log_info "%s/%s encrypted for: %s") ;;
               rc <- build_packet out (PKT_PUBKEY_ENC enc) ;;
               when (nz rc)
                    (Log_error "build_packet(pubkey_enc) failed: %s") ;;
               ret rc) ;;
      emit (Free_pubkey_enc enc) ;;
      if nz rc then ret rc
      else write_pubkey_enc_from_list next dek out
  end.

(** *** The copy loop of the [--no-literal] case
    (encode.c:223-231 and 431-439).  [rc] is the caller's [rc] on entry. *)
Fixpoint copy_plain (out : OUTBUF) (reads : list (list byte)) (rc : Z)
  : M Z :=
  match reads with
  | [] => ret rc
  | copy_buffer :: rest =>
      r <- iobuf_write out copy_buffer ;;
      if r =? -1 then
        log_error "copying input to output failed: %s" ;;
        ret G10ERR_WRITE_FILE
      else copy_plain out rest rc
  end.

(** [filename || opt.set_filename] and the name put into the literal
    packet (encode.c:158-169 and 368-378). *)
Definition plaintext_name (o : opt.t) (filename : option string) : string :=
  match opt.set_filename o, filename with
  | Some s, _ => make_basename s
  | None, Some s => make_basename s
  | None, None => EmptyString
  end.

Definition zeroed_s2k : STRING2KEY := mkS2K 0 0 (repeat 0 8%nat) 0.

(** *** encode_simple (encode.c:68-249) *)

Definition encode_simple (filename : option string) (mode : Z) : M Z :=
  o <- get_opt ;;
  let do_compress := nz (opt.compress o) && negb (nz (opt.rfc1991 o)) in
  '(compressed, rc) <- is_file_compressed filename ;;
  when (nz compressed && nz (opt.verbose o))
       (Log_info "`%s' already compressed") ;;
  let do_compress := if nz compressed then false else do_compress in
  if nz rc then ret rc else
  inp <- iobuf_open filename ;;
  match inp with
  | None => log_error "%s: can't open: %s" ;; ret G10ERR_OPEN_FILE
  | Some inp =>
  when (nz (opt.textmode o)) (Push_filter_inp text_filter) ;;
  (* cfx.dek = NULL; if (mode) { ... } : the key and its s2k, or the
     early return *)
  key <- (if nz mode then
            let s2k :=
              mkS2K (if nz (opt.rfc1991 o) then 0 else opt.s2k_mode o)
                    (to_byte (if nz (opt.def_digest_algo o)
                              then opt.def_digest_algo o
                              else opt.s2k_digest_algo o))
                    (s2k_salt zeroed_s2k) (s2k_count zeroed_s2k) in
            '(dek, s2k) <-
              passphrase_to_dek
                (if nz (opt.def_cipher_algo o)
                 then opt.def_cipher_algo o
                 else opt.s2k_cipher_algo o) s2k 2 ;;
            match dek with
            | Some d =>
                if nz (dek_keylen d) then ret (inr (Some (d, s2k)))
                else
                  emit (Free_dek dek) ;;
                  emit (Free_s2k (Some s2k)) ;;
                  emit (Iobuf_close_inp (Some inp)) ;;
                  log_error "error creating passphrase: %s" ;;
                  ret (inl G10ERR_PASSPHRASE)
            | None =>
                emit (Free_dek dek) ;;
                emit (Free_s2k (Some s2k)) ;;
                emit (Iobuf_close_inp (Some inp)) ;;
                log_error "error creating passphrase: %s" ;;
                ret (inl G10ERR_PASSPHRASE)
            end
          else ret (inr None)) ;;
  match key with
  | inl rc => ret rc
  | inr key =>
  let dek := option_map fst key in
  let s2k := option_map snd key in
  '(rc, out) <- open_outfile filename (if nz (opt.armor o) then 1 else 0) ;;
  if nz rc then
    emit (Iobuf_cancel_inp (Some inp)) ;;
    emit (Free_dek dek) ;;
    emit (Free_s2k s2k) ;;
    ret rc
  else
  when (nz (opt.armor o)) (Push_filter_out out armor_filter) ;;
  (* if (s2k && !opt.rfc1991) { ... } *)
  '(rc, pkt) <- (match key with
                 | Some (d, s2k) =>
                     if negb (nz (opt.rfc1991 o)) then
                       let enc := mkSymkeyEnc 4 (to_byte (dek_algo d)) s2k in
                       rc <- build_packet out (PKT_SYMKEY_ENC enc) ;;
                       when (nz rc)
                            (Log_error "build symkey packet failed: %s") ;;
                       emit (Free_symkey_enc enc) ;;
                       ret (rc, PKT_SYMKEY_ENC enc)
                     else ret (rc, PKT_NONE)
                 | None => ret (rc, PKT_NONE)
                 end) ;;
  filesize <- (if is_some filename && negb (nz (opt.textmode o)) then
                 let filesize := to_u32 (iobuf_get_filelength inp) in
                 when (negb (nz filesize))
                      (Log_info "%s: WARNING: empty file") ;;
                 ret (if IOBUF_FILELENGTH_LIMIT <=? filesize
                      then 0 else filesize)
               else
                 ret (if nz (opt.set_filesize o)
                      then to_u32 (opt.set_filesize o) else 0)) ;;
  '(pkt, datalen) <-
     (if negb (nz (opt.no_literal o)) then
        timestamp <- make_timestamp ;;
        let pt :=
          mkPlaintext filesize
                      (if nz (opt.textmode o) then "t"%char else "b"%char)
                      (b2i (negb (nz filesize) && negb (nz (opt.rfc1991 o))))
                      timestamp (plaintext_name o filename) (Some inp) in
        ret (PKT_PLAINTEXT pt,
             if nz filesize && negb do_compress
             then calc_packet_length (PKT_PLAINTEXT pt) else 0)
      else
        ret (pkt, if nz filesize && negb do_compress then filesize else 0)) ;;
  let cfx := mkCfx dek datalen in
  when (nz mode) (Push_filter_out out (cipher_filter cfx)) ;;
  when do_compress (Push_filter_out out (compress_filter (mkZfx 0))) ;;
  rc <- (if negb (nz (opt.no_literal o)) then
           rc <- build_packet out pkt ;;
           when (nz rc) (Log_error "build_packet failed: %s") ;;
           ret rc
         else copy_plain out (iobuf_reads inp) rc) ;;
  emit (Iobuf_close_inp (Some inp)) ;;
  (if nz rc then emit (Iobuf_cancel_out (Some out))
   else
     emit (Iobuf_close_out (Some out)) ;;
     when (nz mode) (Write_status STATUS_END_ENCRYPTION)) ;;
  emit (Free_packet (clear_buf pkt)) ;;
  emit (Free_dek dek) ;;
  emit (Free_s2k s2k) ;;
  ret rc
  end
  end.

(** encode_symmetric (encode.c:50-54), encode_store (encode.c:60-64) *)
Definition encode_symmetric (filename : option string) : M Z :=
  encode_simple filename 1.

Definition encode_store (filename : option string) : M Z :=
  encode_simple filename 0.

(** *** encode_crypt (encode.c:255-457) *)

(** The [for] loop of encode.c:281-290. *)
Fixpoint pgp2_scan (work_list : PK_LIST) : M unit :=
  match work_list with
  | [] => ret tt
  | pk :: next =>
      if negb (is_RSA (pubkey_algo pk) && (nbits_from_pk pk <=? 2048)) then
        log_info
          "you can only encrypt to RSA keys of 2048 bits or less in --pgp2 mode" ;;
        log_info "this message may not be usable by PGP 2.x" ;;
        set_pgp2 0
      else pgp2_scan next
  end.

(** The code after the label [leave:] (encode.c:443-456). *)
Definition leave (inp : option IOBUF) (out : option OUTBUF) (rc : Z)
  (pkt : PACKET) (dek : option DEK) (pk_list : PK_LIST) : M Z :=
  emit (Iobuf_close_inp inp) ;;
  (if nz rc then emit (Iobuf_cancel_out out)
   else
     emit (Iobuf_close_out out) ;;
     emit (Write_status STATUS_END_ENCRYPTION)) ;;
  emit (Free_packet (clear_buf pkt)) ;;
  emit (Free_dek dek) ;;
  emit (Release_pk_list pk_list) ;;
  ret rc.

Definition encode_crypt (filename : option string) (remusr : list string)
  : M Z :=
  o <- get_opt ;;
  let do_compress := nz (opt.compress o) && negb (nz (opt.rfc1991 o)) in
  '(rc, pk_list) <- build_pk_list remusr PUBKEY_USAGE_ENC ;;
  if nz rc then ret rc else
  (if nz (opt.pgp2 o) then pgp2_scan pk_list else ret tt) ;;
  '(compressed, rc2) <- is_file_compressed filename ;;
  when (nz compressed && nz (opt.verbose o))
       (Log_info "`%s' already compressed") ;;
  let do_compress := if nz compressed then false else do_compress in
  if nz rc2 then leave None None rc2 PKT_NONE None pk_list else
  inp <- iobuf_open filename ;;
  match inp with
  | None =>
      log_error "can't open %s: %s" ;;
      leave None None G10ERR_OPEN_FILE PKT_NONE None pk_list
  | Some inp =>
  when (nz (opt.verbose o)) (Log_info "reading from `%s'") ;;
  when (nz (opt.textmode o)) (Push_filter_inp text_filter) ;;
  '(rc, out) <- open_outfile filename (if nz (opt.armor o) then 1 else 0) ;;
  (* on failure open_outfile leaves [out] NULL *)
  if nz rc then leave (Some inp) None rc PKT_NONE None pk_list else
  when (nz (opt.armor o)) (Push_filter_out out armor_filter) ;;
  (* create a session key *)
  algo <- (if negb (nz (opt.def_cipher_algo o)) then
             let algo := select_algo_from_prefs pk_list PREFTYPE_SYM in
             if algo =? -1 then
               o' <- get_opt ;;
               (if nz (opt.pgp2 o') then
                  log_info
                    "unable to use the IDEA cipher for all of the keys you are encrypting to." ;;
                  log_info "this message may not be usable by PGP 2.x" ;;
                  set_pgp2 0
                else ret tt) ;;
               ret CIPHER_ALGO_3DES
             else ret algo
           else ret (opt.def_cipher_algo o)) ;;
  dek <- make_session_key
           (mkDEK algo 0 [] (select_mdc_from_pklist pk_list)) ;;
  rc <- write_pubkey_enc_from_list pk_list dek out ;;
  if nz rc then leave (Some inp) (Some out) rc PKT_NONE (Some dek) pk_list
  else
  filesize <- (if is_some filename && negb (nz (opt.textmode o)) then
                 let filesize := to_u32 (iobuf_get_filelength inp) in
                 when (negb (nz filesize))
                      (Log_info "%s: WARNING: empty file") ;;
                 ret (if IOBUF_FILELENGTH_LIMIT <=? filesize
                      then 0 else filesize)
               else
                 ret (if nz (opt.set_filesize o)
                      then to_u32 (opt.set_filesize o) else 0)) ;;
  '(pkt, datalen) <-
     (if negb (nz (opt.no_literal o)) then
        timestamp <- make_timestamp ;;
        let pt :=
          mkPlaintext filesize
                      (if nz (opt.textmode o) then "t"%char else "b"%char)
                      (b2i (negb (nz filesize) && negb (nz (opt.rfc1991 o))))
                      timestamp (plaintext_name o filename) (Some inp) in
        ret (PKT_PLAINTEXT pt,
             if nz filesize && negb do_compress
             then calc_packet_length (PKT_PLAINTEXT pt) else 0)
      else
        ret (PKT_NONE,
             if nz filesize && negb do_compress then filesize else 0)) ;;
  let cfx := mkCfx (Some dek) datalen in
  emit (Push_filter_out out (cipher_filter cfx)) ;;
  (* register the compress filter *)
  (let compr_algo := select_algo_from_prefs pk_list PREFTYPE_ZIP in
   when (do_compress && nz compr_algo)
        (Push_filter_out out
           (compress_filter
              (mkZfx (if compr_algo =? 2 then 2
                      else if compr_algo =? 1 then 1 else 0))))) ;;
  rc <- (if negb (nz (opt.no_literal o)) then
           rc <- build_packet out pkt ;;
           when (nz rc) (Log_error "build_packet failed: %s") ;;
           ret rc
         else copy_plain out (iobuf_reads inp) rc) ;;
  leave (Some inp) (Some out) rc pkt (Some dek) pk_list
  end.

(** *** encrypt_filter (encode.c:465-516)

    The context behind [opaque] is passed in and handed back; the third
    component is what [IOBUFCTRL_DESC] stores through [buf]. *)
Definition encrypt_filter (efx : encrypt_filter_context_t)
  (control : iobufctrl) (a : OUTBUF) (buf : list byte)
  : M (result * encrypt_filter_context_t * option string) :=
  match control with
  | IOBUFCTRL_UNDERFLOW => emit Bug ;; ret (Aborts, efx, None)
  | IOBUFCTRL_FLUSH =>
      r <- (if negb (nz (efx_header_okay efx)) then
              o <- get_opt ;;
              let algo :=
                if negb (nz (opt.def_cipher_algo o)) then
                  let algo :=
                    select_algo_from_prefs (efx_pk_list efx) PREFTYPE_SYM in
                  if algo =? -1 then DEFAULT_CIPHER_ALGO else algo
                else opt.def_cipher_algo o in
              dek <- make_session_key
                       (mkDEK algo 0 []
                              (select_mdc_from_pklist (efx_pk_list efx))) ;;
              let efx :=
                mkEfx (efx_pk_list efx)
                      (mkCfx (Some dek) (cfx_datalen (efx_cfx efx)))
                      (efx_header_okay efx) in
              rc <- write_pubkey_enc_from_list (efx_pk_list efx) dek a ;;
              if nz rc then ret (inl rc, efx)
              else
                emit (Push_filter_out a (cipher_filter (efx_cfx efx))) ;;
                ret (inr tt, mkEfx (efx_pk_list efx) (efx_cfx efx) 1)
            else ret (inr tt, efx)) ;;
      match r with
      | (inl rc, efx) => ret (Returns rc, efx, None)
      | (inr _, efx) =>
          rc <- iobuf_write a buf ;;
          ret (Returns rc, efx, None)
      end
  | IOBUFCTRL_DESC =>
      ret (Returns 0, efx, Some "encrypt_filter"%string)
  | _ => ret (Returns 0, efx, None)
  end.

End Program.

(** * Observations on runs *)

Section Observations.
Context {W : Type} {X : Externals W}.

Local Abbreviation M := (M W).

(** The iobuf layer driving the filter: one [IOBUFCTRL_FLUSH] call per
    buffer, in order, on the same context. *)
Fixpoint flush_all (efx : encrypt_filter_context_t) (a : OUTBUF)
  (bufs : list (list byte)) : M (list result * encrypt_filter_context_t) :=
  match bufs with
  | [] => ret ([], efx)
  | buf :: rest =>
      '(r, efx, _) <- encrypt_filter efx IOBUFCTRL_FLUSH a buf ;;
      '(rs, efx) <- flush_all efx a rest ;;
      ret (r :: rs, efx)
  end.

(** [always P m]: every event of every run of [m] satisfies [P]. *)
Definition always {A} (P : event -> Prop) (m : M A) : Prop :=
  forall s, Forall P (log (m s)).

(** [spec o m Q]: started with option block [o], in any world, [m]
    returns a value [a], leaves option block [o'] and logs [l] with
    [Q a o' l]. *)
Definition spec {A} (o : opt.t) (m : M A)
  (Q : A -> opt.t -> list event -> Prop) : Prop :=
  forall s, options s = o ->
            Q (val (m s)) (options (st (m s))) (log (m s)).

(** Who a public-key session-key packet is addressed to, and the same
    for a key. *)
Definition enc_recipient (enc : PKT_pubkey_enc) : Z * Z * Z :=
  (enc_keyid enc, enc_pubkey_algo enc).

Definition pk_recipient (pk : PKT_public_key) : Z * Z * Z :=
  (keyid_from_pk pk, pubkey_algo pk).

End Observations.

(** The recipients whose key wrap was attempted, in log order. *)
Fixpoint wrapped (l : list event) : list PKT_public_key :=
  match l with
  | [] => []
  | Pubkey_encrypt pk _ :: l => pk :: wrapped l
  | _ :: l => wrapped l
  end.

(** The public-key session-key packets written successfully, in log
    order. *)
Fixpoint emitted (l : list event) : list PKT_pubkey_enc :=
  match l with
  | [] => []
  | Build_packet _ (PKT_PUBKEY_ENC enc) rc :: l =>
      if rc =? 0 then enc :: emitted l else emitted l
  | _ :: l => emitted l
  end.

(** The return code of a key-wrap primitive: [pubkey_encrypt], or
    [build_packet] of a public-key session-key packet. *)
Definition wrap_rc (e : event) : option Z :=
  match e with
  | Pubkey_encrypt _ rc => Some rc
  | Build_packet _ (PKT_PUBKEY_ENC _) rc => Some rc
  | _ => None
  end.

(** The return codes of the key-wrap primitives, in log order. *)
Definition wrap_rcs (l : list event) : list Z :=
  flat_map (fun e => match wrap_rc e with Some rc => [rc] | None => [] end) l.

(** Application data handed to the output stream. *)
Definition is_data (e : event) : Prop :=
  match e with
  | Iobuf_write _ _ _ => True
  | Build_packet _ (PKT_PLAINTEXT _) _ => True
  | _ => False
  end.

(** Anything that touches an output stream. *)
Definition touches_output (e : event) : Prop :=
  match e with
  | Open_outfile _ _ _ | Push_filter_out _ _ | Build_packet _ _ _
  | Iobuf_write _ _ _ | Iobuf_close_out _ | Iobuf_cancel_out _ => True
  | _ => False
  end.

(** Finalization of the output: a normal close or the end-of-encryption
    status. *)
Definition finalizes (e : event) : Prop :=
  match e with
  | Iobuf_close_out _ | Write_status _ => True
  | _ => False
  end.

Definition dek_unusable (dek : option DEK) : Prop :=
  match dek with
  | None => True
  | Some d => dek_keylen d = 0
  end.

(** The DEK an event carries, if it is one of the events that receive
    the message's DEK. *)
Definition event_dek (e : event) : option DEK :=
  match e with
  | Make_session_key d => Some d
  | Push_filter_out _ (cipher_filter cfx) => cfx_dek cfx
  | _ => None
  end.

Definition is_cipher_push (e : event) : Prop :=
  match e with
  | Push_filter_out _ (cipher_filter _) => True
  | _ => False
  end.

Definition count_session_keys (l : list event) : nat :=
  List.length
    (List.filter
       (fun e => match e with Make_session_key _ => true | _ => false end) l).

(** ** A small concrete rest-of-GnuPG, for running the code on examples

    The world carries nothing; what the collaborators answer is fixed by a
    [scenario].  Constants have the values of GnuPG's headers. *)
Record scenario := mkScenario {
  sc_keys : PK_LIST;
  sc_input : option IOBUF;
  sc_passphrase_dek : option DEK;
  sc_pubkey_encrypt_rc : Z -> Z;
  sc_build_packet_rc : PACKET -> Z;
  sc_default_cipher_algo : Z
}.

Definition scenario_externals (sc : scenario) : Externals unit := {|
  G10ERR_OPEN_FILE := 24;
  G10ERR_PASSPHRASE := 26;
  G10ERR_WRITE_FILE := 22;
  CIPHER_ALGO_3DES := 2;
  DEFAULT_CIPHER_ALGO := sc_default_cipher_algo sc;
  PUBKEY_USAGE_ENC := 2;
  IOBUF_FILELENGTH_LIMIT := 0xffffffff;
  is_RSA := fun a => (a =? 1) || (a =? 2) || (a =? 3);
  nbits_from_pk := fun pk => Z.log2 (hd 0 (pkey pk)) + 1;
  pubkey_nbits := fun _ pkey => Z.log2 (hd 0 pkey) + 1;
  keyid_from_pk := fun pk => (0, hd 0 (pkey pk) mod 2 ^ 32);
  encode_session_key := fun dek _ => 2 + dek_algo dek;
  make_basename := fun s => s;
  calc_packet_length :=
    fun pkt =>
      match pkt with
      | PKT_PLAINTEXT pt => pt_len pt + Z.of_nat (String.length (pt_name pt)) + 6
      | _ => 0
      end;
  ext_is_file_compressed := fun w _ => (0, 0, w);
  ext_build_pk_list := fun w _ _ => (0, sc_keys sc, w);
  ext_iobuf_open := fun w _ => (sc_input sc, w);
  ext_open_outfile := fun w _ _ => (0, 1, w);
  ext_passphrase_to_dek := fun w _ s2k _ => (sc_passphrase_dek sc, s2k, w);
  ext_make_session_key := fun w _ => (16, repeat 0 16%nat, w);
  ext_pubkey_encrypt :=
    fun w algo frame _ => (sc_pubkey_encrypt_rc sc algo, [frame], w);
  ext_build_packet := fun w _ pkt => (sc_build_packet_rc sc pkt, w);
  ext_iobuf_write := fun w _ _ => (0, w);
  ext_make_timestamp := fun w => (0, w)
|}.

Definition CIPHER_ALGO_CAST5 : Z := 3.

(** A 12-bit RSA key and a 12-bit ElGamal key. *)
Definition sample_prefs (syms : list Z) (t : preftype_t) : list Z :=
  match t with
  | PREFTYPE_SYM => syms
  | PREFTYPE_HASH => [2]
  | PREFTYPE_ZIP => [1]
  end.

Definition rsa_key : PKT_public_key :=
  mkPK 1 [3233; 17] (sample_prefs [9; 3; 2]) 1.

Definition elg_key : PKT_public_key :=
  mkPK 16 [2579; 2; 949] (sample_prefs [3; 2]) 0.

Definition hello_input : IOBUF :=
  mkIOBUF [[104; 101; 108; 108; 111; 119; 111; 114; 108; 100]] 10.

Definition default_opt : opt.t :=
  opt.mk 0 0 0 0 0 0 0 0 0 0 3 2 3 None 0.

Definition all_good (keys : PK_LIST) : scenario :=
  mkScenario keys (Some hello_input)
             (Some (mkDEK 3 16 (repeat 0 16%nat) 0))
             (fun _ => 0) (fun _ => 0) CIPHER_ALGO_CAST5.

Definition start (o : opt.t) : state unit := mkState tt o.

(** Events of a key-wrap run on the stream [out]. *)
Definition wrap_event (out : OUTBUF) (e : event) : Prop :=
  match e with
  | Print_pubkey_algo_note _ | Pubkey_encrypt _ _ | Log_error _
  | Log_info _ | Free_pubkey_enc _ => True
  | Build_packet out' (PKT_PUBKEY_ENC _) _ => out' = out
  | _ => False
  end.

(** Events of the copy loop on the stream [out]. *)
Definition copy_event (out : OUTBUF) (e : event) : Prop :=
  match e with
  | Iobuf_write out' _ _ => out' = out
  | Log_error _ => True
  | _ => False
  end.

(** The packets [encode_simple] may build: the literal packet, and the
    symmetric session-key packet only outside RFC-1991 mode and only in
    symmetric mode. *)
Definition symkey_only_modern (o : opt.t) (mode : Z) (e : event) : Prop :=
  match e with
  | Build_packet _ (PKT_SYMKEY_ENC _) _ => opt.rfc1991 o = 0 /\ mode <> 0
  | Build_packet _ (PKT_PLAINTEXT _) _ => True
  | Build_packet _ _ _ => False
  | _ => True
  end.

(** Application data written through the filter. *)
Definition is_app_write (e : event) : Prop :=
  match e with
  | Iobuf_write _ _ _ => True
  | _ => False
  end.

(** Every DEK an event carries satisfies [good]. *)
Definition dek_event_ok (good : DEK -> Prop) (e : event) : Prop :=
  match event_dek e with
  | Some d => good d
  | None => True
  end.

Definition not_build_pk_list (e : event) : Prop :=
  match e with
  | Build_pk_list _ _ _ => False
  | _ => True
  end.

(** A write that did not fail. *)
Definition write_ok (e : event) : Prop :=
  match e with
  | Iobuf_write _ _ rc => rc <> -1
  | _ => True
  end.

Definition is_cancel_out (e : event) : Prop :=
  match e with
  | Iobuf_cancel_out _ => True
  | _ => False
  end.

(** Events that are not the call of a key-wrap primitive. *)
Definition no_wrap (e : event) : Prop := wrap_rc e = None.

(** An initialization of [encrypt_filter] that did not complete: the
    session key it generated, the events of its key wrap, and the code
    the flush returned. *)
Record attempt := mkAttempt {
  att_dek : DEK;
  att_wrap : list event;
  att_rc : Z
}.

(** What such a flush logs: it begins with the new session key. *)
Definition attempt_log (t : attempt) : list event :=
  Make_session_key (att_dek t) :: att_wrap t.

(** The key wrap of a failed attempt on the stream [a] logs key-wrap
    events only (so no application data and no cipher filter); the code
    returned is not 0 and is the code of the last key-wrap primitive
    called, all earlier ones having returned 0. *)
Definition failed_attempt (a : OUTBUF) (t : attempt) : Prop :=
  att_rc t <> 0 /\
  Forall (wrap_event a) (att_wrap t) /\
  exists pre, wrap_rcs (att_wrap t) = pre ++ [att_rc t] /\ Forall (eq 0) pre.

(** One [iobuf_write] per buffer, in order, each with the code it
    returned. *)
Definition data_writes (a : OUTBUF) (bufs : list (list byte))
  (rcs : list Z) : list event :=
  map (fun p => Iobuf_write a (fst p) (snd p)) (combine bufs rcs).

Section Postconditions.
Context {W : Type} {X : Externals W}.

(** What a run of [write_pubkey_enc_from_list] on [pk_list] returns and
    logs: the recipients whose wrap was attempted are the first [n] of
    the list, in order; on success all of them, each with its packet; on
    failure the code returned is the one of the last primitive called,
    all earlier ones succeeded, and packets exist for the [n - 1]
    recipients before the failing one. *)
Definition wrap_post (o : opt.t) (pk_list : PK_LIST) (out : OUTBUF)
  (rc : Z) (o' : opt.t) (l : list event) : Prop :=
  o' = o /\
  Forall (wrap_event out) l /\
  exists n,
    (n <= List.length pk_list)%nat /\
    wrapped l = firstn n pk_list /\
    (rc = 0 ->
     n = List.length pk_list /\
     map enc_recipient (emitted l) = map pk_recipient pk_list /\
     Forall (eq 0) (wrap_rcs l)) /\
    (rc <> 0 ->
     (0 < n)%nat /\
     map enc_recipient (emitted l) =
       map pk_recipient (firstn (n - 1) pk_list) /\
     exists pre, wrap_rcs l = pre ++ [rc] /\ Forall (eq 0) pre).

(** The length the literal packet declares, as encode.c:183-193 and
    381-390 compute it. *)
Definition literal_length (o : opt.t) (filename : option string)
  (inp : IOBUF) : Z :=
  if is_some filename && negb (nz (opt.textmode o)) then
    if IOBUF_FILELENGTH_LIMIT <=? to_u32 (iobuf_get_filelength inp)
    then 0 else to_u32 (iobuf_get_filelength inp)
  else if nz (opt.set_filesize o) then to_u32 (opt.set_filesize o) else 0.

(** Every literal packet handed to [build_packet] reads from the input
    stream, declares [literal_length] and asks for a new-style header
    exactly when that length is 0 and [opt.rfc1991] is off. *)
Definition literal_ok (o : opt.t) (filename : option string) (e : event)
  : Prop :=
  match e with
  | Build_packet _ (PKT_PLAINTEXT pt) _ =>
      exists inp,
        pt_buf pt = Some inp /\
        pt_len pt = literal_length o filename inp /\
        pt_new_ctb pt =
          b2i (negb (nz (pt_len pt)) && negb (nz (opt.rfc1991 o)))
  | _ => True
  end.

(** The cipher encode.c chooses (encode.c:334-355 and 480-490), with
    [fallback] for the case that the recipients have no common
    preference. *)
Definition cipher_choice (o : opt.t) (fallback : Z) (pk_list : PK_LIST)
  : Z :=
  if negb (nz (opt.def_cipher_algo o)) then
    if select_algo_from_prefs pk_list PREFTYPE_SYM =? -1 then fallback
    else select_algo_from_prefs pk_list PREFTYPE_SYM
  else opt.def_cipher_algo o.

Definition dek_policy (o : opt.t) (fallback : Z) (pk_list : PK_LIST)
  (d : DEK) : Prop :=
  dek_use_mdc d = select_mdc_from_pklist pk_list /\
  dek_algo d = cipher_choice o fallback pk_list.

(** The test of encode.c:282-283, negated. *)
Definition too_big_for_pgp2 (pk : PKT_public_key) : bool :=
  negb (is_RSA (pubkey_algo pk) && (nbits_from_pk pk <=? 2048)).

(** What flushes of [bufs] through a filter whose header is not yet
    written return and log, for the recipients [pk_list].  Every flush
    before the one that completes the initialization is a failed
    attempt.  Either all are, and the header is still not written; or
    the flush of [buf] completes the initialization (session key, one
    packet per recipient, cipher filter), writes [buf], and the later
    flushes only write their buffers. *)
Definition init_flushes (pk_list : PK_LIST) (datalen : Z) (a : OUTBUF)
  (bufs : list (list byte))
  (v : list result * encrypt_filter_context_t) (l : list event) : Prop :=
  exists attempts,
    Forall (failed_attempt a) attempts /\
    ((List.length attempts = List.length bufs /\
      fst v = map (fun t => Returns (att_rc t)) attempts /\
      efx_pk_list (snd v) = pk_list /\
      efx_header_okay (snd v) = 0 /\
      l = flat_map attempt_log attempts) \/
     (exists before buf after dek lw rcs,
         bufs = before ++ buf :: after /\
         List.length before = List.length attempts /\
         List.length rcs = List.length (buf :: after) /\
         fst v = map (fun t => Returns (att_rc t)) attempts
                 ++ map Returns rcs /\
         snd v = mkEfx pk_list (mkCfx (Some dek) datalen) 1 /\
         l = flat_map attempt_log attempts
             ++ Make_session_key dek
                :: lw
                   ++ Push_filter_out a
                        (cipher_filter (mkCfx (Some dek) datalen))
                      :: data_writes a (buf :: after) rcs /\
         Forall (wrap_event a) lw /\
         Forall (eq 0) (wrap_rcs lw) /\
         map enc_recipient (emitted lw) = map pk_recipient pk_list)).

(** What flushes of [bufs] through a filter whose header is written
    return and log: one write per buffer; the context stays as it
    is. *)
Definition data_flushes (efx : encrypt_filter_context_t) (a : OUTBUF)
  (bufs : list (list byte))
  (v : list result * encrypt_filter_context_t) (l : list event) : Prop :=
  exists rcs,
    List.length rcs = List.length bufs /\
    v = (map Returns rcs, efx) /\
    l = data_writes a bufs rcs.

(** What one [IOBUFCTRL_FLUSH] call returns and logs. *)
Definition flush_post (o : opt.t) (efx : encrypt_filter_context_t)
  (a : OUTBUF) (buf : list byte)
  (v : result * encrypt_filter_context_t * option string)
  (o' : opt.t) (l : list event) : Prop :=
  let res := fst (fst v) in
  let efx' := snd (fst v) in
  o' = o /\
  if nz (efx_header_okay efx) then
    efx' = efx /\ exists rc, res = Returns rc /\ l = [Iobuf_write a buf rc]
  else
    efx_pk_list efx' = efx_pk_list efx /\
    cfx_datalen (efx_cfx efx') = cfx_datalen (efx_cfx efx) /\
    exists dek lw,
      Forall (wrap_event a) lw /\
      ((exists rcw,
           rcw <> 0 /\ res = Returns rcw /\
           efx_header_okay efx' = efx_header_okay efx /\
           l = Make_session_key dek :: lw) \/
       (exists rc,
           res = Returns rc /\ efx_header_okay efx' = 1 /\
           map enc_recipient (emitted lw)
           = map pk_recipient (efx_pk_list efx) /\
           l = Make_session_key dek
               :: lw ++
                  [Push_filter_out a
                     (cipher_filter
                        (mkCfx (Some dek) (cfx_datalen (efx_cfx efx))));
                   Iobuf_write a buf rc])).



End Postconditions.

(** ** Inputs for the examples *)

(** Two recipients; the second one's key wrap fails with
    [G10ERR_PUBKEY_ALGO]. *)
Definition second_wrap_fails : scenario :=
  mkScenario [rsa_key; elg_key] (Some hello_input) None
             (fun algo => if algo =? 16 then 4 else 0) (fun _ => 0)
             CIPHER_ALGO_CAST5.

(** The passphrase prompt is cancelled. *)
Definition no_passphrase : scenario :=
  mkScenario [] (Some hello_input) None (fun _ => 0) (fun _ => 0)
             CIPHER_ALGO_CAST5.

(** [build_packet] fails on the symmetric session-key packet and on
    nothing else. *)
Definition symkey_build_fails : scenario :=
  mkScenario [] (Some hello_input)
             (Some (mkDEK 3 16 (repeat 0 16%nat) 0)) (fun _ => 0)
             (fun pkt => match pkt with PKT_SYMKEY_ENC _ => 22 | _ => 0 end)
             CIPHER_ALGO_CAST5.


Definition huge_input : IOBUF := mkIOBUF [] 0xffffffff.

Definition huge_file : scenario :=
  mkScenario [rsa_key] (Some huge_input)
             (Some (mkDEK 3 16 (repeat 0 16%nat) 0))
             (fun _ => 0) (fun _ => 0) CIPHER_ALGO_CAST5.

(** A key whose only advertised cipher nobody else advertises. *)
Definition odd_key : PKT_public_key :=
  mkPK 1 [3127; 3] (sample_prefs [7]) 1.

Definition rfc1991_opt : opt.t :=
  opt.mk 0 0 0 0 1 0 0 0 0 0 3 2 3 None 0.

Definition textmode_opt : opt.t :=
  opt.mk 0 0 0 1 0 0 0 0 0 0 3 2 3 None 0.

Definition stdin_sized_opt : opt.t :=
  opt.mk 0 0 0 0 0 0 0 0 0 0 3 2 3 None 10.

Definition pgp2_opt : opt.t :=
  opt.mk 0 0 0 0 0 1 0 0 0 0 3 2 3 None 0.

Definition no_literal_opt : opt.t :=
  opt.mk 0 0 0 0 0 0 1 0 0 0 3 2 3 None 0.

(** ** encode_crypt_files (encode.c:583-625)

    The batch front end: it encrypts the files named on the command line
    or, without any, the files named on standard input, one name per
    line.  The calls it makes itself (status lines, its own error
    messages) are events of their own type; the events of the
    [encode_crypt] runs it starts appear under [Crypt]. *)

(** The two status codes it reports (status.h). *)
Inductive file_status := STATUS_FILE_START | STATUS_FILE_DONE.

Inductive files_event :=
| Crypt (e : event)
  (* log_error (_("--output doesn't work for this command\n")) *)
| Log_error_outfile
  (* log_error ("input line %u too long or missing LF\n", lno) *)
| Log_error_line (lno : Z)
  (* log_error ("%s: encryption failed: %s\n", print_fname_stdin (name),
                g10_errstr (rc)) *)
| Log_error_failed (name : string) (rc : Z)
  (* print_file_status (st, name, what) *)
| Print_file_status (st : file_status) (name : string) (what : Z)
  (* write_status (st) *)
| Write_file_status (st : file_status).

(** The same state as [M], with the batch's log. *)
Definition MF (W A : Type) : Type :=
  state W -> A * state W * list files_event.

Definition fret {W A} (a : A) : MF W A := fun s => (a, s, []).

Definition fbind {W A B} (m : MF W A) (f : A -> MF W B) : MF W B :=
  fun s =>
    let '(a, s1, l1) := m s in
    let '(b, s2, l2) := f a s1 in
    (b, s2, l1 ++ l2).

Definition femit {W} (e : files_event) : MF W unit := fun s => (tt, s, [e]).

(** A call of a function of encode.c from the batch. *)
Definition lift {W A} (m : M W A) : MF W A :=
  fun s => let '(a, s1, l) := m s in (a, s1, map Crypt l).

Definition fval {W A} (r : A * state W * list files_event) : A :=
  fst (fst r).
Definition fstate {W A} (r : A * state W * list files_event) : state W :=
  snd (fst r).
Definition flog {W A} (r : A * state W * list files_event)
  : list files_event := snd r.

Declare Scope files_scope.
Delimit Scope files_scope with files.
Notation "x <- m ;; k" := (fbind m (fun x => k))
  (at level 61, m at next level, right associativity) : files_scope.
Notation "m ;; k" := (fbind m (fun _ => k))
  (at level 61, right associativity) : files_scope.

(** *** C strings in the line buffer *)

Definition NUL : ascii := "000"%char.
Definition LF : ascii := "010"%char.

(** What [strlen] and the [%s] of a callee see of a buffer: the
    characters before the first NUL. *)
Fixpoint c_string (buf : string) : string :=
  match buf with
  | EmptyString => EmptyString
  | String c rest =>
      if Ascii.eqb c NUL then EmptyString else String c (c_string rest)
  end.

(** [line[strlen (line) - 1]], if [line] is not empty. *)
Fixpoint last_char (line : string) : option ascii :=
  match line with
  | EmptyString => None
  | String c EmptyString => Some c
  | String _ rest => last_char rest
  end.

(** [line[strlen (line) - 1] = '\0';] on a C string. *)
Fixpoint chop (line : string) : string :=
  match line with
  | EmptyString => EmptyString
  | String _ EmptyString => EmptyString
  | String c rest => String c (chop rest)
  end.

(** [!*line || line[strlen (line) - 1] != '\n'] (encode.c:601). *)
Definition line_unusable (line : string) : bool :=
  match last_char (c_string line) with
  | None => true
  | Some c => negb (Ascii.eqb c LF)
  end.

Section Batch.
Context {W : Type} {X : Externals W}.

Local Abbreviation MF := (MF W).
Local Open Scope files_scope.

(** The [while (fgets (line, DIM (line), stdin))] loop
    (encode.c:598-612).  [lines] holds the buffers the successive
    [fgets] calls fill before the call that returns NULL; [lno] is the
    [unsigned int] line counter. *)
Fixpoint files_from_stdin (lines : list string) (remusr : list string)
  (lno : Z) : MF unit :=
  match lines with
  | [] => fret tt
  | line :: rest =>
      let lno := to_u32 (lno + 1) in
      if line_unusable line then femit (Log_error_line lno)
      else
        let line := chop (c_string line) in
        femit (Print_file_status STATUS_FILE_START line 2) ;;
        rc <- lift (encode_crypt (Some line) remusr) ;;
        (if nz rc then femit (Log_error_failed line rc) else fret tt) ;;
        femit (Write_file_status STATUS_FILE_DONE) ;;
        files_from_stdin rest remusr lno
  end.

(** The [while (nfiles--)] loop (encode.c:615-623). *)
Fixpoint files_from_args (files : list string) (remusr : list string)
  : MF unit :=
  match files with
  | [] => fret tt
  | file :: rest =>
      femit (Print_file_status STATUS_FILE_START file 2) ;;
      rc <- lift (encode_crypt (Some file) remusr) ;;
      (if nz rc then femit (Log_error_failed file rc) else fret tt) ;;
      femit (Write_file_status STATUS_FILE_DONE) ;;
      files_from_args rest remusr
  end.

(** [files] is the array of [nfiles] names.  [outfile] is [opt.outfile],
    which nothing in encode.c assigns; [stdin] is what the [fgets] calls
    deliver. *)
Definition encode_crypt_files (outfile : option string)
  (stdin : list string) (files : list string) (remusr : list string)
  : MF unit :=
  match outfile with
  | Some _ => femit Log_error_outfile
  | None =>
      if (Z.of_nat (List.length files) =? 0)
      then files_from_stdin stdin remusr 0
      else files_from_args files remusr
  end.

(** The [encode_crypt] runs a batch makes for [names]: one per name,
    in order, each started in the state the run before it left, the
    first one in [s]. *)
Fixpoint batch_runs (names : list string) (remusr : list string)
  (s : state W) : list (string * (Z * state W * list event)) :=
  match names with
  | [] => []
  | name :: rest =>
      let r := encode_crypt (Some name) remusr s in
      (name, r) :: batch_runs rest remusr (st r)
  end.

(** The state the last of these runs leaves. *)
Fixpoint batch_end (names : list string) (remusr : list string)
  (s : state W) : state W :=
  match names with
  | [] => s
  | name :: rest =>
      batch_end rest remusr (st (encode_crypt (Some name) remusr s))
  end.

(** What the batch logs for one file and its run [r]: the start, the
    events of the run, the failure if the run returned a code other
    than 0, the end. *)
Definition file_block (nr : string * (Z * state W * list event))
  : list files_event :=
  Print_file_status STATUS_FILE_START (fst nr) 2
  :: map Crypt (log (snd nr))
     ++ (if nz (val (snd nr))
         then [Log_error_failed (fst nr) (val (snd nr))] else [])
     ++ [Write_file_status STATUS_FILE_DONE].

End Batch.

(** The lines before the first unusable one. *)
Fixpoint usable_lines (lines : list string) : list string :=
  match lines with
  | [] => []
  | line :: rest =>
      if line_unusable line then [] else line :: usable_lines rest
  end.

(** ** Further observations on logs *)

(** The stream an event hands application data to. *)
Definition data_stream (e : event) : option OUTBUF :=
  match e with
  | Iobuf_write out _ _ => Some out
  | Build_packet out (PKT_PLAINTEXT _) _ => Some out
  | _ => None
  end.

(** All application data of [l] goes to [out]. *)
Definition data_only_to (out : OUTBUF) (l : list event) : Prop :=
  Forall (fun e => forall out', data_stream e = Some out' -> out' = out) l.

(** No application data is handed to a stream before a cipher filter
    holding a key is pushed, and afterwards only to the stream that has
    the filter. *)
Fixpoint sealed (l : list event) : Prop :=
  match l with
  | [] => True
  | Push_filter_out out (cipher_filter cfx) :: l' =>
      is_some (cfx_dek cfx) = true /\ data_only_to out l'
  | e :: l' => data_stream e = None /\ sealed l'
  end.

(** An event before the cipher filter is pushed: it hands no
    application data to a stream. *)
Definition before_cipher (e : event) : Prop :=
  match e with
  | Push_filter_out _ (cipher_filter _) => False
  | _ => data_stream e = None
  end.

(** A session-key packet is written. *)
Definition is_key_packet (e : event) : Prop :=
  match e with
  | Build_packet _ (PKT_SYMKEY_ENC _) _
  | Build_packet _ (PKT_PUBKEY_ENC _) _ => True
  | _ => False
  end.

(** No session-key packet is built once a cipher filter is pushed. *)
Fixpoint keys_in_clear (l : list event) : Prop :=
  match l with
  | [] => True
  | Push_filter_out _ (cipher_filter _) :: l' =>
      Forall (fun e => ~ is_key_packet e) l'
  | _ :: l' => keys_in_clear l'
  end.

(** Number of events of a kind. *)
Definition count (p : event -> bool) (l : list event) : nat :=
  List.length (List.filter p l).

(** What a run holds at a point of its log: the input stream, the output
    stream, the recipient list, the key. *)
Record held := mkHeld {
  holds_input : bool;
  holds_output : bool;
  holds_recipients : bool;
  holds_key : bool
}.

Definition nothing_held : held := mkHeld false false false false.

(** An event that needs [c] and does not change what is held. *)
Definition needs (c : bool) (h : held) : option held :=
  if c then Some h else None.

(** The bookkeeping of one event.  Opening a stream, building the
    recipient list and obtaining a key acquire something that must not
    be held already; closing, cancelling and freeing give back something
    that must be held; what works on a stream needs it, and the cipher
    filter needs the key as well.  [None]: the event is out of place.
    Calls on a NULL stream or key do nothing. *)
Definition ledger_step (h : held) (e : event) : option held :=
  match e with
  | Iobuf_open _ (Some _) =>
      if holds_input h then None
      else Some (mkHeld true (holds_output h) (holds_recipients h)
                        (holds_key h))
  | Iobuf_close_inp (Some _) | Iobuf_cancel_inp (Some _) =>
      if holds_input h
      then Some (mkHeld false (holds_output h) (holds_recipients h)
                        (holds_key h))
      else None
  | Push_filter_inp _ => needs (holds_input h) h
  | Open_outfile _ _ rc =>
      if nz rc then Some h
      else if holds_output h then None
           else Some (mkHeld (holds_input h) true (holds_recipients h)
                             (holds_key h))
  | Iobuf_close_out (Some _) | Iobuf_cancel_out (Some _) =>
      if holds_output h
      then Some (mkHeld (holds_input h) false (holds_recipients h)
                        (holds_key h))
      else None
  | Push_filter_out _ (cipher_filter _) =>
      needs (holds_output h && holds_key h) h
  | Push_filter_out _ _ | Build_packet _ _ _ | Iobuf_write _ _ _ =>
      needs (holds_output h) h
  | Build_pk_list _ rc _ =>
      if nz rc then Some h
      else if holds_recipients h then None
           else Some (mkHeld (holds_input h) (holds_output h) true
                             (holds_key h))
  | Release_pk_list _ =>
      if holds_recipients h
      then Some (mkHeld (holds_input h) (holds_output h) false
                        (holds_key h))
      else None
  | Passphrase_to_dek _ _ (Some _) | Make_session_key _ =>
      if holds_key h then None
      else Some (mkHeld (holds_input h) (holds_output h)
                        (holds_recipients h) true)
  | Free_dek (Some _) =>
      if holds_key h
      then Some (mkHeld (holds_input h) (holds_output h)
                        (holds_recipients h) false)
      else None
  | _ => Some h
  end.

(** The bookkeeping of a log, from what is held at its start. *)
Fixpoint ledger (h : held) (l : list event) : option held :=
  match l with
  | [] => Some h
  | e :: l =>
      match ledger_step h e with
      | Some h' => ledger h' l
      | None => None
      end
  end.

(** Place of a filter in the stack on the output stream. *)
Definition filter_rank (f : iobuf_filter) : Z :=
  match f with
  | text_filter => 0
  | armor_filter => 1
  | cipher_filter _ => 2
  | compress_filter _ => 3
  end.

(** The filters pushed onto the output in [l] have strictly increasing
    ranks above [r]. *)
Fixpoint stacked (r : Z) (l : list event) : Prop :=
  match l with
  | [] => True
  | Push_filter_out _ f :: l' =>
      r < filter_rank f /\ stacked (filter_rank f) l'
  | _ :: l' => stacked r l'
  end.

(** With [b] telling whether the run compresses: the compress filter is
    pushed only if it does, and then the cipher filter is told no
    length. *)
Definition compress_ok (b : bool) (e : event) : Prop :=
  match e with
  | Push_filter_out _ (compress_filter _) => b = true
  | Push_filter_out _ (cipher_filter cfx) => b = true -> cfx_datalen cfx = 0
  | _ => True
  end.

(** With [k] the session key of a run of [encode_crypt] ([None] before
    one is made): it is the only key made, the key of the cipher filter
    and the key freed. *)
Definition session_key_is (k : option DEK) (e : event) : Prop :=
  match e with
  | Make_session_key d => k = Some d
  | Push_filter_out _ (cipher_filter cfx) => cfx_dek cfx = k /\ k <> None
  | Free_dek d => d = k
  | _ => True
  end.

(** The cipher [encode_simple] asks a key for (encode.c:114-116). *)
Definition passphrase_cipher (o : opt.t) : Z :=
  if nz (opt.def_cipher_algo o) then opt.def_cipher_algo o
  else opt.s2k_cipher_algo o.

(** With [s2k] and [k] what the one call of [passphrase_to_dek] in a run
    of [encode_simple] filled in and returned: the session-key packet
    describes them, the cipher filter holds [k], which is not empty, and
    they are what is freed. *)
Definition passphrase_key_is (o : opt.t) (s2k : STRING2KEY)
  (k : option DEK) (e : event) : Prop :=
  match e with
  | Passphrase_to_dek a s d => a = passphrase_cipher o /\ s = s2k /\ d = k
  | Build_packet _ (PKT_SYMKEY_ENC enc) _ =>
      exists d, k = Some d /\ enc = mkSymkeyEnc 4 (to_byte (dek_algo d)) s2k
  | Push_filter_out _ (cipher_filter cfx) =>
      exists d, k = Some d /\ cfx_dek cfx = Some d /\ dek_keylen d <> 0
  | Free_dek d => d = k
  | Free_s2k s => s = None \/ s = Some s2k
  | _ => True
  end.

(** The literal packets of [l] are marked as text exactly if the text
    filter has been pushed onto the input before ([pushed] tells whether
    it has been at the start of [l]); it is the only filter pushed onto
    the input, and at most once. *)
Fixpoint text_consistent (pushed : bool) (l : list event) : Prop :=
  match l with
  | [] => True
  | Push_filter_inp text_filter :: l' =>
      pushed = false /\ text_consistent true l'
  | Push_filter_inp _ :: _ => False
  | Build_packet _ (PKT_PLAINTEXT pt) _ :: l' =>
      pt_mode pt = (if pushed then "t" else "b")%char /\
      text_consistent pushed l'
  | _ :: l' => text_consistent pushed l'
  end.

(** What [free_packet] may be handed: the empty packet, or the literal
    packet once it no longer refers to the input stream. *)
Definition freed_packet_ok (e : event) : Prop :=
  match e with
  | Free_packet PKT_NONE => True
  | Free_packet (PKT_PLAINTEXT pt) => pt_buf pt = None
  | Free_packet _ => False
  | _ => True
  end.

(** The buffers handed to [iobuf_write], in order. *)
Fixpoint written (l : list event) : list (list byte) :=
  match l with
  | [] => []
  | Iobuf_write _ buf _ :: l => buf :: written l
  | _ :: l => written l
  end.

Definition no_write (e : event) : Prop :=
  match e with
  | Iobuf_write _ _ _ => False
  | _ => True
  end.


Section CopyPost.
Context {W : Type} {X : Externals W}.


End CopyPost.

(** Events of encryption: a key is asked for or made, wrapped or put
    into a packet, a cipher filter is pushed, the end of encryption is
    reported. *)
Definition encrypts (e : event) : Prop :=
  match e with
  | Passphrase_to_dek _ _ _ | Make_session_key _ | Pubkey_encrypt _ _
  | Push_filter_out _ (cipher_filter _)
  | Build_packet _ (PKT_SYMKEY_ENC _) _
  | Build_packet _ (PKT_PUBKEY_ENC _) _
  | Write_status STATUS_END_ENCRYPTION => True
  | _ => False
  end.

(** Events that create output or ask for a key. *)
Definition starts_message (e : event) : Prop :=
  match e with
  | Open_outfile _ _ _ | Push_filter_out _ _ | Build_packet _ _ _
  | Iobuf_write _ _ _ | Passphrase_to_dek _ _ _ | Make_session_key _
  | Pubkey_encrypt _ _ => True
  | _ => False
  end.

(** The only change a run may make to the option block: switching
    [opt.pgp2] off. *)
Definition pgp2_cleared (o o' : opt.t) : Prop :=
  o' = o \/ o' = opt.with_pgp2 0 o.

Definition input_opened (e : event) : Prop :=
  match e with
  | Iobuf_open _ None => False
  | _ => True
  end.

Definition recipients_found (e : event) : Prop :=
  match e with
  | Build_pk_list _ rc _ => rc = 0
  | _ => True
  end.

Definition is_log_info (e : event) : Prop :=
  match e with
  | Log_info _ => True
  | _ => False
  end.

Definition is_log_error (e : event) : bool :=
  match e with
  | Log_error _ => true
  | _ => false
  end.

Definition is_free_pubkey_enc (e : event) : bool :=
  match e with
  | Free_pubkey_enc _ => true
  | _ => false
  end.

(** The session-key packet structure an event of the key-wrap loop
    builds or frees. *)
Definition event_pubkey_enc (e : event) : option PKT_pubkey_enc :=
  match e with
  | Build_packet _ (PKT_PUBKEY_ENC enc) _ => Some enc
  | Free_pubkey_enc enc => Some enc
  | _ => None
  end.

Definition no_compression (e : event) : Prop :=
  match e with
  | Push_filter_out _ (compress_filter _) => False
  | _ => True
  end.

(** The structure an event of the key-wrap loop builds or frees carries
    [throw_keyid]. *)
Definition carries_throw_keyid (throw_keyid : Z) (e : event) : Prop :=
  match event_pubkey_enc e with
  | Some enc => enc_throw_keyid enc = throw_keyid
  | None => True
  end.

(** ** A rest-of-GnuPG with faults, for running the error paths

    As [scenario_externals], with the answers of the calls that
    [scenario] fixes taken from [faults]. *)
Record faults := mkFaults {
  fl_build_pk_list_rc : Z;
  fl_compressed : Z * Z;
  fl_open_outfile_rc : Z;
  fl_iobuf_write_rc : list byte -> Z
}.

Definition faulty_externals (sc : scenario) (fl : faults)
  : Externals unit := {|
  G10ERR_OPEN_FILE := 24;
  G10ERR_PASSPHRASE := 26;
  G10ERR_WRITE_FILE := 22;
  CIPHER_ALGO_3DES := 2;
  DEFAULT_CIPHER_ALGO := sc_default_cipher_algo sc;
  PUBKEY_USAGE_ENC := 2;
  IOBUF_FILELENGTH_LIMIT := 0xffffffff;
  is_RSA := fun a => (a =? 1) || (a =? 2) || (a =? 3);
  nbits_from_pk := fun pk => Z.log2 (hd 0 (pkey pk)) + 1;
  pubkey_nbits := fun _ pkey => Z.log2 (hd 0 pkey) + 1;
  keyid_from_pk := fun pk => (0, hd 0 (pkey pk) mod 2 ^ 32);
  encode_session_key := fun dek _ => 2 + dek_algo dek;
  make_basename := fun s => s;
  calc_packet_length :=
    fun pkt =>
      match pkt with
      | PKT_PLAINTEXT pt => pt_len pt + Z.of_nat (String.length (pt_name pt)) + 6
      | _ => 0
      end;
  ext_is_file_compressed := fun w _ => (fl_compressed fl, w);
  ext_build_pk_list :=
    fun w _ _ => (fl_build_pk_list_rc fl, sc_keys sc, w);
  ext_iobuf_open := fun w _ => (sc_input sc, w);
  ext_open_outfile := fun w _ _ => (fl_open_outfile_rc fl, 1, w);
  ext_passphrase_to_dek := fun w _ s2k _ => (sc_passphrase_dek sc, s2k, w);
  ext_make_session_key := fun w _ => (16, repeat 0 16%nat, w);
  ext_pubkey_encrypt :=
    fun w algo frame _ => (sc_pubkey_encrypt_rc sc algo, [frame], w);
  ext_build_packet := fun w _ pkt => (sc_build_packet_rc sc pkt, w);
  ext_iobuf_write := fun w _ buf => (fl_iobuf_write_rc fl buf, w);
  ext_make_timestamp := fun w => (0, w)
|}.

(** No usable recipient: [build_pk_list] fails with
    [G10ERR_NO_USER_ID]. *)
Definition no_recipient : faults := mkFaults 15 (0, 0) 0 (fun _ => 0).

(** The input is compressed already. *)
Definition compressed_input : faults := mkFaults 0 (1, 0) 0 (fun _ => 0).

(** The file cannot be opened. *)
Definition no_input : scenario :=
  mkScenario [rsa_key] None (Some (mkDEK 3 16 (repeat 0 16%nat) 0))
             (fun _ => 0) (fun _ => 0) CIPHER_ALGO_CAST5.



Definition compress_opt : opt.t :=
  opt.mk 0 0 1 0 0 0 0 0 0 0 3 2 3 None 0.

(** [opt.throw_keyid] with a value that does not fit a byte. *)
Definition wide_throw_keyid_opt : opt.t :=
  opt.mk 0 0 0 0 0 0 0 256 0 0 3 2 3 None 0.

(** The passphrase gives a key whose cipher number does not fit a
    byte. *)
Definition wide_cipher : scenario :=
  mkScenario [] (Some hello_input)
             (Some (mkDEK 300 16 (repeat 0 16%nat) 0))
             (fun _ => 0) (fun _ => 0) CIPHER_ALGO_CAST5.

(** ** A rest-of-GnuPG that recovers

    As [scenario_externals (all_good keys)], but the world counts the
    calls of [pubkey_encrypt], and the first [n] of them fail with
    [G10ERR_PUBKEY_ALGO]. *)
Definition recovering_externals (keys : PK_LIST) (n : nat)
  : Externals nat := {|
  G10ERR_OPEN_FILE := 24;
  G10ERR_PASSPHRASE := 26;
  G10ERR_WRITE_FILE := 22;
  CIPHER_ALGO_3DES := 2;
  DEFAULT_CIPHER_ALGO := CIPHER_ALGO_CAST5;
  PUBKEY_USAGE_ENC := 2;
  IOBUF_FILELENGTH_LIMIT := 0xffffffff;
  is_RSA := fun a => (a =? 1) || (a =? 2) || (a =? 3);
  nbits_from_pk := fun pk => Z.log2 (hd 0 (pkey pk)) + 1;
  pubkey_nbits := fun _ pkey => Z.log2 (hd 0 pkey) + 1;
  keyid_from_pk := fun pk => (0, hd 0 (pkey pk) mod 2 ^ 32);
  encode_session_key := fun dek _ => 2 + dek_algo dek;
  make_basename := fun s => s;
  calc_packet_length :=
    fun pkt =>
      match pkt with
      | PKT_PLAINTEXT pt => pt_len pt + Z.of_nat (String.length (pt_name pt)) + 6
      | _ => 0
      end;
  ext_is_file_compressed := fun w _ => (0, 0, w);
  ext_build_pk_list := fun w _ _ => (0, keys, w);
  ext_iobuf_open := fun w _ => (Some hello_input, w);
  ext_open_outfile := fun w _ _ => (0, 1, w);
  ext_passphrase_to_dek := fun w _ s2k _ => (None, s2k, w);
  ext_make_session_key := fun w _ => (16, repeat 0 16%nat, w);
  ext_pubkey_encrypt :=
    fun w _ frame _ => (if Nat.ltb w n then 4 else 0, [frame], S w);
  ext_build_packet := fun w _ _ => (0, w);
  ext_iobuf_write := fun w _ _ => (0, w);
  ext_make_timestamp := fun w => (0, w)
|}.

Section ProducedPost.
Context {W : Type} {X : Externals W}.

(** A rest of GnuPG in which the steps [encode_crypt] takes after it
    has the recipient list succeed whenever they are called: the
    compression check, opening the input and the output, every key
    wrap, every [build_packet] and every write. *)
Definition cooperative : Prop :=
  (forall w f, snd (fst (ext_is_file_compressed w f)) = 0) /\
  (forall w f, fst (ext_iobuf_open w f) <> None) /\
  (forall w f mode, fst (fst (ext_open_outfile w f mode)) = 0) /\
  (forall w algo frame pkey,
      fst (fst (ext_pubkey_encrypt w algo frame pkey)) = 0) /\
  (forall w out pkt, fst (ext_build_packet w out pkt) = 0) /\
  (forall w out buf, fst (ext_iobuf_write w out buf) <> -1).

(** The log of a run of [encode_crypt] on [filename] that produced its
    output for the recipients [pk_list]: the input and the output are
    opened; a session key is made and wrapped, one packet per
    recipient; then the cipher filter is pushed with that key and the
    data is handed to the output ([--no-literal]: the buffers of the
    input are written, otherwise the literal packet reading the input
    is built); the output is closed, never cancelled, and the end of
    encryption is reported. *)
Definition output_produced (o : opt.t) (filename : option string)
  (pk_list : PK_LIST) (l : list event) : Prop :=
  exists inp out dek cfx pre lw post,
    l = pre ++ Make_session_key dek :: lw ++ post /\
    In (Iobuf_open filename (Some inp)) pre /\
    In (Open_outfile filename (if nz (opt.armor o) then 1 else 0) 0) pre /\
    Forall (wrap_event out) lw /\
    map enc_recipient (emitted lw) = map pk_recipient pk_list /\
    Forall (eq 0) (wrap_rcs lw) /\
    cfx_dek cfx = Some dek /\
    In (Push_filter_out out (cipher_filter cfx)) post /\
    (if nz (opt.no_literal o)
     then written post = iobuf_reads inp /\ Forall write_ok post
     else exists pt,
            In (Build_packet out (PKT_PLAINTEXT pt) 0) post /\
            pt_buf pt = Some inp) /\
    In (Iobuf_close_out (Some out)) post /\
    In (Write_status STATUS_END_ENCRYPTION) post /\
    Forall (fun e => ~ is_cancel_out e) l.

End ProducedPost.

(** A line of standard input: [name] followed by a line feed. *)
Definition input_line (name : string) : string :=
  (name ++ String LF EmptyString)%string.

(** * Reasoning about runs *)

Lemma nz_true x : nz x = true <-> x <> 0.
Proof. unfold nz. destruct (Z.eqb_spec x 0); simpl; intuition congruence. Qed.

Lemma nz_false x : nz x = false <-> x = 0.
Proof. unfold nz. destruct (Z.eqb_spec x 0); simpl; intuition congruence. Qed.


Section Runs.
Context {W : Type} {X : Externals W}.

Local Abbreviation M := (M W).

Lemma val_bind A B (m : M A) (f : A -> M B) s :
  val (bind m f s) = val (f (val (m s)) (st (m s))).
Proof.
  unfold bind, val, st. destruct (m s) as [[a s1] l1]. simpl.
  destruct (f a s1) as [[b s2] l2]. reflexivity.
Qed.

Lemma st_bind A B (m : M A) (f : A -> M B) s :
  st (bind m f s) = st (f (val (m s)) (st (m s))).
Proof.
  unfold bind, val, st. destruct (m s) as [[a s1] l1]. simpl.
  destruct (f a s1) as [[b s2] l2]. reflexivity.
Qed.

Lemma log_bind A B (m : M A) (f : A -> M B) s :
  log (bind m f s) = log (m s) ++ log (f (val (m s)) (st (m s))).
Proof.
  unfold bind, val, st, log. destruct (m s) as [[a s1] l1]. simpl.
  destruct (f a s1) as [[b s2] l2]. reflexivity.
Qed.

Lemma val_ret A (a : A) (s : state W) : val (ret a s) = a.
Proof. reflexivity. Qed.

Lemma val_call R (f : W -> R * W) ev s :
  val (call f ev s) = fst (f (world s)).
Proof. unfold call, val. destruct (f (world s)). reflexivity. Qed.

Lemma val_if A (c : bool) (m1 m2 : M A) s :
  val ((if c then m1 else m2) s) = if c then val (m1 s) else val (m2 s).
Proof. destruct c; reflexivity. Qed.

Lemma val_make_session_key dek (s : state W) :
  val (make_session_key dek s) =
    mkDEK (dek_algo dek)
          (fst (fst (ext_make_session_key (world s) (dek_algo dek))))
          (snd (fst (ext_make_session_key (world s) (dek_algo dek))))
          (dek_use_mdc dek).
Proof.
  unfold make_session_key. rewrite val_call.
  destruct (ext_make_session_key (world s) (dek_algo dek)) as [[kl k] w].
  reflexivity.
Qed.

(** ** Rules for [always] *)

Lemma always_ret A (P : event -> Prop) (a : A) : always P (ret a : M A).
Proof. intro s. constructor. Qed.

Lemma always_bind A B (P : event -> Prop) (m : M A) (f : A -> M B) :
  always P m -> (forall a, always P (f a)) -> always P (bind m f).
Proof.
  intros Hm Hf s. rewrite log_bind. apply Forall_app. split.
  - apply Hm.
  - apply Hf.
Qed.

(** The continuation only has to be considered at values the first
    part can return. *)
Lemma always_bind_val A B (P : event -> Prop) (m : M A) (f : A -> M B) :
  always P m -> (forall s, always P (f (val (m s)))) ->
  always P (bind m f).
Proof.
  intros Hm Hf s. rewrite log_bind. apply Forall_app. split.
  - apply Hm.
  - apply Hf.
Qed.

Lemma always_get_opt_bind A (P : opt.t -> event -> Prop)
  (f : opt.t -> M A) s :
  (forall o, always (P o) (f o)) ->
  Forall (P (options s)) (log (bind get_opt f s)).
Proof. intro H. rewrite log_bind. apply H. Qed.

Lemma always_emit (P : event -> Prop) e : P e -> always P (emit e : M unit).
Proof. intros H s. repeat constructor. exact H. Qed.

Lemma always_when (P : event -> Prop) c e :
  (c = true -> P e) -> always P (when c e : M unit).
Proof.
  intros H s. unfold when, log. simpl. destruct c; repeat constructor.
  auto.
Qed.

Lemma always_get_opt (P : event -> Prop) : always P (get_opt : M opt.t).
Proof. intro s. constructor. Qed.

Lemma always_set_pgp2 (P : event -> Prop) v : always P (set_pgp2 v : M unit).
Proof. intro s. constructor. Qed.

Lemma always_call R (P : event -> Prop) (f : W -> R * W) ev :
  (forall r, Forall P (ev r)) -> always P (call f ev).
Proof.
  intros H s. unfold call, log. destruct (f (world s)) as [r w]. simpl.
  apply H.
Qed.

Lemma always_make_session_key (P : event -> Prop) dek :
  (forall keylen key,
      P (Make_session_key
           (mkDEK (dek_algo dek) keylen key (dek_use_mdc dek)))) ->
  always P (make_session_key dek).
Proof.
  intros H s. unfold make_session_key, call, log.
  destruct (ext_make_session_key (world s) (dek_algo dek)) as [[kl k] w].
  simpl. repeat constructor. apply H.
Qed.

End Runs.

(** Case distinction on a scrutinee, reusing what an earlier distinction
    on the same term found. *)
Ltac case_on c :=
  first [ match goal with H : c = _ |- _ => rewrite H end
        | destruct c eqn:? ].

(** Syntax-directed proof of [always P m]: one rule per construct of the
    embedding; what is left are the obligations [P e] for the events the
    program can emit. *)
Ltac val_simpl :=
  cbv beta;
  repeat first
    [ rewrite val_if
    | rewrite val_bind
    | rewrite val_ret
    | rewrite val_call
    | progress unfold make_timestamp
    | progress cbv beta ].

Ltac always_step :=
  match goal with
  | |- always _ (bind (if _ then _ else _) _) =>
      apply always_bind_val; [| intro; val_simpl]
  | |- always _ (bind (make_session_key _) _) =>
      apply always_bind_val;
      [ apply always_make_session_key; intros
      | intro; rewrite val_make_session_key ]
  | |- always _ (bind _ _) => apply always_bind; [| intro]
  | |- always _ (ret _) => apply always_ret
  | |- always _ (emit _) => apply always_emit
  | |- always _ (when _ _) => apply always_when; intro
  | |- always _ get_opt => apply always_get_opt
  | |- always _ (set_pgp2 _) => apply always_set_pgp2
  | |- always _ (call _ _) =>
      apply always_call; intro; repeat constructor
  | |- always _ (log_info _) => apply always_emit
  | |- always _ (log_error _) => apply always_emit
  | |- always _ (is_file_compressed _) => unfold is_file_compressed
  | |- always _ (build_pk_list _ _) => unfold build_pk_list
  | |- always _ (iobuf_open _) => unfold iobuf_open
  | |- always _ (open_outfile _ _) => unfold open_outfile
  | |- always _ (passphrase_to_dek _ _ _) => unfold passphrase_to_dek
  | |- always _ (make_session_key _) => unfold make_session_key
  | |- always _ (pubkey_encrypt _ _) => unfold pubkey_encrypt
  | |- always _ (build_packet _ _) => unfold build_packet
  | |- always _ (iobuf_write _ _) => unfold iobuf_write
  | |- always _ make_timestamp => unfold make_timestamp
  | |- always _ (if ?c then _ else _) => case_on c
  | |- always _ (match (if ?c then _ else _) with _ => _ end) => case_on c
  | |- always _ (match ?x with _ => _ end) => case_on x
  end.

Ltac always_run := repeat (always_step; cbv beta iota).


(** ** Rules for [spec] *)
Section Spec.
Context {W : Type} {X : Externals W}.

Local Abbreviation M := (M W).

Lemma spec_ret A o (a : A) (Q : A -> opt.t -> list event -> Prop) :
  Q a o [] -> spec o (ret a : M A) Q.
Proof. intros H s Hs. cbv. cbv in Hs. rewrite Hs. exact H. Qed.

Lemma spec_bind A B o (m : M A) (f : A -> M B) Q1
  (Q : B -> opt.t -> list event -> Prop) :
  spec o m Q1 ->
  (forall a o1 l1, Q1 a o1 l1 ->
                   spec o1 (f a) (fun b o' l => Q b o' (l1 ++ l))) ->
  spec o (bind m f) Q.
Proof.
  intros Hm Hf s Hs. rewrite val_bind, st_bind, log_bind.
  exact (Hf _ _ _ (Hm s Hs) (st (m s)) eq_refl).
Qed.

Lemma spec_emit (o : opt.t) (e : event) (Q : unit -> opt.t -> list event -> Prop) :
  Q tt o [e] -> spec o (emit e : M unit) Q.
Proof. intros H s Hs. cbv. cbv in Hs. rewrite Hs. exact H. Qed.

Lemma spec_when (o : opt.t) (c : bool) (e : event) (Q : unit -> opt.t -> list event -> Prop) :
  Q tt o (if c then [e] else []) -> spec o (when c e : M unit) Q.
Proof. intros H s Hs. cbv. cbv in Hs. rewrite Hs. exact H. Qed.

Lemma spec_get_opt (o : opt.t) (Q : opt.t -> opt.t -> list event -> Prop) :
  Q o o [] -> spec o (get_opt : M opt.t) Q.
Proof. intros H s Hs. cbv. cbv in Hs. rewrite Hs. exact H. Qed.

Lemma spec_set_pgp2 (o : opt.t) (v : Z) (Q : unit -> opt.t -> list event -> Prop) :
  Q tt (opt.with_pgp2 v o) [] -> spec o (set_pgp2 v : M unit) Q.
Proof. intros H s Hs. cbv. cbv in Hs. rewrite Hs. exact H. Qed.

Lemma spec_call R o (f : W -> R * W) ev
  (Q : R -> opt.t -> list event -> Prop) :
  (forall r, Q r o (ev r)) -> spec o (call f ev) Q.
Proof.
  intros H s Hs. unfold call, val, st, log.
  destruct (f (world s)) as [r w]. simpl. rewrite Hs. apply H.
Qed.

Lemma spec_bind_emit B (o : opt.t) (e : event) (f : unit -> M B) Q :
  spec o (f tt) (fun b o' l => Q b o' (e :: l)) ->
  spec o (bind (emit e) f) Q.
Proof.
  intros H.
  apply spec_bind with (Q1 := fun _ o1 l1 => o1 = o /\ l1 = [e]).
  - apply spec_emit. split; reflexivity.
  - intros [] o1 l1 [-> ->]. exact H.
Qed.

Lemma spec_bind_when B (o : opt.t) (c : bool) (e : event) (f : unit -> M B) Q :
  spec o (f tt) (fun b o' l => Q b o' ((if c then [e] else []) ++ l)) ->
  spec o (bind (when c e) f) Q.
Proof.
  intros H.
  apply spec_bind
    with (Q1 := fun _ o1 l1 => o1 = o /\ l1 = if c then [e] else []).
  - apply spec_when. split; reflexivity.
  - intros [] o1 l1 [-> ->]. exact H.
Qed.

Lemma spec_bind_get_opt B (o : opt.t) (f : opt.t -> M B) Q :
  spec o (f o) Q -> spec o (bind get_opt f) Q.
Proof.
  intros H.
  apply spec_bind with (Q1 := fun a o1 l1 => a = o /\ o1 = o /\ l1 = []).
  - apply spec_get_opt. repeat split.
  - intros a o1 l1 (-> & -> & ->). exact H.
Qed.

Lemma spec_bind_set_pgp2 B (o : opt.t) (v : Z) (f : unit -> M B) Q :
  spec (opt.with_pgp2 v o) (f tt) Q ->
  spec o (bind (set_pgp2 v) f) Q.
Proof.
  intros H.
  apply spec_bind
    with (Q1 := fun _ o1 l1 => o1 = opt.with_pgp2 v o /\ l1 = []).
  - apply spec_set_pgp2. split; reflexivity.
  - intros [] o1 l1 [-> ->]. exact H.
Qed.

Lemma spec_bind_call R B o (g : W -> R * W) ev (f : R -> M B) Q :
  (forall r, spec o (f r) (fun b o' l => Q b o' (ev r ++ l))) ->
  spec o (bind (call g ev) f) Q.
Proof.
  intros H.
  apply spec_bind with (Q1 := fun a o1 l1 => o1 = o /\ l1 = ev a).
  - apply spec_call. intro r. split; reflexivity.
  - intros a o1 l1 (-> & ->). apply H.
Qed.

Lemma spec_bind_make_session_key B o dek (f : DEK -> M B) Q :
  (forall keylen key,
      spec o (f (mkDEK (dek_algo dek) keylen key (dek_use_mdc dek)))
           (fun b o' l =>
              Q b o'
                (Make_session_key
                   (mkDEK (dek_algo dek) keylen key (dek_use_mdc dek))
                 :: l))) ->
  spec o (bind (make_session_key dek) f) Q.
Proof.
  intros H s Hs. rewrite val_bind, st_bind, log_bind.
  rewrite val_make_session_key.
  set (kl := fst (fst (ext_make_session_key (world s) (dek_algo dek)))).
  set (k := snd (fst (ext_make_session_key (world s) (dek_algo dek)))).
  assert (Hl : log (make_session_key dek s)
               = [Make_session_key
                    (mkDEK (dek_algo dek) kl k (dek_use_mdc dek))]).
  { unfold make_session_key, call, log, kl, k.
    destruct (ext_make_session_key (world s) (dek_algo dek))
      as [[kl' k'] w]. reflexivity. }
  rewrite Hl. simpl.
  apply (H kl k). rewrite <- Hs.
  unfold make_session_key, call, st.
  destruct (ext_make_session_key (world s) (dek_algo dek)) as [[kl' k'] w].
  reflexivity.
Qed.

Lemma spec_bind_assoc A B C o (m : M A) (f : A -> M B) (g : B -> M C) Q :
  spec o (bind m (fun a => bind (f a) g)) Q ->
  spec o (bind (bind m f) g) Q.
Proof.
  intros H s Hs. specialize (H s Hs). revert H.
  unfold bind, val, st, log.
  destruct (m s) as [[a s1] l1]. destruct (f a s1) as [[b s2] l2].
  destruct (g b s2) as [[c s3] l3]. simpl.
  rewrite app_assoc. exact (fun H => H).
Qed.

Lemma spec_bind_ret A B o (a : A) (f : A -> M B) Q :
  spec o (f a) Q -> spec o (bind (ret a) f) Q.
Proof.
  intros H s Hs. rewrite val_bind, st_bind, log_bind.
  apply H. exact Hs.
Qed.

Lemma spec_weaken A o (m : M A) (Q Q' : A -> opt.t -> list event -> Prop) :
  spec o m Q -> (forall a o' l, Q a o' l -> Q' a o' l) -> spec o m Q'.
Proof. intros H HQ s Hs. apply HQ, H, Hs. Qed.

Lemma spec_always A o (P : event -> Prop) (m : M A) :
  always P m -> spec o m (fun _ _ l => Forall P l).
Proof. intros H s _. apply H. Qed.

Lemma spec_run A o (m : M A) Q s :
  spec o m Q -> options s = o ->
  Q (val (m s)) (options (st (m s))) (log (m s)).
Proof. intros H Hs. apply H, Hs. Qed.

End Spec.

(** Symbolic execution: one rule per construct; a conditional or a match
    whose scrutinee is not yet known splits the run. *)
Ltac spec_unfold_call :=
  unfold log_info, log_error, is_file_compressed, build_pk_list, iobuf_open,
    open_outfile, passphrase_to_dek, make_session_key, pubkey_encrypt,
    build_packet, iobuf_write, make_timestamp.

(** Rules for the loops, filled in once their specifications are
    proved. *)
Ltac spec_loop := fail.

Ltac spec_step :=
  match goal with
  | |- spec _ (bind (bind _ _) _) _ => apply spec_bind_assoc
  | |- spec _ (bind (ret _) _) _ => apply spec_bind_ret
  | |- spec _ (bind (emit _) _) _ => apply spec_bind_emit
  | |- spec _ (bind (when _ _) _) _ => apply spec_bind_when
  | |- spec _ (bind get_opt _) _ => apply spec_bind_get_opt
  | |- spec _ (bind (set_pgp2 _) _) _ => apply spec_bind_set_pgp2
  | |- spec _ (bind (call _ _) _) _ => apply spec_bind_call; intro
  | |- spec _ (bind (log_info _) _) _ => apply spec_bind_emit
  | |- spec _ (bind (log_error _) _) _ => apply spec_bind_emit
  | |- spec _ (bind (is_file_compressed _) _) _ => unfold is_file_compressed
  | |- spec _ (bind (build_pk_list _ _) _) _ => unfold build_pk_list
  | |- spec _ (bind (iobuf_open _) _) _ => unfold iobuf_open
  | |- spec _ (bind (open_outfile _ _) _) _ => unfold open_outfile
  | |- spec _ (bind (passphrase_to_dek _ _ _) _) _ =>
      unfold passphrase_to_dek
  | |- spec _ (bind (make_session_key _) _) _ =>
      apply spec_bind_make_session_key; intros
  | |- spec _ (bind (pubkey_encrypt _ _) _) _ => unfold pubkey_encrypt
  | |- spec _ (bind (build_packet _ _) _) _ => unfold build_packet
  | |- spec _ (bind (iobuf_write _ _) _) _ => unfold iobuf_write
  | |- spec _ (bind make_timestamp _) _ => unfold make_timestamp
  | |- spec _ (ret _) _ => apply spec_ret
  | |- spec _ (emit _) _ => apply spec_emit
  | |- spec _ (when _ _) _ => apply spec_when
  | |- spec _ (set_pgp2 _) _ => apply spec_set_pgp2
  | |- spec _ _ _ => spec_loop
  | |- spec _ (bind (if ?c then _ else _) _) _ => case_on c
  | |- spec _ (bind (match ?x with _ => _ end) _) _ => case_on x
  | |- spec _ (if ?c then _ else _) _ => case_on c
  | |- spec _ (match ?x with _ => _ end) _ => case_on x
  end.

Ltac spec_exec := repeat (spec_step; cbv beta iota; cbn [fst snd]).

(** Decompose the membership of an event in a log built by symbolic
    execution. *)
Ltac in_log H :=
  repeat match type of H with
         | In _ (_ ++ _) => apply in_app_or in H; destruct H as [H|H]
         | In _ (_ :: _) => destruct H as [H|H]
         | In _ [] => destruct H
         | In _ (if ?c then _ else _) => destruct c
         end.

(** Prove a property of all events of such a log. *)
Ltac forall_log :=
  repeat first
    [ apply Forall_nil
    | apply Forall_cons
    | apply Forall_app; split
    | match goal with |- Forall _ (if ?c then _ else _) => destruct c end ].

(** Find an event in such a log. *)
Ltac in_tail :=
  solve [ repeat first
            [ left; reflexivity
            | apply in_or_app; left; left; reflexivity
            | right
            | apply in_or_app; right ] ].

(** ** The loops *)

Section Loops.
Context {W : Type} {X : Externals W}.

Lemma always_copy_plain (P : event -> Prop) out reads rc :
  (forall d r, P (Iobuf_write out d r)) ->
  (forall f, P (Log_error f)) ->
  always P (copy_plain out reads rc).
Proof.
  intros Hw He. induction reads as [|b rest IH]; simpl.
  - always_run.
  - always_run; auto.
Qed.

Lemma always_write_pubkey_enc_from_list pk_list dek out :
  always (wrap_event out) (write_pubkey_enc_from_list pk_list dek out).
Proof.
  induction pk_list as [|pk next IH]; simpl.
  - always_run.
  - always_run; simpl; auto.
Qed.

Lemma always_write_pubkey_impl (P : event -> Prop) pk_list dek out :
  (forall e, wrap_event out e -> P e) ->
  always P (write_pubkey_enc_from_list pk_list dek out).
Proof.
  intros H s. eapply Forall_impl; [exact H|].
  apply always_write_pubkey_enc_from_list.
Qed.

Lemma always_pgp2_scan (P : event -> Prop) work_list :
  (forall f, P (Log_info f)) -> always P (pgp2_scan work_list).
Proof.
  intro H. induction work_list as [|pk next IH]; simpl.
  - always_run.
  - always_run; auto.
Qed.

Lemma write_pubkey_enc_from_list_spec o pk_list dek out :
  spec o (write_pubkey_enc_from_list pk_list dek out)
       (wrap_post o pk_list out).
Proof.
  assert (Hall := always_write_pubkey_enc_from_list pk_list dek out).
  cut (spec o (write_pubkey_enc_from_list pk_list dek out)
         (fun rc o' l => Forall (wrap_event out) l ->
                         wrap_post o pk_list out rc o' l)).
  { intros H s Hs. apply H; [exact Hs | apply Hall]. }
  clear Hall.
  cut (spec o (write_pubkey_enc_from_list pk_list dek out)
         (fun rc o' l =>
            o' = o /\
            exists n,
              (n <= List.length pk_list)%nat /\
              wrapped l = firstn n pk_list /\
              (rc = 0 ->
               n = List.length pk_list /\
               map enc_recipient (emitted l) = map pk_recipient pk_list /\
               Forall (eq 0) (wrap_rcs l)) /\
              (rc <> 0 ->
               (0 < n)%nat /\
               map enc_recipient (emitted l) =
                 map pk_recipient (firstn (n - 1) pk_list) /\
               exists pre, wrap_rcs l = pre ++ [rc] /\ Forall (eq 0) pre))).
  { intros H. eapply spec_weaken; [exact H|].
    intros rc o' l (-> & Hn) Hl. split; [reflexivity | split; assumption]. }
  induction pk_list as [|pk next IH]; simpl.
  - apply spec_ret. split; [reflexivity|]. exists 0%nat.
    repeat split; simpl; auto; try lia; try congruence.
  - spec_exec.
    + (* pubkey_encrypt fails *)
      apply nz_true in Heqb. split; [reflexivity|]. exists 1%nat.
      simpl. repeat split; try lia; try congruence.
      exists []. split; [reflexivity | constructor].
    + (* build_packet fails *)
      apply nz_true in Heqb0. apply nz_false in Heqb.
      split; [reflexivity|]. exists 1%nat.
      destruct (nz (opt.verbose o)); simpl;
        (destruct (Z.eqb_spec r0 0) as [E|E]; [congruence|]);
        (repeat split; try lia; try congruence);
        exists [z]; subst z; (split; [reflexivity | repeat constructor]).
    + (* this recipient is done, go on with the next *)
      apply nz_false in Heqb0. apply nz_false in Heqb.
      subst. eapply spec_weaken; [exact IH|].
      intros rc o' l0 (-> & n & Hn & Hw & H0 & H1).
      split; [reflexivity|]. exists (S n).
      set (enc := mkPubkeyEnc (keyid_from_pk pk) (pubkey_algo pk)
                              (to_byte (opt.throw_keyid o)) l).
      assert (A1 : rc = 0 -> S n = S (List.length next))
        by (intro H; apply H0 in H; lia).
      assert (A2 : rc = 0 ->
                   enc_recipient enc :: map enc_recipient (emitted l0)
                   = pk_recipient pk :: map pk_recipient next).
      { intro H. apply H0 in H. destruct H as (_ & -> & _). reflexivity. }
      assert (A3 : rc = 0 -> Forall (eq 0) (0 :: 0 :: wrap_rcs l0)).
      { intro H. apply H0 in H. destruct H as (_ & _ & H).
        repeat constructor. exact H. }
      assert (A4 : rc <> 0 ->
                   enc_recipient enc :: map enc_recipient (emitted l0)
                   = map pk_recipient (firstn (n - 0) (pk :: next))).
      { intro H. apply H1 in H. destruct H as (Hp & -> & _).
        destruct n as [|n]; [lia|]. simpl. rewrite Nat.sub_0_r.
        reflexivity. }
      assert (A5 : rc <> 0 ->
                   exists pre, 0 :: 0 :: wrap_rcs l0 = pre ++ [rc]
                               /\ Forall (eq 0) pre).
      { intro H. apply H1 in H. destruct H as (_ & _ & pre & -> & Hpre).
        exists (0 :: 0 :: pre). split; [reflexivity|].
        repeat constructor. exact Hpre. }
      assert (A6 : pk :: wrapped l0 = pk :: firstn n next)
        by (rewrite Hw; reflexivity).
      destruct (nz (opt.verbose o)); simpl;
        repeat split; auto; lia.
Qed.

Lemma copy_plain_spec o out reads rc :
  spec o (copy_plain out reads rc)
    (fun rc' o' l =>
       o' = o /\
       Forall (copy_event out) l /\
       (rc' = rc /\ Forall write_ok l \/
        rc' = G10ERR_WRITE_FILE /\
        exists buf, In (Iobuf_write out buf (-1)) l)).
Proof.
  induction reads as [|buf rest IH]; simpl.
  - spec_exec. repeat split; auto.
  - spec_exec.
    + apply Z.eqb_eq in Heqb. subst.
      split; [reflexivity|]. split; [repeat constructor|].
      right. split; [reflexivity|]. exists buf. left. reflexivity.
    + eapply spec_weaken; [exact IH|].
      intros rc' o' l (-> & Hl & H). split; [reflexivity|].
      split; [repeat constructor; assumption|].
      destruct H as [[H Hok]|(H & b & Hb)].
      * left. split; [exact H|]. constructor; [|exact Hok].
        simpl. apply Z.eqb_neq. exact Heqb.
      * right. split; [exact H|]. exists b. right. exact Hb.
Qed.

Lemma always_copy_no_wrap out reads rc :
  always no_wrap (copy_plain out reads rc).
Proof. apply always_copy_plain; reflexivity. Qed.

Lemma wrap_event_not_final out l :
  Forall (wrap_event out) l -> Forall (fun e => ~ finalizes e) l.
Proof.
  apply Forall_impl. intros [] H; simpl in *; auto.
Qed.

Lemma In_wrap_rcs rc l :
  In rc (wrap_rcs l) <-> exists e, In e l /\ wrap_rc e = Some rc.
Proof.
  unfold wrap_rcs. rewrite in_flat_map. split.
  - intros (e & He & H). exists e. split; [exact He|].
    destruct (wrap_rc e); simpl in H; intuition congruence.
  - intros (e & He & H). exists e. split; [exact He|]. rewrite H.
    left. reflexivity.
Qed.

(** A failing wrap primitive in the log of a key-wrap run is the one
    whose code the run returned. *)
Lemma wrap_failure o pk_list out rcw lw e rc :
  wrap_post o pk_list out rcw o lw ->
  In e lw -> wrap_rc e = Some rc -> rc <> 0 -> rcw = rc.
Proof.
  intros (_ & _ & n & _ & _ & H0 & H1) He Hw Hrc.
  assert (Hin : In rc (wrap_rcs lw)) by (apply In_wrap_rcs; eauto).
  destruct (Z.eq_dec rcw 0) as [E|E].
  - apply H0 in E. destruct E as (_ & _ & E).
    rewrite Forall_forall in E. apply E in Hin. congruence.
  - apply H1 in E. destruct E as (_ & _ & pre & E & Hpre).
    rewrite E in Hin. apply in_app_or in Hin. destruct Hin as [Hin|Hin].
    + rewrite Forall_forall in Hpre. apply Hpre in Hin. congruence.
    + destruct Hin as [Hin|[]]. exact Hin.
Qed.

(** What the legacy-mode scan does to the option block and the log. *)
Lemma pgp2_scan_spec o work_list :
  spec o (pgp2_scan work_list)
    (fun _ o' l =>
       if existsb
            (fun pk => negb (is_RSA (pubkey_algo pk)
                             && (nbits_from_pk pk <=? 2048))) work_list
       then o' = opt.with_pgp2 0 o /\
            l = [Log_info
                   "you can only encrypt to RSA keys of 2048 bits or less in --pgp2 mode";
                 Log_info "this message may not be usable by PGP 2.x"]
       else o' = o /\ l = []).
Proof.
  induction work_list as [|pk next IH]; simpl.
  - apply spec_ret. split; reflexivity.
  - destruct (negb (is_RSA (pubkey_algo pk) && (nbits_from_pk pk <=? 2048)));
      simpl.
    + spec_exec. split; reflexivity.
    + exact IH.
Qed.

End Loops.

Lemma copy_event_in out l e :
  Forall (copy_event out) l -> In e l -> copy_event out e.
Proof. intros H Hin. rewrite Forall_forall in H. auto. Qed.

(** An event found in the log of the copy loop is a write or an error
    message. *)
Ltac in_copy :=
  match goal with
  | Hc : Forall (copy_event ?out) ?l, Hi : In ?e ?l |- _ =>
      let Hx := fresh in
      pose proof (@copy_event_in out l e Hc Hi) as Hx; simpl in Hx
  end.

(** Side condition of [always_write_pubkey_impl]: by cases on the event
    and, for a packet, on its type. *)
Ltac wrap_cases :=
  let e := fresh "e" in
  let He := fresh "He" in
  intros e He; destruct e; cbn in He |- *; try contradiction;
  try match goal with
      | p : PACKET |- _ => destruct p; cbn in He |- *; try contradiction
      end;
  repeat split; try exact I; try tauto.

Ltac spec_loop ::=
  match goal with
  | |- spec _ (bind (copy_plain _ _ _) _) _ =>
      eapply spec_bind;
      [ apply copy_plain_spec | intros ? ? ? (-> & ? & ?) ]
  | |- spec _ (copy_plain _ _ _) _ =>
      eapply spec_weaken;
      [ apply copy_plain_spec | intros ? ? ? (-> & ? & ?) ]
  end.


(** Symbolic execution through the loops of [encode_crypt] as well. *)
Ltac spec_step_crypt :=
  match goal with
  | |- spec _ (bind (pgp2_scan ?l) _) _ =>
      eapply spec_bind; [apply pgp2_scan_spec|];
      let Hscan := fresh "Hscan" in
      intros [] ? ? Hscan; cbv beta in Hscan |- *;
      destruct (existsb _ l); destruct Hscan as [-> ->]
  | |- spec _ (bind (write_pubkey_enc_from_list _ _ _) _) _ =>
      eapply spec_bind; [apply write_pubkey_enc_from_list_spec|];
      let Hpost := fresh "Hpost" in
      let Ho := fresh "Ho" in
      intros ? ? ? Hpost; assert (Ho := proj1 Hpost); subst
  end.

Ltac spec_exec_crypt :=
  repeat (first [spec_step | spec_step_crypt]; cbv beta iota; cbn [fst snd]).

(** * Key wrapping: order, one packet per recipient, abort on first failure *)

Section KeyWrap.
Context {W : Type} {X : Externals W}.

Lemma encode_crypt_wrap_failure filename remusr o :
  spec o (encode_crypt filename remusr)
    (fun v _ l =>
       forall e rc, In e l -> wrap_rc e = Some rc -> rc <> 0 ->
         v = rc /\
         (exists out, In (Iobuf_cancel_out (Some out)) l) /\
         Forall (fun e => ~ finalizes e) l).
Proof.
  unfold encode_crypt, leave.
  spec_exec.
  2: eapply spec_bind; [apply pgp2_scan_spec|];
     intros [] o1 l1 Hscan; cbv beta;
     destruct (existsb _ p); destruct Hscan as [-> ->];
     spec_exec.
  all: try solve
    [ let Hin := fresh "Hin" in
      let Hw := fresh "Hw" in
      intros ? ? Hin Hw ?; exfalso; in_log Hin; subst;
      discriminate Hw ].
  all: (eapply spec_bind; [apply write_pubkey_enc_from_list_spec|]);
    intros rcw o1 lw Hpost; assert (Ho := proj1 Hpost); subst o1;
    cbv beta; destruct (nz rcw) eqn:Hrcw.
  all: try solve
    [ (* the wrap failed: leave with its code *)
      spec_exec; intros e rc Hin Hw Hrc;
      repeat split;
      [ in_log Hin; subst; try discriminate Hw;
        eapply wrap_failure; eassumption
      | eexists; in_tail
      | forall_log; try (simpl; tauto);
        eapply wrap_event_not_final, Hpost ] ].
  all: (* all wraps succeeded: nothing later wraps a key *)
    eapply spec_weaken;
    [ apply spec_always with (P := no_wrap); always_run;
      try reflexivity; apply always_copy_no_wrap
    | cbv beta; intros v o' l Hl e rc Hin Hw Hrc; exfalso;
      in_log Hin; subst; try discriminate Hw;
      [ apply nz_false in Hrcw;
        assert (E : rcw = rc) by (eapply wrap_failure; eassumption);
        congruence
      | rewrite Forall_forall in Hl; apply Hl in Hin;
        unfold no_wrap in Hin; congruence ] ].
Qed.

(** C1.  [write_pubkey_enc_from_list] wraps the key for the recipients
    in list order: the recipients whose wrap was attempted are the first
    [n] of the list, each once.  When it returns 0 that is all of them
    and one public-key session-key packet was written per recipient, in
    order, addressed to that recipient.  When it returns a non-zero code,
    that code is the one of the last primitive called ([pubkey_encrypt]
    or [build_packet]), every earlier call succeeded, and no later
    recipient was touched.  In [encode_crypt], a failing key-wrap
    primitive makes the function return that code, cancel the output
    stream and neither close it nor report the end of encryption. *)
Theorem C1_wrap_in_order_abort_on_first_failure :
  (forall (s : state W) pk_list dek out,
      let r := write_pubkey_enc_from_list pk_list dek out s in
      exists n,
        (n <= List.length pk_list)%nat /\
        wrapped (log r) = firstn n pk_list /\
        (val r = 0 ->
         n = List.length pk_list /\
         map enc_recipient (emitted (log r)) = map pk_recipient pk_list /\
         Forall (eq 0) (wrap_rcs (log r))) /\
        (val r <> 0 ->
         (0 < n)%nat /\
         map enc_recipient (emitted (log r)) =
           map pk_recipient (firstn (n - 1) pk_list) /\
         exists pre,
           wrap_rcs (log r) = pre ++ [val r] /\ Forall (eq 0) pre)) /\
  (forall (s : state W) filename remusr e rc,
      let r := encode_crypt filename remusr s in
      In e (log r) -> wrap_rc e = Some rc -> rc <> 0 ->
      val r = rc /\
      (exists out, In (Iobuf_cancel_out (Some out)) (log r)) /\
      Forall (fun e => ~ finalizes e) (log r)).
Proof.
  split.
  - intros s pk_list dek out r.
    assert (H := write_pubkey_enc_from_list_spec (o := options s)
                   pk_list dek out).
    destruct (H s eq_refl) as (_ & _ & Hn). exact Hn.
  - intros s filename remusr e rc r.
    assert (H := encode_crypt_wrap_failure (o := options s)
                   filename remusr).
    exact (H s eq_refl e rc).
Qed.

End KeyWrap.

Lemma C1_witness :
  let r := encode_crypt (X := scenario_externals second_wrap_fails)
             (Some "hello.txt"%string) ["alice"%string; "bob"%string]
             (start default_opt) in
  val r = 4 /\
  (exists out, In (Iobuf_cancel_out (Some out)) (log r)) /\
  Forall (fun e => ~ finalizes e) (log r).
Proof.
  apply (proj2 (C1_wrap_in_order_abort_on_first_failure
                  (X := scenario_externals second_wrap_fails))
           (start default_opt) (Some "hello.txt"%string)
           ["alice"%string; "bob"%string] (Pubkey_encrypt elg_key 4) 4).
  - vm_compute. tauto.
  - reflexivity.
  - discriminate.
Defined.

(** * The lazy initialization of [encrypt_filter] *)

Section Filter.
Context {W : Type} {X : Externals W}.

Lemma encrypt_filter_flush_spec o efx a buf :
  spec o (encrypt_filter efx IOBUFCTRL_FLUSH a buf)
       (flush_post o efx a buf).
Proof.
  unfold encrypt_filter, flush_post. spec_exec_crypt.
  - (* a key wrap failed *)
    apply negb_true_iff in Heqb. rewrite Heqb. cbn [fst snd].
    cbn [efx_pk_list efx_cfx cfx_datalen efx_header_okay] in *.
    destruct Hpost as (_ & Hall & _).
    split; [reflexivity|]. split; [reflexivity|]. split; [reflexivity|].
    eexists. exists l1. split; [exact Hall|]. left.
    exists a0. apply nz_true in Heqb0.
    split; [exact Heqb0|]. split; [reflexivity|]. split; [reflexivity|].
    rewrite ?app_nil_r. reflexivity.
  - (* initialization completed *)
    apply negb_true_iff in Heqb. rewrite Heqb. cbn [fst snd].
    cbn [efx_pk_list efx_cfx cfx_datalen efx_header_okay] in *.
    destruct Hpost as (_ & Hall & n & _ & _ & H0 & _).
    apply nz_false in Heqb0. destruct (H0 Heqb0) as (_ & Hem & _).
    split; [reflexivity|]. split; [reflexivity|]. split; [reflexivity|].
    eexists. exists l1. split; [exact Hall|]. right.
    exists r. split; [reflexivity|]. split; [reflexivity|].
    split; [exact Hem|]. rewrite ?app_nil_r. reflexivity.
  - (* already initialized *)
    apply negb_false_iff in Heqb. rewrite Heqb. cbn [fst snd].
    split; [reflexivity|]. split; [reflexivity|].
    exists r. split; reflexivity.
Qed.

(** One flush through a filter whose header is not yet written. *)
Lemma encrypt_filter_first_flush o pk_list cfx a buf :
  spec o (encrypt_filter (mkEfx pk_list cfx 0) IOBUFCTRL_FLUSH a buf)
    (fun v o' l =>
       o' = o /\
       exists dek lw,
         (exists rcw,
             failed_attempt a (mkAttempt dek lw rcw) /\
             fst v = (Returns rcw,
                      mkEfx pk_list (mkCfx (Some dek) (cfx_datalen cfx)) 0) /\
             l = Make_session_key dek :: lw) \/
         (exists rc,
             fst v = (Returns rc,
                      mkEfx pk_list (mkCfx (Some dek) (cfx_datalen cfx)) 1) /\
             Forall (wrap_event a) lw /\
             Forall (eq 0) (wrap_rcs lw) /\
             map enc_recipient (emitted lw) = map pk_recipient pk_list /\
             l = Make_session_key dek
                 :: lw ++
                    [Push_filter_out a
                       (cipher_filter (mkCfx (Some dek) (cfx_datalen cfx)));
                     Iobuf_write a buf rc])).
Proof.
  unfold encrypt_filter.
  cbn [efx_header_okay efx_pk_list efx_cfx].
  change (negb (nz 0)) with true. cbv iota.
  spec_exec_crypt.
  - (* a key wrap failed *)
    cbn [efx_pk_list efx_cfx cfx_datalen efx_header_okay] in *.
    destruct Hpost as (_ & Hall & n & _ & _ & _ & H1).
    apply nz_true in Heqb. destruct (H1 Heqb) as (_ & _ & Hpre).
    split; [reflexivity|]. eexists. exists l1. left.
    exists a0. split; [|split; [reflexivity|]].
    + split; [exact Heqb|]. split; [exact Hall | exact Hpre].
    + rewrite ?app_nil_r. reflexivity.
  - (* initialization completed *)
    cbn [efx_pk_list efx_cfx cfx_datalen efx_header_okay] in *.
    destruct Hpost as (_ & Hall & n & _ & _ & H0 & _).
    apply nz_false in Heqb. destruct (H0 Heqb) as (_ & Hem & Hz).
    split; [reflexivity|]. eexists. exists l1. right.
    exists r. split; [reflexivity|]. split; [exact Hall|].
    split; [exact Hz|]. split; [exact Hem|].
    rewrite ?app_nil_r. reflexivity.
Qed.

Lemma flush_all_written o efx a bufs :
  nz (efx_header_okay efx) = true ->
  spec o (flush_all efx a bufs)
       (fun v o' l => o' = o /\ data_flushes efx a bufs v l).
Proof.
  intro Hh. induction bufs as [|buf rest IH]; simpl.
  - spec_exec. split; [reflexivity|]. exists []. repeat split.
  - eapply spec_bind; [apply encrypt_filter_flush_spec|].
    intros [[res efx'] desc] o1 l1 Hpost. unfold flush_post in Hpost.
    rewrite Hh in Hpost. cbn [fst snd] in Hpost.
    destruct Hpost as (-> & -> & rc & -> & ->).
    cbv beta iota.
    eapply spec_bind; [exact IH|].
    intros [rs efx''] o1 l2 (-> & rcs & Hlen & Hv & ->).
    injection Hv as -> ->. cbv beta iota.
    spec_exec. split; [reflexivity|]. exists (rc :: rcs).
    split; [simpl; congruence|]. split; [reflexivity|].
    rewrite app_nil_r. reflexivity.
Qed.

Lemma flush_all_attempts o pk_list a bufs :
  forall cfx,
    spec o (flush_all (mkEfx pk_list cfx 0) a bufs)
         (fun v _ l => init_flushes pk_list (cfx_datalen cfx) a bufs v l).
Proof.
  induction bufs as [|buf rest IH]; intro cfx; simpl.
  - spec_exec. exists []. split; [constructor|]. left.
    repeat split.
  - eapply spec_bind; [apply encrypt_filter_first_flush|].
    intros [[res efx'] desc] o1 l1 (-> & dek & lw & Hcase).
    cbn [fst] in Hcase. cbv beta iota.
    destruct Hcase as [(rcw & Hfail & Hv & ->)
                      | (rc & Hv & Hall & Hz & Hem & ->)];
      injection Hv as -> ->.
    + (* failed attempt: the rest starts again *)
      eapply spec_bind;
        [apply (IH (mkCfx (Some dek) (cfx_datalen cfx)))|].
      intros [rs efx''] o1 l2 (attempts & Hf & Hshape). cbv beta iota.
      cbn [cfx_datalen] in Hshape.
      spec_exec. rewrite app_nil_r.
      exists (mkAttempt dek lw rcw :: attempts).
      split; [constructor; assumption|].
      cbn [fst snd] in Hshape |- *.
      destruct Hshape
        as [(Hlen & -> & Hpk & Hh & ->)
           | (before & buf' & after & dek' & lw' & rcs & -> & Hlen & Hrcs
              & -> & -> & -> & H1 & H2 & H3)].
      * left. split; [simpl; congruence|]. split; [reflexivity|].
        split; [exact Hpk|]. split; [exact Hh|]. reflexivity.
      * right. exists (buf :: before), buf', after, dek', lw', rcs.
        split; [reflexivity|]. split; [simpl; congruence|].
        split; [exact Hrcs|]. split; [reflexivity|].
        split; [reflexivity|]. split; [|repeat split; assumption].
        cbn [flat_map attempt_log att_dek att_wrap app].
        rewrite <- app_assoc. reflexivity.
    + (* initialized: the rest only writes *)
      eapply spec_bind;
        [apply (@flush_all_written o
                  (mkEfx pk_list (mkCfx (Some dek) (cfx_datalen cfx)) 1)
                  a rest eq_refl)|].
      intros [rs efx''] o1 l2 (-> & rcs & Hlen & Hv & ->).
      injection Hv as -> ->. cbv beta iota.
      spec_exec. rewrite app_nil_r.
      exists []. split; [constructor|]. right.
      exists [], buf, rest, dek, lw, (rc :: rcs).
      split; [reflexivity|]. split; [reflexivity|].
      split; [simpl; congruence|]. split; [reflexivity|].
      split; [reflexivity|]. split; [|repeat split; assumption].
      cbn [flat_map app]. unfold data_writes. cbn [combine map fst snd].
      rewrite <- app_assoc. reflexivity.
Qed.

(** C2 (as the code has it).  Flushes of [bufs] driven through a
    filter whose header is not yet written: every flush before the one
    that completes the initialization starts it (its log begins with a
    new session key, followed by key-wrap events only: no application
    data, no cipher filter), returns the non-zero code of the key-wrap
    primitive that failed, and leaves [header_okay] 0.  Either all
    flushes do so; or the flush of one buffer [buf] completes the
    initialization: a new session key, the key wrap with all its
    primitives returning 0 and one packet per recipient, the push of
    the cipher filter holding that key; it sets [header_okay] to 1 and
    writes [buf], and every later flush only writes its buffer and
    returns the code of that write.  So the initialization completes
    at most once, and no application data is written before the
    session-key packets.  Flushes through a filter whose header is
    written only write data, one write per flush, and leave the
    context as it is. *)
Theorem C2_initialization_completes_once_before_data :
  forall (s : state W) pk_list cfx a bufs,
    (let r := flush_all (mkEfx pk_list cfx 0) a bufs s in
     exists attempts,
       Forall (failed_attempt a) attempts /\
       ((List.length attempts = List.length bufs /\
         fst (val r) = map (fun t => Returns (att_rc t)) attempts /\
         efx_pk_list (snd (val r)) = pk_list /\
         efx_header_okay (snd (val r)) = 0 /\
         log r = flat_map attempt_log attempts) \/
        (exists before buf after dek lw rcs,
            bufs = before ++ buf :: after /\
            List.length before = List.length attempts /\
            List.length rcs = List.length (buf :: after) /\
            fst (val r) = map (fun t => Returns (att_rc t)) attempts
                          ++ map Returns rcs /\
            snd (val r)
            = mkEfx pk_list (mkCfx (Some dek) (cfx_datalen cfx)) 1 /\
            log r = flat_map attempt_log attempts
                    ++ Make_session_key dek
                       :: lw
                          ++ Push_filter_out a
                               (cipher_filter
                                  (mkCfx (Some dek) (cfx_datalen cfx)))
                             :: data_writes a (buf :: after) rcs /\
            Forall (wrap_event a) lw /\
            Forall (eq 0) (wrap_rcs lw) /\
            map enc_recipient (emitted lw) = map pk_recipient pk_list))) /\
    (forall h,
        h <> 0 ->
        let r := flush_all (mkEfx pk_list cfx h) a bufs s in
        exists rcs,
          List.length rcs = List.length bufs /\
          val r = (map Returns rcs, mkEfx pk_list cfx h) /\
          log r = data_writes a bufs rcs).
Proof.
  intros s pk_list cfx a bufs. split.
  - exact (@flush_all_attempts (options s) pk_list a bufs cfx s eq_refl).
  - intros h Hh r. apply nz_true in Hh.
    assert (H := @flush_all_written (options s) (mkEfx pk_list cfx h)
                   a bufs Hh).
    exact (proj2 (H s eq_refl)).
Qed.

End Filter.

(** C2 as stated fails: when the key wrap of the second recipient fails,
    two flushes generate two session keys and write the first recipient's
    packet twice; the second flush does not "only write data". *)
Lemma C2_counterexample :
  let X := scenario_externals second_wrap_fails in
  let r := flush_all (mkEfx [rsa_key; elg_key] (mkCfx None 0) 0) 1
             [[1]; [2]] (start default_opt) in
  fst (val r) = [Returns 4; Returns 4] /\
  count_session_keys (log r) = 2%nat /\
  List.length (emitted (log r)) = 2%nat /\
  Forall (fun e => ~ is_app_write e) (log r).
Proof.
  vm_compute. repeat split; try reflexivity.
  repeat constructor; intros H; exact H.
Qed.

(** Three flushes through a filter whose header is not yet written,
    with a key wrap that fails once: the first flush returns the error,
    the second completes the initialization and writes its buffer, the
    third only writes. *)
Lemma C2_witness :
  let X := recovering_externals [rsa_key] 1 in
  let r := flush_all (mkEfx [rsa_key] (mkCfx None 0) 0) 1
             [[1]; [2]; [3]] (mkState 0%nat default_opt) in
  fst (val r) = [Returns 4; Returns 0; Returns 0] /\
  efx_header_okay (snd (val r)) = 1 /\
  count_session_keys (log r) = 2%nat /\
  List.filter (fun e => match e with Iobuf_write _ _ _ => true | _ => false end)
              (log r)
  = [Iobuf_write 1 [2] 0; Iobuf_write 1 [3] 0] /\
  exists attempts,
    Forall (failed_attempt 1) attempts /\
    ((List.length attempts = 3%nat /\
      fst (val r) = map (fun t => Returns (att_rc t)) attempts /\
      efx_pk_list (snd (val r)) = [rsa_key] /\
      efx_header_okay (snd (val r)) = 0 /\
      log r = flat_map attempt_log attempts) \/
     (exists before buf after dek lw rcs,
         [[1]; [2]; [3]] = before ++ buf :: after /\
         List.length before = List.length attempts /\
         List.length rcs = List.length (buf :: after) /\
         fst (val r) = map (fun t => Returns (att_rc t)) attempts
                       ++ map Returns rcs /\
         snd (val r) = mkEfx [rsa_key] (mkCfx (Some dek) 0) 1 /\
         log r = flat_map attempt_log attempts
                 ++ Make_session_key dek
                    :: lw
                       ++ Push_filter_out 1
                            (cipher_filter (mkCfx (Some dek) 0))
                          :: data_writes 1 (buf :: after) rcs /\
         Forall (wrap_event 1) lw /\
         Forall (eq 0) (wrap_rcs lw) /\
         map enc_recipient (emitted lw) = map pk_recipient [rsa_key])).
Proof.
  split; [reflexivity|]. split; [reflexivity|]. split; [reflexivity|].
  split; [reflexivity|].
  exact (proj1 (@C2_initialization_completes_once_before_data
                  nat (recovering_externals [rsa_key] 1)
                  (mkState 0%nat default_opt) [rsa_key] (mkCfx None 0) 1
                  [[1]; [2]; [3]])).
Defined.

(** * Symmetric mode: passphrase failure and the RFC-1991 message layout *)

Section Symmetric.
Context {W : Type} {X : Externals W}.

Lemma encode_simple_passphrase_failure filename mode o algo s2k dek :
  spec o (encode_simple filename mode)
    (fun v _ l =>
       In (Passphrase_to_dek algo s2k dek) l ->
       dek_unusable dek ->
       v = G10ERR_PASSPHRASE /\
       (exists inp, In (Iobuf_close_inp (Some inp)) l) /\
       Forall (fun e => ~ touches_output e) l).
Proof.
  unfold encode_simple. spec_exec.
  all: intros Hin Hun.
  all: try solve
    [ exfalso; in_log Hin; try discriminate Hin;
      try (injection Hin as <- <- <-; simpl in Hun;
           match goal with
           | H : nz (dek_keylen _) = true |- _ =>
               apply nz_true in H; contradiction
           end);
      in_copy; contradiction ].
  all: repeat split; [ eexists; in_tail | forall_log; simpl; tauto ].
Qed.

(** C8.  When [passphrase_to_dek] hands [encode_simple] no DEK, or a DEK
    of key length 0, [encode_simple] returns [G10ERR_PASSPHRASE], the
    input stream has been closed, and nothing in the run touches an
    output stream: [open_outfile] is never called. *)
Theorem C8_passphrase_failure_before_output :
  forall (s : state W) filename mode algo s2k dek,
    let r := encode_simple filename mode s in
    In (Passphrase_to_dek algo s2k dek) (log r) ->
    dek_unusable dek ->
    val r = G10ERR_PASSPHRASE /\
    (exists inp, In (Iobuf_close_inp (Some inp)) (log r)) /\
    Forall (fun e => ~ touches_output e) (log r).
Proof.
  intros s filename mode algo s2k dek r.
  assert (H := encode_simple_passphrase_failure (o := options s)
                 filename mode algo s2k dek).
  exact (H s eq_refl).
Qed.

Lemma encode_simple_packets filename mode (s : state W) :
  Forall (symkey_only_modern (options s) mode)
         (log (encode_simple filename mode s)).
Proof.
  unfold encode_simple.
  apply (always_get_opt_bind (fun o => symkey_only_modern o mode)).
  intro o.
  always_run; try exact I;
    try (apply always_copy_plain; intros; exact I).
  - apply negb_true_iff in Heqb2. apply nz_false in Heqb2. exact Heqb2.
  - apply nz_true in Heqb0. exact Heqb0.
Qed.

(** C9.  [encode_simple] builds a symmetric session-key packet only when
    [opt.rfc1991] is off (and the mode is symmetric).  With
    [opt.rfc1991] on, the only packet it ever builds is the literal
    packet: the message starts with the body. *)
Theorem C9_no_symkey_packet_in_rfc1991 :
  forall (s : state W) filename mode,
    let r := encode_simple filename mode s in
    (forall out enc rc,
        In (Build_packet out (PKT_SYMKEY_ENC enc) rc) (log r) ->
        opt.rfc1991 (options s) = 0 /\ mode <> 0) /\
    (opt.rfc1991 (options s) <> 0 ->
     forall out pkt rc,
       In (Build_packet out pkt rc) (log r) ->
       exists pt, pkt = PKT_PLAINTEXT pt).
Proof.
  intros s filename mode r.
  assert (H := encode_simple_packets filename mode s).
  rewrite Forall_forall in H. split.
  - intros out enc rc Hin. exact (H _ Hin).
  - intros Hrfc out pkt rc Hin. apply H in Hin.
    destruct pkt; simpl in Hin; try contradiction.
    + destruct Hin as [E _]. contradiction.
    + eexists. reflexivity.
Qed.

End Symmetric.

Lemma C8_witness :
  let r := encode_simple (X := scenario_externals no_passphrase)
             (Some "hello.txt"%string) 1 (start default_opt) in
  val r = 26 /\
  (exists inp, In (Iobuf_close_inp (Some inp)) (log r)) /\
  Forall (fun e => ~ touches_output e) (log r).
Proof.
  apply (C8_passphrase_failure_before_output
           (X := scenario_externals no_passphrase)
           (start default_opt) (Some "hello.txt"%string) 1
           3 (mkS2K 3 2 (repeat 0 8%nat) 0) None).
  - vm_compute. tauto.
  - exact I.
Defined.

Lemma C9_witness :
  (opt.rfc1991 default_opt = 0 /\ 1 <> 0) /\
  (exists pt,
      PKT_PLAINTEXT
        (mkPlaintext 10 "b"%char 0 0 "hello.txt"%string (Some hello_input))
      = PKT_PLAINTEXT pt).
Proof.
  split.
  - apply (proj1 (C9_no_symkey_packet_in_rfc1991
                    (X := scenario_externals (all_good []))
                    (start default_opt) (Some "hello.txt"%string) 1)
             1 (mkSymkeyEnc 4 3 (mkS2K 3 2 (repeat 0 8%nat) 0)) 0).
    vm_compute. tauto.
  - apply (proj2 (C9_no_symkey_packet_in_rfc1991
                    (X := scenario_externals (all_good []))
                    (start rfc1991_opt) (Some "hello.txt"%string) 1)
             ltac:(discriminate) 1
             (PKT_PLAINTEXT
                (mkPlaintext 10 "b"%char 0 0 "hello.txt"%string
                             (Some hello_input))) 0).
    vm_compute. tauto.
Defined.

(** * The declared length of the literal packet *)

Section Literal.
Context {W : Type} {X : Externals W}.

Lemma encode_simple_literal filename mode (s : state W) :
  Forall (literal_ok (options s) filename)
         (log (encode_simple filename mode s)).
Proof.
  unfold encode_simple.
  apply (always_get_opt_bind (fun o => literal_ok o filename)).
  intro o.
  always_run; try exact I;
    try (apply always_copy_plain; intros; exact I).
  all: eexists; repeat split.
Qed.

Lemma encode_crypt_literal filename remusr (s : state W) :
  Forall (literal_ok (options s) filename)
         (log (encode_crypt filename remusr s)).
Proof.
  unfold encode_crypt, leave.
  apply (always_get_opt_bind (fun o => literal_ok o filename)).
  intro o.
  always_run; try exact I;
    try (apply always_copy_plain; intros; exact I);
    try (apply always_pgp2_scan; intros; exact I);
    try (apply always_write_pubkey_impl; wrap_cases).
  all: eexists; repeat split.
Qed.

Lemma literal_packet_ok filename mode remusr (s : state W) out pt rc :
  In (Build_packet out (PKT_PLAINTEXT pt) rc)
     (log (encode_simple filename mode s)) \/
  In (Build_packet out (PKT_PLAINTEXT pt) rc)
     (log (encode_crypt filename remusr s)) ->
  exists inp,
    pt_buf pt = Some inp /\
    pt_len pt = literal_length (options s) filename inp /\
    pt_new_ctb pt =
      b2i (negb (nz (pt_len pt)) && negb (nz (opt.rfc1991 (options s)))).
Proof.
  intros [H|H].
  - assert (Hall := encode_simple_literal filename mode s).
    rewrite Forall_forall in Hall. exact (Hall _ H).
  - assert (Hall := encode_crypt_literal filename remusr s).
    rewrite Forall_forall in Hall. exact (Hall _ H).
Qed.

(** C3 (as the code has it).  For a named input file in binary mode
    ([opt.textmode] off), every literal packet that [encode_simple] or
    [encode_crypt] builds reads from the input stream and: when the
    file length is at least [IOBUF_FILELENGTH_LIMIT] it declares length
    0, with a new-style header exactly when [opt.rfc1991] is off; when
    the file length is below the limit it declares that length. *)
Theorem C3_literal_length_of_named_binary_file :
  forall (s : state W) f mode remusr out pt rc,
    opt.textmode (options s) = 0 ->
    In (Build_packet out (PKT_PLAINTEXT pt) rc)
       (log (encode_simple (Some f) mode s)) \/
    In (Build_packet out (PKT_PLAINTEXT pt) rc)
       (log (encode_crypt (Some f) remusr s)) ->
    exists inp,
      pt_buf pt = Some inp /\
      let n := to_u32 (iobuf_get_filelength inp) in
      (IOBUF_FILELENGTH_LIMIT <= n ->
       pt_len pt = 0 /\
       pt_new_ctb pt = b2i (negb (nz (opt.rfc1991 (options s))))) /\
      (n < IOBUF_FILELENGTH_LIMIT -> pt_len pt = n).
Proof.
  intros s f mode remusr out pt rc Htext Hin.
  destruct (literal_packet_ok _ _ _ _ _ _ _ Hin) as (inp & Hb & Hl & Hc).
  exists inp. split; [exact Hb|].
  unfold literal_length in Hl. rewrite Htext in Hl. simpl in Hl.
  rewrite Hc, Hl. split.
  - intro Hn. apply Z.leb_le in Hn. rewrite Hn. split; reflexivity.
  - intro Hn. apply Z.leb_gt in Hn. rewrite Hn. reflexivity.
Qed.

(** C10.  When the input is standard input (no file name) or
    [opt.textmode] is on, every literal packet that [encode_simple] or
    [encode_crypt] builds declares [opt.set_filesize] if that is set
    and 0 otherwise, whatever the length of the input file. *)
Theorem C10_literal_length_of_stdin_or_text :
  forall (s : state W) filename mode remusr out pt rc,
    filename = None \/ opt.textmode (options s) <> 0 ->
    In (Build_packet out (PKT_PLAINTEXT pt) rc)
       (log (encode_simple filename mode s)) \/
    In (Build_packet out (PKT_PLAINTEXT pt) rc)
       (log (encode_crypt filename remusr s)) ->
    pt_len pt =
      if nz (opt.set_filesize (options s))
      then to_u32 (opt.set_filesize (options s)) else 0.
Proof.
  intros s filename mode remusr out pt rc Hcase Hin.
  destruct (literal_packet_ok _ _ _ _ _ _ _ Hin) as (inp & _ & Hl & _).
  rewrite Hl. unfold literal_length.
  destruct Hcase as [-> | Ht].
  - reflexivity.
  - apply nz_true in Ht. rewrite Ht, andb_false_r. reflexivity.
Qed.

End Literal.

(** C3 as stated fails: a named 10-byte file, far below the limit, in text
    mode: the literal packet declares length 0, not 10.  And a named file
    at the limit with [opt.rfc1991] on: the packet declares 0 but does not
    ask for a new-style header. *)
Lemma C3_counterexample :
  (let X := scenario_externals (all_good [rsa_key]) in
   let r := encode_simple (Some "hello.txt"%string) 0 (start textmode_opt) in
   exists pt,
     In (Build_packet 1 (PKT_PLAINTEXT pt) 0) (log r) /\
     pt_buf pt = Some hello_input /\
     to_u32 (iobuf_get_filelength hello_input) = 10 /\
     10 < IOBUF_FILELENGTH_LIMIT /\
     pt_len pt = 0) /\
  (let X := scenario_externals huge_file in
   let r := encode_crypt (Some "huge.bin"%string) ["alice"%string]
              (start rfc1991_opt) in
   exists pt,
     In (Build_packet 1 (PKT_PLAINTEXT pt) 0) (log r) /\
     pt_buf pt = Some huge_input /\
     IOBUF_FILELENGTH_LIMIT <= to_u32 (iobuf_get_filelength huge_input) /\
     pt_len pt = 0 /\
     pt_new_ctb pt = 0).
Proof.
  split.
  - exists (mkPlaintext 0 "t"%char 1 0 "hello.txt"%string (Some hello_input)).
    vm_compute. intuition congruence.
  - exists (mkPlaintext 0 "b"%char 0 0 "huge.bin"%string (Some huge_input)).
    vm_compute. intuition congruence.
Qed.

Lemma C3_witness :
  exists inp,
    Some hello_input = Some inp /\
    let n := to_u32 (iobuf_get_filelength inp) in
    (0xffffffff <= n -> 10 = 0 /\ 0 = b2i (negb (nz 0))) /\
    (n < 0xffffffff -> 10 = n).
Proof.
  apply (C3_literal_length_of_named_binary_file
           (X := scenario_externals (all_good [rsa_key]))
           (start default_opt) "hello.txt"%string 0 ["alice"%string] 1
           (mkPlaintext 10 "b"%char 0 0 "hello.txt"%string (Some hello_input))
           0).
  - reflexivity.
  - right. vm_compute. tauto.
Defined.

Lemma C10_witness : 10 = 10 /\ 0 = 0.
Proof.
  split.
  - apply (@C10_literal_length_of_stdin_or_text
             unit (scenario_externals (all_good [rsa_key]))
             (start stdin_sized_opt) None 0 ["alice"%string] 1
             (mkPlaintext 10 "b"%char 0 0 EmptyString (Some hello_input)) 0).
    + left. reflexivity.
    + left. vm_compute. tauto.
  - apply (@C10_literal_length_of_stdin_or_text
             unit (scenario_externals (all_good [rsa_key]))
             (start textmode_opt) (Some "hello.txt"%string) 0
             ["alice"%string] 1
             (mkPlaintext 0 "t"%char 1 0 "hello.txt"%string
                          (Some hello_input)) 0).
    + right. discriminate.
    + right. vm_compute. tauto.
Defined.

(** * Recipient policy: the cipher and the integrity flag of the DEK *)

Section Policy.
Context {W : Type} {X : Externals W}.

Lemma encode_crypt_dek filename remusr o :
  spec o (encode_crypt filename remusr)
    (fun _ _ l =>
       forall rc0 pk_list,
         In (Build_pk_list remusr rc0 pk_list) l ->
         Forall (dek_event_ok (dek_policy o CIPHER_ALGO_3DES pk_list)) l).
Proof.
  unfold encode_crypt, leave.
  do 5 (spec_step; cbv beta iota; cbn [fst snd]).
  - spec_exec. intros rc0 pk_list Hin. forall_log. exact I.
  - eapply spec_weaken.
    + apply spec_always
        with (P := fun e => dek_event_ok
                              (dek_policy o CIPHER_ALGO_3DES p) e
                            /\ not_build_pk_list e).
      always_run; try (split; exact I);
        try (apply always_copy_plain; intros; split; exact I);
        try (apply always_pgp2_scan; intros; split; exact I);
        try (apply always_write_pubkey_impl; wrap_cases).
      all: repeat split.
    + cbv beta. intros _ _ l Hl rc0 pk_list Hin.
      assert (E : pk_list = p).
      { in_log Hin.
        - congruence.
        - rewrite Forall_forall in Hl. apply Hl in Hin. destruct Hin as [_ []]. }
      subst pk_list. forall_log; [exact I|].
      eapply Forall_impl; [|exact Hl]. intros e [He _]. exact He.
Qed.

Lemma encrypt_filter_dek efx control a buf o :
  spec o (encrypt_filter efx control a buf)
    (fun _ _ l =>
       Forall (dek_event_ok
                 (dek_policy o DEFAULT_CIPHER_ALGO (efx_pk_list efx))) l).
Proof.
  unfold encrypt_filter. spec_exec.
  all: try solve [forall_log; exact I].
  eapply spec_bind; [apply write_pubkey_enc_from_list_spec|].
  intros rcw o1 lw (-> & Hall & _). cbv beta. spec_exec.
  all: forall_log; try exact I; try (split; reflexivity).
  all: eapply Forall_impl; [|exact Hall]; wrap_cases.
Qed.

Lemma select_mdc_from_pklist_all pk_list :
  select_mdc_from_pklist pk_list <> 0 <->
  Forall (fun pk => pk_mdc_feature pk <> 0) pk_list.
Proof.
  unfold select_mdc_from_pklist. rewrite Forall_forall.
  destruct (forallb _ pk_list) eqn:E; simpl.
  - rewrite forallb_forall in E. split; [|discriminate].
    intros _ pk Hpk. apply nz_true. auto.
  - split; [congruence|]. intro H. exfalso.
    assert (E' : forallb (fun pk => nz (pk_mdc_feature pk)) pk_list = true).
    { apply forallb_forall. intros pk Hpk. apply nz_true. auto. }
    congruence.
Qed.

Lemma in_common_prefs pk_list t x :
  In x (common_prefs pk_list t) <->
  pk_list <> [] /\ Forall (fun pk => In x (pk_prefs pk t)) pk_list.
Proof.
  destruct pk_list as [|pk rest]; simpl.
  - split; [tauto | intros [H _]; congruence].
  - rewrite filter_In, forallb_forall. split.
    + intros [Hx Hall]. split; [discriminate|]. constructor; [exact Hx|].
      apply Forall_forall. intros pk' Hpk'. specialize (Hall _ Hpk').
      apply existsb_exists in Hall. destruct Hall as (y & Hy & E).
      apply Z.eqb_eq in E. subst y. exact Hy.
    + intros [_ H]. inversion H as [|? ? Hx Hrest]; subst.
      split; [exact Hx|]. intros pk' Hpk'.
      rewrite Forall_forall in Hrest.
      apply existsb_exists. exists x. split; [auto | apply Z.eqb_refl].
Qed.

Lemma cipher_choice_cases o fallback pk_list :
  (opt.def_cipher_algo o <> 0 ->
   cipher_choice o fallback pk_list = opt.def_cipher_algo o) /\
  (opt.def_cipher_algo o = 0 ->
   forall a rest,
     common_prefs pk_list PREFTYPE_SYM = a :: rest -> a <> -1 ->
     cipher_choice o fallback pk_list = a) /\
  (opt.def_cipher_algo o = 0 ->
   common_prefs pk_list PREFTYPE_SYM = [] ->
   cipher_choice o fallback pk_list = fallback).
Proof.
  unfold cipher_choice, select_algo_from_prefs. repeat split.
  - intro H. apply nz_true in H. rewrite H. reflexivity.
  - intros H a rest E Ha. apply nz_false in H. rewrite H, E. simpl.
    destruct (Z.eqb_spec a (-1)); [contradiction | reflexivity].
  - intros H E. apply nz_false in H. rewrite H, E. reflexivity.
Qed.

Lemma encode_crypt_dek_event filename remusr (s : state W)
  rc0 pk_list e d :
  let r := encode_crypt filename remusr s in
  In (Build_pk_list remusr rc0 pk_list) (log r) ->
  In e (log r) -> event_dek e = Some d ->
  dek_policy (options s) CIPHER_ALGO_3DES pk_list d.
Proof.
  intros r Hb He Hd.
  assert (H := encode_crypt_dek (o := options s) filename remusr).
  specialize (H s eq_refl rc0 pk_list Hb).
  rewrite Forall_forall in H. specialize (H e He).
  unfold dek_event_ok in H. rewrite Hd in H. exact H.
Qed.

Lemma encrypt_filter_dek_event efx control a buf (s : state W) e d :
  let r := encrypt_filter efx control a buf s in
  In e (log r) -> event_dek e = Some d ->
  dek_policy (options s) DEFAULT_CIPHER_ALGO (efx_pk_list efx) d.
Proof.
  intros r He Hd.
  assert (H := encrypt_filter_dek (o := options s) efx control a buf).
  specialize (H s eq_refl).
  rewrite Forall_forall in H. specialize (H e He).
  unfold dek_event_ok in H. rewrite Hd in H. exact H.
Qed.

(** C4.  Every DEK that [encode_crypt] or [encrypt_filter] generates or
    hands to the cipher filter has its [use_mdc] flag set if and only if
    every key of the recipient list supports integrity protection: one
    key without support turns it off for the whole message. *)
Theorem C4_mdc_iff_all_recipients_support_it :
  (forall (s : state W) filename remusr rc0 pk_list e d,
      let r := encode_crypt filename remusr s in
      In (Build_pk_list remusr rc0 pk_list) (log r) ->
      In e (log r) -> event_dek e = Some d ->
      (dek_use_mdc d <> 0 <->
       Forall (fun pk => pk_mdc_feature pk <> 0) pk_list)) /\
  (forall (s : state W) efx control a buf e d,
      let r := encrypt_filter efx control a buf s in
      In e (log r) -> event_dek e = Some d ->
      (dek_use_mdc d <> 0 <->
       Forall (fun pk => pk_mdc_feature pk <> 0) (efx_pk_list efx))).
Proof.
  split.
  - intros s filename remusr rc0 pk_list e d r Hb He Hd.
    destruct (@encode_crypt_dek_event filename remusr s rc0 pk_list e d
                Hb He Hd) as [-> _].
    apply select_mdc_from_pklist_all.
  - intros s efx control a buf e d r He Hd.
    destruct (@encrypt_filter_dek_event efx control a buf s e d He Hd)
      as [-> _].
    apply select_mdc_from_pklist_all.
Qed.

(** C5 (as the code has it).  Every DEK that [encode_crypt] or
    [encrypt_filter] generates or hands to the cipher filter uses
    [opt.def_cipher_algo] when that is set; otherwise the first algorithm
    of the recipients' common symmetric-cipher preferences, which every
    recipient advertises; and when there is no common preference, the
    fixed default, which is [CIPHER_ALGO_3DES] in [encode_crypt] and
    [DEFAULT_CIPHER_ALGO] in [encrypt_filter]. *)
Theorem C5_cipher_override_preference_or_default :
  (forall (s : state W) filename remusr rc0 pk_list e d,
      let r := encode_crypt filename remusr s in
      let o := options s in
      In (Build_pk_list remusr rc0 pk_list) (log r) ->
      In e (log r) -> event_dek e = Some d ->
      (opt.def_cipher_algo o <> 0 -> dek_algo d = opt.def_cipher_algo o) /\
      (opt.def_cipher_algo o = 0 ->
       forall a rest,
         common_prefs pk_list PREFTYPE_SYM = a :: rest -> a <> -1 ->
         dek_algo d = a /\
         Forall (fun pk => In a (pk_prefs pk PREFTYPE_SYM)) pk_list) /\
      (opt.def_cipher_algo o = 0 ->
       common_prefs pk_list PREFTYPE_SYM = [] ->
       dek_algo d = CIPHER_ALGO_3DES)) /\
  (forall (s : state W) efx control a buf e d,
      let r := encrypt_filter efx control a buf s in
      let o := options s in
      In e (log r) -> event_dek e = Some d ->
      (opt.def_cipher_algo o <> 0 -> dek_algo d = opt.def_cipher_algo o) /\
      (opt.def_cipher_algo o = 0 ->
       forall x rest,
         common_prefs (efx_pk_list efx) PREFTYPE_SYM = x :: rest ->
         x <> -1 ->
         dek_algo d = x /\
         Forall (fun pk => In x (pk_prefs pk PREFTYPE_SYM))
                (efx_pk_list efx)) /\
      (opt.def_cipher_algo o = 0 ->
       common_prefs (efx_pk_list efx) PREFTYPE_SYM = [] ->
       dek_algo d = DEFAULT_CIPHER_ALGO)).
Proof.
  assert (Hcommon : forall pk_list x rest,
             common_prefs pk_list PREFTYPE_SYM = x :: rest ->
             Forall (fun pk => In x (pk_prefs pk PREFTYPE_SYM)) pk_list).
  { intros pk_list x rest E.
    apply (in_common_prefs pk_list PREFTYPE_SYM x). rewrite E.
    left. reflexivity. }
  split.
  - intros s filename remusr rc0 pk_list e d r o Hb He Hd.
    destruct (@encode_crypt_dek_event filename remusr s rc0 pk_list e d
                Hb He Hd) as [_ ->].
    destruct (cipher_choice_cases o CIPHER_ALGO_3DES pk_list)
      as (H1 & H2 & H3).
    repeat split; eauto.
  - intros s efx control a buf e d r o He Hd.
    destruct (@encrypt_filter_dek_event efx control a buf s e d He Hd)
      as [_ ->].
    destruct (cipher_choice_cases o DEFAULT_CIPHER_ALGO (efx_pk_list efx))
      as (H1 & H2 & H3).
    repeat split; eauto.
Qed.

End Policy.

Lemma C4_witness :
  0 <> 0 <-> Forall (fun pk => pk_mdc_feature pk <> 0) [rsa_key; elg_key].
Proof.
  apply (proj1 (@C4_mdc_iff_all_recipients_support_it
                  unit (scenario_externals (all_good [rsa_key; elg_key])))
           (start default_opt) (Some "hello.txt"%string)
           ["alice"%string; "bob"%string] 0 [rsa_key; elg_key]
           (Make_session_key (mkDEK 3 16 (repeat 0 16%nat) 0))
           (mkDEK 3 16 (repeat 0 16%nat) 0)).
  - vm_compute. tauto.
  - vm_compute. tauto.
  - reflexivity.
Defined.

(** C5 as stated fails in [encrypt_filter]: with [DEFAULT_CIPHER_ALGO]
    being CAST5, as in GnuPG's cipher.h, two recipients without a common
    cipher preference get a CAST5 session key, not a 3DES one. *)
Lemma C5_counterexample :
  let X := scenario_externals (all_good []) in
  let r := encrypt_filter (mkEfx [rsa_key; odd_key] (mkCfx None 0) 0)
             IOBUFCTRL_FLUSH 1 [1; 2; 3] (start default_opt) in
  opt.def_cipher_algo default_opt = 0 /\
  common_prefs [rsa_key; odd_key] PREFTYPE_SYM = [] /\
  In (Make_session_key (mkDEK CIPHER_ALGO_CAST5 16 (repeat 0 16%nat) 1))
     (log r) /\
  CIPHER_ALGO_CAST5 <> CIPHER_ALGO_3DES.
Proof.
  vm_compute. intuition congruence.
Qed.

Lemma C5_witness :
  3 = 3 /\ Forall (fun pk => In 3 (pk_prefs pk PREFTYPE_SYM))
                  [rsa_key; elg_key].
Proof.
  apply (proj1 (proj2
           (proj1 (@C5_cipher_override_preference_or_default
                     unit (scenario_externals (all_good [rsa_key; elg_key])))
              (start default_opt) (Some "hello.txt"%string)
              ["alice"%string; "bob"%string] 0 [rsa_key; elg_key]
              (Make_session_key (mkDEK 3 16 (repeat 0 16%nat) 0))
              (mkDEK 3 16 (repeat 0 16%nat) 0)
              ltac:(vm_compute; tauto) ltac:(vm_compute; tauto) eq_refl))
           eq_refl 3 [2] eq_refl ltac:(discriminate)).
Defined.

(** * Legacy (--pgp2) mode and recipient keys it cannot serve *)

Section Legacy.
Context {W : Type} {X : Externals W}.

Lemma run_get_opt A (f : opt.t -> M W A) s :
  bind get_opt f s = f (options s) s.
Proof.
  unfold bind, get_opt. destruct (f (options s) s) as [[b s2] l2].
  reflexivity.
Qed.

Lemma run_call R A (g : W -> R * W) ev (f : R -> M W A) s r w :
  g (world s) = (r, w) ->
  bind (call g ev) f s =
    (val (f r (mkState w (options s))),
     st (f r (mkState w (options s))),
     ev r ++ log (f r (mkState w (options s)))).
Proof.
  intro H. unfold bind, call, val, st, log. rewrite H.
  destruct (f r (mkState w (options s))) as [[b s2] l2]. reflexivity.
Qed.

Lemma run_ret A B (a : A) (f : A -> M W B) s :
  bind (ret a) f s = f a s.
Proof.
  unfold bind, ret. destruct (f a s) as [[b s2] l2]. reflexivity.
Qed.

Lemma pgp2_scan_run work_list (s : state W) :
  pgp2_scan work_list s =
    if existsb too_big_for_pgp2 work_list
    then (tt, mkState (world s) (opt.with_pgp2 0 (options s)),
          [Log_info
             "you can only encrypt to RSA keys of 2048 bits or less in --pgp2 mode";
           Log_info "this message may not be usable by PGP 2.x"])
    else (tt, s, []).
Proof.
  induction work_list as [|pk next IH]; simpl.
  - reflexivity.
  - unfold too_big_for_pgp2 at 1.
    destruct (negb (is_RSA (pubkey_algo pk) && (nbits_from_pk pk <=? 2048)));
      simpl.
    + reflexivity.
    + exact IH.
Qed.

Lemma run_scan A (f : unit -> M W A) work_list s :
  existsb too_big_for_pgp2 work_list = true ->
  bind (pgp2_scan work_list) f s =
    (val (f tt (mkState (world s) (opt.with_pgp2 0 (options s)))),
     st (f tt (mkState (world s) (opt.with_pgp2 0 (options s)))),
     [Log_info
        "you can only encrypt to RSA keys of 2048 bits or less in --pgp2 mode";
      Log_info "this message may not be usable by PGP 2.x"]
     ++ log (f tt (mkState (world s) (opt.with_pgp2 0 (options s))))).
Proof.
  intro H. unfold bind. rewrite pgp2_scan_run, H. unfold val, st, log.
  destruct (f tt _) as [[b s2] l2]. reflexivity.
Qed.

Lemma encode_crypt_pgp2_off filename remusr o :
  spec o (encode_crypt filename remusr)
       (fun _ o' _ => opt.pgp2 o = 0 -> opt.pgp2 o' = 0).
Proof.
  unfold encode_crypt, leave. spec_exec_crypt.
  all: try (intro; assumption).
  all: reflexivity.
Qed.

(** With [opt.pgp2] set and a recipient list that holds a key legacy
    mode cannot serve, a run is the run with [opt.pgp2] off plus the two
    warnings. *)
Lemma encode_crypt_legacy_run (s : state W) filename remusr pk_list w1 :
  nz (opt.pgp2 (options s)) = true ->
  ext_build_pk_list (world s) remusr PUBKEY_USAGE_ENC = (0, pk_list, w1) ->
  existsb too_big_for_pgp2 pk_list = true ->
  let r := encode_crypt filename remusr s in
  let r0 := encode_crypt filename remusr
              (mkState (world s) (opt.with_pgp2 0 (options s))) in
  val r = val r0 /\
  st r = st r0 /\
  log r =
    Build_pk_list remusr 0 pk_list
    :: Log_info
         "you can only encrypt to RSA keys of 2048 bits or less in --pgp2 mode"
    :: Log_info "this message may not be usable by PGP 2.x"
    :: tl (log r0) /\
  hd Bug (log r0) = Build_pk_list remusr 0 pk_list.
Proof.
  intros Hpgp2 Hb Hbig r r0. subst r r0.
  destruct s as [w o]. cbn [world options] in *.
  unfold encode_crypt, build_pk_list.
  rewrite !run_get_opt. cbv beta. cbn [world options].
  rewrite (@run_call _ _
             (fun w0 => ext_build_pk_list w0 remusr PUBKEY_USAGE_ENC)
             _ _ (mkState w o) (0, pk_list) w1 Hb).
  rewrite (@run_call _ _
             (fun w0 => ext_build_pk_list w0 remusr PUBKEY_USAGE_ENC)
             _ _ (mkState w (opt.with_pgp2 0 o)) (0, pk_list) w1 Hb).
  cbn [fst snd val st log world options].
  cbv beta iota.
  change (nz 0) with false. cbv iota.
  rewrite Hpgp2.
  change (nz (opt.pgp2 (opt.with_pgp2 0 o))) with false. cbv iota.
  rewrite (run_scan _ _ _ Hbig).
  rewrite run_ret.
  cbn [fst snd val st log world options app tl hd].
  repeat split; reflexivity.
Qed.

End Legacy.

(** * Cleanup at the end of a run *)



Section Cleanup.
Context {W : Type} {X : Externals W}.




Lemma copy_event_not_status out l st :
  Forall (copy_event out) l -> ~ In (Write_status st) l.
Proof.
  intros H Hin. exact (@copy_event_in out l _ H Hin).
Qed.











End Cleanup.



(** The failure the theorem above leaves out: when [build_packet] fails on
    the symmetric session-key packet, [encode_simple] logs it, but [rc] is
    overwritten by the [build_packet] of the literal packet: the run
    closes the output normally, reports the end of encryption and returns
    0.  With [--no-literal], where nothing overwrites [rc], the same
    failure cancels the output and is returned. *)
Lemma encode_simple_symkey_failure_is_lost :
  let X := scenario_externals symkey_build_fails in
  let enc := mkSymkeyEnc 4 3 (mkS2K 3 2 (repeat 0 8%nat) 0) in
  (let r := encode_simple (Some "hello.txt"%string) 1 (start default_opt) in
   In (Build_packet 1 (PKT_SYMKEY_ENC enc) 22) (log r) /\
   In (Log_error "build symkey packet failed: %s") (log r) /\
   val r = 0 /\
   In (Iobuf_close_out (Some 1)) (log r) /\
   In (Write_status STATUS_END_ENCRYPTION) (log r) /\
   ~ In (Iobuf_cancel_out (Some 1)) (log r)) /\
  (let r := encode_simple (Some "hello.txt"%string) 1
              (start no_literal_opt) in
   In (Build_packet 1 (PKT_SYMKEY_ENC enc) 22) (log r) /\
   val r = 22 /\
   In (Iobuf_cancel_out (Some 1)) (log r) /\
   ~ In (Iobuf_close_out (Some 1)) (log r)).
Proof.
  vm_compute. intuition congruence.
Qed.

(** * Blocks of [encode_crypt] that only warn

    The legacy-mode scan and the choice of the cipher log warnings and
    may switch [opt.pgp2] off; nothing after them reads [opt.pgp2]. *)

Section Blocks.
Context {W : Type} {X : Externals W}.

Lemma scan_block_spec o (c : bool) pk_list :
  spec o (if c then pgp2_scan pk_list else ret tt : M W unit)
    (fun _ o' l =>
       (o' = o \/ o' = opt.with_pgp2 0 o) /\ Forall is_log_info l).
Proof.
  destruct c.
  - eapply spec_weaken; [apply pgp2_scan_spec|].
    intros [] o' l H. cbv beta in H.
    destruct (existsb _ pk_list); destruct H as [-> ->].
    + split; [right; reflexivity | repeat constructor].
    + split; [left; reflexivity | constructor].
  - apply spec_ret. split; [left; reflexivity | constructor].
Qed.

Lemma algo_block_spec o o0 pk_list :
  spec o
    (if negb (nz (opt.def_cipher_algo o0)) then
       let algo := select_algo_from_prefs pk_list PREFTYPE_SYM in
       if algo =? -1 then
         o' <- get_opt ;;
         (if nz (opt.pgp2 o') then
            log_info
              "unable to use the IDEA cipher for all of the keys you are encrypting to." ;;
            log_info "this message may not be usable by PGP 2.x" ;;
            set_pgp2 0
          else ret tt) ;;
         ret CIPHER_ALGO_3DES
       else ret algo
     else ret (opt.def_cipher_algo o0) : M W Z)
    (fun a o' l =>
       a = cipher_choice o0 CIPHER_ALGO_3DES pk_list /\
       (o' = o \/ o' = opt.with_pgp2 0 o) /\ Forall is_log_info l).
Proof.
  unfold cipher_choice. cbv zeta. spec_exec.
  all: split; [reflexivity|].
  all: split; [first [left; reflexivity | right; reflexivity]|].
  all: repeat constructor.
Qed.

End Blocks.

(** Symbolic execution of [encode_crypt] that passes over the two blocks
    without splitting the run. *)
Ltac spec_step_block :=
  match goal with
  | |- spec _ (bind (if nz (opt.pgp2 _) then pgp2_scan _ else ret tt) _) _ =>
      eapply spec_bind; [apply scan_block_spec|];
      let Ho := fresh "Hscan_opt" in
      let Hl := fresh "Hscan_log" in
      intros [] ? ? [Ho Hl]
  | |- spec _ (bind (if negb (nz (opt.def_cipher_algo _)) then _ else _) _)
            _ =>
      eapply spec_bind; [apply algo_block_spec|];
      let Ha := fresh "Halgo" in
      let Ho := fresh "Halgo_opt" in
      let Hl := fresh "Halgo_log" in
      intros ? ? ? (Ha & Ho & Hl)
  | |- spec _ (bind (write_pubkey_enc_from_list _ _ _) _) _ =>
      eapply spec_bind; [apply write_pubkey_enc_from_list_spec|];
      let Hpost := fresh "Hpost" in
      let Ho := fresh "Ho" in
      intros ? ? ? Hpost; assert (Ho := proj1 Hpost); subst
  end.

Ltac spec_exec_blocks :=
  repeat (first [spec_step_block | spec_step]; cbv beta iota; cbn [fst snd]).

(** * The batch front end *)

Section BatchRuns.
Context {W : Type} {X : Externals W}.

Lemma flog_fbind A B (m : MF W A) (f : A -> MF W B) s :
  flog (fbind m f s) = flog (m s) ++ flog (f (fval (m s)) (fstate (m s))).
Proof.
  unfold fbind, fval, fstate, flog. destruct (m s) as [[a s1] l1]. simpl.
  destruct (f a s1) as [[b s2] l2]. reflexivity.
Qed.

Lemma fstate_fbind A B (m : MF W A) (f : A -> MF W B) s :
  fstate (fbind m f s) = fstate (f (fval (m s)) (fstate (m s))).
Proof.
  unfold fbind, fval, fstate. destruct (m s) as [[a s1] l1]. simpl.
  destruct (f a s1) as [[b s2] l2]. reflexivity.
Qed.

Lemma flog_lift A (m : M W A) s : flog (lift m s) = map Crypt (log (m s)).
Proof. unfold lift, flog, log. destruct (m s) as [[a s1] l]. reflexivity. Qed.

Lemma fval_lift A (m : M W A) s : fval (lift m s) = val (m s).
Proof. unfold lift, fval, val. destruct (m s) as [[a s1] l]. reflexivity. Qed.

Lemma fstate_lift A (m : M W A) s : fstate (lift m s) = st (m s).
Proof. unfold lift, fstate, st. destruct (m s) as [[a s1] l]. reflexivity. Qed.

(** What the batch logs for one file, and where it goes on. *)
Lemma one_file_block name (k : MF W unit) remusr s :
  let m :=
    fbind (femit (Print_file_status STATUS_FILE_START name 2))
      (fun _ =>
         fbind (lift (encode_crypt (Some name) remusr))
           (fun rc =>
              fbind (if nz rc then femit (Log_error_failed name rc)
                     else fret tt)
                (fun _ =>
                   fbind (femit (Write_file_status STATUS_FILE_DONE))
                     (fun _ => k)))) in
  let r1 := encode_crypt (Some name) remusr s in
  flog (m s) = file_block (name, r1) ++ flog (k (st r1)) /\
  fstate (m s) = fstate (k (st r1)).
Proof.
  intros m r1. subst m r1.
  repeat rewrite flog_fbind. repeat rewrite fstate_fbind.
  change (fstate (femit (Print_file_status STATUS_FILE_START name 2) s))
    with s.
  rewrite fval_lift, fstate_lift, flog_lift.
  unfold file_block. cbn [fst snd].
  generalize (encode_crypt (Some name) remusr s). intro r1.
  destruct (nz (val r1)).
  - split; [|reflexivity].
    cbn [flog femit snd app]. rewrite <- !app_assoc. reflexivity.
  - split; [|reflexivity].
    cbn [flog femit fret snd app]. rewrite <- !app_assoc. reflexivity.
Qed.

Lemma files_from_args_runs files remusr (s : state W) :
  flog (files_from_args files remusr s)
  = flat_map file_block (batch_runs files remusr s) /\
  fstate (files_from_args files remusr s) = batch_end files remusr s.
Proof.
  revert s. induction files as [|file rest IH]; intro s.
  - split; reflexivity.
  - cbn [files_from_args batch_runs batch_end flat_map].
    destruct (one_file_block file (files_from_args rest remusr) remusr s)
      as [Hl Hs].
    destruct (IH (st (encode_crypt (Some file) remusr s))) as [IHl IHs].
    split.
    + etransitivity; [exact Hl|]. f_equal. exact IHl.
    + etransitivity; [exact Hs|]. exact IHs.
Qed.

Lemma to_u32_succ lno k :
  to_u32 (to_u32 (lno + 1) + k + 1) = to_u32 (lno + (k + 1) + 1).
Proof.
  unfold to_u32.
  replace (lno + (k + 1) + 1) with ((lno + 1) + (k + 1)) by lia.
  replace ((lno + 1) mod 2 ^ 32 + k + 1)
    with ((lno + 1) mod 2 ^ 32 + (k + 1)) by lia.
  apply Zplus_mod_idemp_l.
Qed.

Lemma files_from_stdin_runs lines remusr lno (s : state W) :
  let names := map (fun l => chop (c_string l)) (usable_lines lines) in
  flog (files_from_stdin lines remusr lno s)
  = flat_map file_block (batch_runs names remusr s)
    ++ (if existsb line_unusable lines
        then [Log_error_line
                (to_u32 (lno + Z.of_nat (List.length names) + 1))]
        else []) /\
  fstate (files_from_stdin lines remusr lno s) = batch_end names remusr s.
Proof.
  revert lno s. induction lines as [|line rest IH]; intros lno s names.
  - split; reflexivity.
  - subst names. cbn [files_from_stdin usable_lines existsb].
    destruct (line_unusable line) eqn:Hl.
    + split; [|reflexivity]. cbn. rewrite Z.add_0_r. reflexivity.
    + cbn [map batch_runs batch_end flat_map orb List.length].
      destruct (one_file_block (chop (c_string line))
                  (files_from_stdin rest remusr (to_u32 (lno + 1)))
                  remusr s) as [Hlog Hst].
      destruct (IH (to_u32 (lno + 1))
                   (st (encode_crypt (Some (chop (c_string line)))
                          remusr s))) as [IHl IHs].
      split.
      * etransitivity; [exact Hlog|]. rewrite <- app_assoc. f_equal.
        etransitivity; [exact IHl|]. f_equal.
        destruct (existsb line_unusable rest); [|reflexivity].
        rewrite to_u32_succ. do 3 f_equal. lia.
      * etransitivity; [exact Hst|]. exact IHs.
Qed.

Lemma batch_runs_names names remusr (s : state W) :
  map fst (batch_runs names remusr s) = names.
Proof.
  revert s. induction names as [|name rest IH]; intro s;
    [reflexivity|].
  cbn [batch_runs map fst]. f_equal. apply IH.
Qed.

(** X1.  With files named on the command line, [encode_crypt_files]
    handles every one of them, in order, whatever happened to the ones
    before.  Its log is, file after file: the report of the start, the
    events of the run of [encode_crypt] on that file, the report of a
    failure if that run returned a non-zero code, and the report of
    the end.  The run for the first file starts in the state the batch
    was called in, each later one in the state the run before it left,
    and the batch ends in the state the last run left.  With
    [opt.outfile] set it only complains: no file is touched and the
    state is as before. *)
Theorem encode_crypt_files_handles_every_argument :
  forall (s : state W) outfile stdin file files remusr,
    let r := encode_crypt_files outfile stdin (file :: files) remusr s in
    match outfile with
    | Some _ => flog r = [Log_error_outfile] /\ fstate r = s
    | None =>
        let runs := batch_runs (file :: files) remusr s in
        map fst runs = file :: files /\
        flog r = flat_map file_block runs /\
        fstate r = batch_end (file :: files) remusr s
    end.
Proof.
  intros s outfile stdin file files remusr r. subst r.
  destruct outfile as [o|].
  - split; reflexivity.
  - intro runs. subst runs. split; [apply batch_runs_names|].
    unfold encode_crypt_files.
    change (Z.of_nat (List.length (file :: files)) =? 0) with false.
    cbv iota. apply files_from_args_runs.
Qed.

(** X2.  Without files on the command line, the names are taken from
    standard input, one per line.  The lines before the first unusable
    one (empty as a C string, or not ending in a line feed: too long,
    or cut by a NUL or by the end of input) are handled like arguments,
    with the line feed removed: for each, in order, the start, the
    events of the run of [encode_crypt] on that name, the failure if
    the run returned a non-zero code, the end; each run starts in the
    state the one before left.  The first unusable line is reported
    with its number, counted from 1 in an [unsigned int], and ends the
    batch: that report is the last event, so no run of [encode_crypt]
    and no report follows it, and the state is the one the last run
    left. *)
Theorem encode_crypt_files_stops_at_unusable_line :
  forall (s : state W) lines remusr,
    let r := encode_crypt_files None lines [] remusr s in
    let names := map (fun l => chop (c_string l)) (usable_lines lines) in
    let runs := batch_runs names remusr s in
    map fst runs = names /\
    flog r
    = flat_map file_block runs
      ++ (if existsb line_unusable lines
          then [Log_error_line
                  (to_u32 (Z.of_nat (List.length names) + 1))]
          else []) /\
    fstate r = batch_end names remusr s.
Proof.
  intros s lines remusr r names runs. subst r names runs.
  split; [apply batch_runs_names|].
  unfold encode_crypt_files. cbn [List.length Z.of_nat Z.eqb].
  exact (files_from_stdin_runs lines remusr 0 s).
Qed.

End BatchRuns.

(** Three lines on standard input, the second without its line feed:
    the first file is encrypted, the second line is reported, the third
    is never looked at. *)
Lemma encode_crypt_files_stops_at_unusable_line_witness :
  let X := scenario_externals (all_good [rsa_key]) in
  let r := encode_crypt_files None
             [input_line "a.txt"; "b.txt"%string; input_line "c.txt"] []
             ["alice"%string] (start default_opt) in
  let run := encode_crypt (Some "a.txt"%string) ["alice"%string]
               (start default_opt) in
  flog r
  = Print_file_status STATUS_FILE_START "a.txt" 2
    :: map Crypt (log run)
       ++ [Write_file_status STATUS_FILE_DONE; Log_error_line 2].
Proof.
  exact (proj1 (proj2
           (@encode_crypt_files_stops_at_unusable_line
              unit (scenario_externals (all_good [rsa_key]))
              (start default_opt)
              [input_line "a.txt"; "b.txt"%string; input_line "c.txt"]
              ["alice"%string]))).
Defined.

(** * Plaintext never bypasses the cipher filter *)

Lemma sealed_skip e l : before_cipher e -> sealed l -> sealed (e :: l).
Proof.
  destruct e; simpl; try tauto.
  destruct f; simpl; tauto.
Qed.

Lemma sealed_app l1 l2 :
  Forall before_cipher l1 -> sealed l2 -> sealed (l1 ++ l2).
Proof.
  induction 1 as [|e l1 He Hl IH]; intro H2; simpl app.
  - exact H2.
  - apply sealed_skip; auto.
Qed.

Lemma wrap_event_before_cipher out l :
  Forall (wrap_event out) l -> Forall before_cipher l.
Proof.
  apply Forall_impl. intros [] H; simpl in *; try tauto.
  destruct pkt; simpl in *; tauto.
Qed.

Lemma log_info_before_cipher l :
  Forall is_log_info l -> Forall before_cipher l.
Proof. apply Forall_impl. intros [] H; simpl in *; tauto. Qed.

Lemma copy_event_data_only_to out l :
  Forall (copy_event out) l -> data_only_to out l.
Proof.
  apply Forall_impl. intros [] H; simpl in *; try tauto; try discriminate.
  intros out' E. congruence.
Qed.

Lemma sealed_prefix l :
  sealed l ->
  forall pre e post out,
    l = pre ++ e :: post -> data_stream e = Some out ->
    exists cfx d,
      In (Push_filter_out out (cipher_filter cfx)) pre /\
      cfx_dek cfx = Some d.
Proof.
  induction l as [|e0 l IH]; intros Hs pre e post out Hl He.
  - destruct pre; discriminate Hl.
  - destruct pre as [|p pre]; simpl in Hl; injection Hl as -> ->.
    + exfalso. destruct e; simpl in *; try discriminate;
        try (destruct Hs; congruence).
    + assert (Hcase :
                (exists o cfx, p = Push_filter_out o (cipher_filter cfx) /\
                               is_some (cfx_dek cfx) = true /\
                               data_only_to o (pre ++ e :: post)) \/
                sealed (pre ++ e :: post)).
      { destruct p; simpl in Hs; try (right; tauto).
        destruct f; simpl in Hs; try (right; tauto).
        left. eauto. }
      destruct Hcase as [(o & cfx & -> & Hk & Hd)|Hrest].
      * unfold data_only_to in Hd. rewrite Forall_forall in Hd.
        assert (out = o)
          by (apply (Hd e); [apply in_or_app; right; left; reflexivity
                            | exact He]).
        subst o. destruct (cfx_dek cfx) as [d|] eqn:Hdek;
                   [|discriminate Hk].
        exists cfx, d. split; [left; reflexivity | exact Hdek].
      * destruct (IH Hrest pre e post out eq_refl He)
          as (cfx & d & Hin & Hd).
        exists cfx, d. split; [right; exact Hin | exact Hd].
Qed.

(** Walk through the log of a symbolic run up to the cipher filter. *)
Ltac sealed_run :=
  repeat first
    [ exact I
    | match goal with
      | |- sealed ((if ?c then _ else _) ++ _) =>
          apply sealed_app;
          [destruct c; repeat constructor; exact eq_refl|]
      | |- sealed (if ?c then _ else _) => destruct c
      | |- sealed ([] ++ _) => change (sealed ([] ++ ?l)) with (sealed l)
      | |- sealed ((?e :: ?l1) ++ ?l2) =>
          change (sealed ((e :: l1) ++ l2)) with (sealed (e :: (l1 ++ l2)))
      | |- sealed ((_ ++ _) ++ _) => rewrite <- app_assoc
      | H : Forall (wrap_event _) ?lw |- sealed (?lw ++ _) =>
          apply sealed_app; [exact (wrap_event_before_cipher H)|]
      | H : Forall is_log_info ?li |- sealed (?li ++ _) =>
          apply sealed_app; [exact (log_info_before_cipher H)|]
      | H : wrap_post _ _ _ _ _ ?lw |- sealed (?lw ++ _) =>
          apply sealed_app;
          [exact (wrap_event_before_cipher (proj1 (proj2 H)))|]
      | |- sealed (Push_filter_out _ (cipher_filter _) :: _) =>
          split;
          [ reflexivity
          | unfold data_only_to; forall_log;
            try (let H := fresh "H" in
                 intros ? H; cbn in H;
                 first [discriminate H | injection H as <-; reflexivity]);
            try (eapply copy_event_data_only_to; eassumption) ]
      | |- sealed (_ :: _) => apply sealed_skip; [exact eq_refl|]
      end ].

Section Sealed.
Context {W : Type} {X : Externals W}.

Lemma encode_crypt_sealed filename remusr o :
  spec o (encode_crypt filename remusr) (fun _ _ l => sealed l).
Proof.
  unfold encode_crypt, leave. spec_exec_blocks.
  all: sealed_run.
Qed.

Lemma encode_simple_sealed filename mode o :
  nz mode = true ->
  spec o (encode_simple filename mode) (fun _ _ l => sealed l).
Proof.
  intro Hmode. unfold encode_simple. spec_exec.
  all: sealed_run.
Qed.

(** X3.  In a run of [encode_crypt], and in a run of [encode_simple] in
    symmetric mode, whatever is handed to an output stream as
    application data (the literal packet, or a buffer of the copy loop)
    comes after the push of a cipher filter holding a key onto that
    very stream: plaintext never reaches the output unencrypted. *)
Theorem plaintext_only_after_cipher_filter :
  forall (s : state W) filename mode remusr l pre e post out,
    (mode <> 0 /\ l = log (encode_simple filename mode s)) \/
    l = log (encode_crypt filename remusr s) ->
    l = pre ++ e :: post ->
    data_stream e = Some out ->
    exists cfx d,
      In (Push_filter_out out (cipher_filter cfx)) pre /\
      cfx_dek cfx = Some d.
Proof.
  intros s filename mode remusr l pre e post out Hl.
  apply sealed_prefix. destruct Hl as [[Hmode ->]| ->].
  - apply nz_true in Hmode.
    exact (@encode_simple_sealed filename mode (options s) Hmode s eq_refl).
  - exact (@encode_crypt_sealed filename remusr (options s) s eq_refl).
Qed.

End Sealed.

Lemma plaintext_only_after_cipher_filter_witness :
  let l := log (encode_crypt (X := scenario_externals (all_good [rsa_key]))
                  (Some "hello.txt"%string) ["alice"%string]
                  (start default_opt)) in
  exists cfx d,
    In (Push_filter_out 1 (cipher_filter cfx)) (firstn 10 l) /\
    cfx_dek cfx = Some d.
Proof.
  intro l.
  apply (@plaintext_only_after_cipher_filter
           unit (scenario_externals (all_good [rsa_key]))
           (start default_opt) (Some "hello.txt"%string) 1
           ["alice"%string] l (firstn 10 l) (nth 10 l Bug) (skipn 11 l) 1).
  - right. reflexivity.
  - vm_compute. reflexivity.
  - vm_compute. reflexivity.
Defined.

(** * Session-key packets go out before the cipher filter *)

Lemma keys_in_clear_skip e l :
  ~ is_cipher_push e -> keys_in_clear l -> keys_in_clear (e :: l).
Proof.
  destruct e; simpl; try tauto. destruct f; simpl; tauto.
Qed.

Lemma keys_in_clear_app l1 l2 :
  Forall (fun e => ~ is_cipher_push e) l1 ->
  keys_in_clear l2 -> keys_in_clear (l1 ++ l2).
Proof.
  induction 1 as [|e l1 He Hl IH]; intro H2; simpl app; auto.
  apply keys_in_clear_skip; auto.
Qed.

Lemma no_keys_in_clear l :
  Forall (fun e => ~ is_key_packet e) l -> keys_in_clear l.
Proof.
  induction 1 as [|e l He Hl IH]; [exact I|].
  destruct e; simpl; auto. destruct f; simpl; auto.
Qed.

Lemma keys_in_clear_when (c : bool) out cfx l :
  Forall (fun e => ~ is_key_packet e) l ->
  keys_in_clear
    ((if c then [Push_filter_out out (cipher_filter cfx)] else []) ++ l).
Proof.
  intro H. destruct c; simpl; [exact H | apply no_keys_in_clear, H].
Qed.

Ltac no_cipher_push :=
  match goal with
  | H : Forall is_log_info ?l |- Forall _ ?l =>
      revert H; apply Forall_impl;
      let e := fresh "e" in
      let He := fresh "He" in
      intros e He; destruct e; simpl in He |- *; try contradiction;
      exact (fun H : False => H)
  | H : wrap_post _ _ _ _ _ ?l |- Forall _ ?l =>
      generalize (proj1 (proj2 H)); apply Forall_impl;
      let e := fresh "e" in
      let He := fresh "He" in
      intros e He; destruct e; simpl in He |- *; try contradiction;
      exact (fun H : False => H)
  | H : Forall (copy_event _) ?l |- Forall _ ?l =>
      revert H; apply Forall_impl;
      let e := fresh "e" in
      let He := fresh "He" in
      intros e He; destruct e; simpl in He |- *; try contradiction;
      exact (fun H : False => H)
  end.

Ltac no_key_packets :=
  forall_log;
  try exact (fun H : False => H);
  try match goal with
      | H : Forall (copy_event _) ?l |- Forall _ ?l =>
          revert H; apply Forall_impl;
          let e := fresh "e" in
          let He := fresh "He" in
          intros e He; destruct e; simpl in He |- *; try contradiction;
          exact (fun H : False => H)
      end.

Ltac layout_run :=
  repeat match goal with
    | |- keys_in_clear [] => exact I
    | |- keys_in_clear
           ((if ?c then [Push_filter_out _ (cipher_filter _)] else []) ++ _) =>
        apply keys_in_clear_when; no_key_packets
    | |- keys_in_clear ((if ?c then _ else _) ++ _) =>
        apply keys_in_clear_app;
        [destruct c; repeat constructor; exact (fun H : False => H)|]
    | |- keys_in_clear (if ?c then _ else _) => destruct c
    | |- keys_in_clear ([] ++ ?l) => change (keys_in_clear l)
    | |- keys_in_clear ((?e :: ?l1) ++ ?l2) =>
        change (keys_in_clear (e :: (l1 ++ l2)))
    | |- keys_in_clear ((_ ++ _) ++ _) => rewrite <- app_assoc
    | |- keys_in_clear (Push_filter_out _ (cipher_filter _) :: _) =>
        cbn [keys_in_clear]; no_key_packets
    | |- keys_in_clear (?l ++ _) =>
        apply keys_in_clear_app; [no_cipher_push|]
    | |- keys_in_clear (_ :: _) =>
        apply keys_in_clear_skip; [exact (fun H : False => H)|]
    end.

Section Layout.
Context {W : Type} {X : Externals W}.

Lemma encode_crypt_layout filename remusr o :
  spec o (encode_crypt filename remusr) (fun _ _ l => keys_in_clear l).
Proof.
  unfold encode_crypt, leave. spec_exec_blocks.
  all: layout_run.
Qed.

Lemma encode_simple_layout filename mode o :
  spec o (encode_simple filename mode) (fun _ _ l => keys_in_clear l).
Proof.
  unfold encode_simple. spec_exec.
  all: layout_run.
Qed.

(** X4.  No session-key packet is built once a cipher filter has been
    pushed: the symmetric session-key packet of [encode_simple] and the
    public-key session-key packets of [encode_crypt] are written before
    the cipher filter is in place, so they go out in the clear and only
    what follows them is encrypted. *)
Theorem session_key_packets_precede_the_cipher_filter :
  forall (s : state W) filename mode remusr,
    keys_in_clear (log (encode_simple filename mode s)) /\
    keys_in_clear (log (encode_crypt filename remusr s)).
Proof.
  intros s filename mode remusr. split.
  - exact (@encode_simple_layout filename mode (options s) s eq_refl).
  - exact (@encode_crypt_layout filename remusr (options s) s eq_refl).
Qed.

End Layout.

(** * What a run acquires it gives back *)

Lemma ledger_cons h e l h' q :
  ledger_step h e = Some h' -> ledger h' l = q -> ledger h (e :: l) = q.
Proof. intros H1 H2. simpl. rewrite H1. exact H2. Qed.

Lemma ledger_app h l1 l2 h' q :
  ledger h l1 = Some h' -> ledger h' l2 = q -> ledger h (l1 ++ l2) = q.
Proof.
  revert h. induction l1 as [|e l1 IH]; intros h H1 H2; simpl in *.
  - injection H1 as ->. exact H2.
  - destruct (ledger_step h e); [eauto | discriminate].
Qed.

Lemma ledger_when h (c : bool) e :
  (c = true -> ledger_step h e = Some h) ->
  ledger h (if c then [e] else []) = Some h.
Proof.
  destruct c; intro H; [|reflexivity]. simpl. rewrite (H eq_refl).
  reflexivity.
Qed.

Lemma ledger_wrap out l h :
  Forall (wrap_event out) l -> holds_output h = true -> ledger h l = Some h.
Proof.
  intros H Hout. induction H as [|e l He Hl IH]; [reflexivity|].
  simpl.
  assert (E : ledger_step h e = Some h).
  { destruct e; simpl in He; try contradiction; simpl; try reflexivity.
    rewrite Hout. reflexivity. }
  rewrite E. exact IH.
Qed.

Lemma ledger_log_info l h : Forall is_log_info l -> ledger h l = Some h.
Proof.
  intro H. induction H as [|e l He Hl IH]; [reflexivity|].
  simpl. destruct e; simpl in He; try contradiction. exact IH.
Qed.

Lemma ledger_copy out l h :
  Forall (copy_event out) l -> holds_output h = true -> ledger h l = Some h.
Proof.
  intros H Hout. induction H as [|e l He Hl IH]; [reflexivity|].
  simpl.
  assert (E : ledger_step h e = Some h).
  { destruct e; simpl in He; try contradiction; simpl; try reflexivity.
    rewrite Hout. reflexivity. }
  rewrite E. exact IH.
Qed.

(** Rewrite with what the run found out about return codes. *)
Ltac use_codes :=
  repeat match goal with
         | H : nz _ = _ |- _ => rewrite H
         end.

(** Walk through the log of a symbolic run, keeping the books. *)
Ltac ledger_run :=
  repeat match goal with
    | |- ledger _ [] = _ => reflexivity
    | |- ledger _ ((if ?c then _ else _) ++ _) = _ =>
        eapply ledger_app;
        [ apply ledger_when; intro;
          first [reflexivity | exfalso; congruence] |]
    | |- ledger _ (if ?c then _ else _) = _ =>
        apply ledger_when; intro;
        first [reflexivity | exfalso; congruence]
    | H : Forall is_log_info ?li |- ledger _ (?li ++ _) = _ =>
        eapply ledger_app; [exact (ledger_log_info _ H)|]
    | H : wrap_post _ _ _ _ _ ?lw |- ledger _ (?lw ++ _) = _ =>
        eapply ledger_app;
        [eapply ledger_wrap; [exact (proj1 (proj2 H)) | reflexivity]|]
    | H : Forall (copy_event _) ?lc |- ledger _ (?lc ++ _) = _ =>
        eapply ledger_app;
        [eapply ledger_copy; [exact H | reflexivity]|]
    | |- ledger ?h ([] ++ ?l) = ?q =>
        change (ledger h l = q)
    | |- ledger ?h ((?e :: ?l1) ++ ?l2) = ?q =>
        change (ledger h (e :: (l1 ++ l2)) = q)
    | |- ledger _ ((_ ++ _) ++ _) = _ => rewrite <- app_assoc
    | |- ledger _ (_ :: _) = _ =>
        eapply ledger_cons;
        [ cbn [ledger_step needs holds_input holds_output holds_recipients
                 holds_key nothing_held andb];
          use_codes;
          cbn [ledger_step needs holds_input holds_output holds_recipients
                 holds_key nothing_held andb negb];
          reflexivity|]
    end.

Section Resources.
Context {W : Type} {X : Externals W}.

Lemma encode_crypt_ledger filename remusr o :
  spec o (encode_crypt filename remusr)
    (fun _ _ l => ledger nothing_held l = Some nothing_held).
Proof.
  unfold encode_crypt, leave. spec_exec_blocks.
  all: ledger_run.
Qed.

Lemma encode_simple_ledger filename mode o :
  spec o (encode_simple filename mode)
    (fun _ _ l => ledger nothing_held l = Some nothing_held).
Proof.
  unfold encode_simple. spec_exec.
  all: ledger_run.
Qed.

(** X5.  Every run of [encode_simple] and of [encode_crypt] keeps its
    books: it opens at most one input and one output stream, builds at
    most one recipient list and obtains at most one key; it pushes
    filters and writes only on a stream it holds, and pushes the
    cipher filter only while it holds a key; it gives back each of
    them exactly once, after the last use; and when it returns it
    holds nothing, on the error paths as well. *)
Theorem runs_give_back_what_they_acquire :
  forall (s : state W) filename mode remusr,
    ledger nothing_held (log (encode_simple filename mode s))
    = Some nothing_held /\
    ledger nothing_held (log (encode_crypt filename remusr s))
    = Some nothing_held.
Proof.
  intros s filename mode remusr. split.
  - exact (@encode_simple_ledger filename mode (options s) s eq_refl).
  - exact (@encode_crypt_ledger filename remusr (options s) s eq_refl).
Qed.

End Resources.

(** * The filters on the output stream *)

Lemma stacked_weaken r r' l : r <= r' -> stacked r' l -> stacked r l.
Proof.
  revert r r'. induction l as [|e l IH]; intros r r' Hr H; [exact I|].
  destruct e; simpl in *; eauto. destruct H as [H1 H2]. split; [lia|exact H2].
Qed.

Lemma stacked_skip r e l :
  match e with Push_filter_out _ _ => False | _ => True end ->
  stacked r l -> stacked r (e :: l).
Proof. destruct e; simpl; tauto. Qed.

Lemma stacked_push r out f l :
  r < filter_rank f -> stacked (filter_rank f) l ->
  stacked r (Push_filter_out out f :: l).
Proof. simpl. tauto. Qed.

Lemma stacked_app r l1 l2 :
  Forall (fun e => match e with Push_filter_out _ _ => False | _ => True end)
         l1 ->
  stacked r l2 -> stacked r (l1 ++ l2).
Proof.
  induction 1 as [|e l1 He Hl IH]; intro H2; simpl app; auto.
  apply stacked_skip; auto.
Qed.

Lemma stacked_when r (c : bool) out f l :
  r < filter_rank f -> stacked (filter_rank f) l ->
  stacked r ((if c then [Push_filter_out out f] else []) ++ l).
Proof.
  intros Hr H. destruct c; simpl.
  - tauto.
  - apply stacked_weaken with (r' := filter_rank f); [lia | exact H].
Qed.

(** A segment of the log of a symbolic run that is known by what its
    events are. *)
Ltac forget_run :=
  repeat match goal with
         | H : _ |- _ => clear H
         end.

Ltac segment_cases :=
  forget_run;
  let e := fresh "e" in
  let He := fresh "He" in
  intros e He; destruct e; simpl in He |- *; try contradiction;
  try match goal with
      | p : PACKET |- _ => destruct p; simpl in He |- *; try contradiction
      end;
  solve [exact I | reflexivity | tauto | auto | discriminate].

Ltac segment :=
  match goal with
  | H : Forall is_log_info ?l |- Forall _ ?l =>
      revert H; apply Forall_impl; segment_cases
  | H : wrap_post _ _ _ _ _ ?l |- Forall _ ?l =>
      generalize (proj1 (proj2 H)); apply Forall_impl; segment_cases
  | H : Forall (copy_event _) ?l |- Forall _ ?l =>
      revert H; apply Forall_impl; segment_cases
  end.

Ltac stacked_run :=
  repeat match goal with
    | |- stacked _ [] => exact I
    | |- stacked _ ((if ?c then [Push_filter_out _ _] else []) ++ _) =>
        apply stacked_when; [reflexivity|]
    | |- stacked _ (if ?c then [Push_filter_out _ _] else []) =>
        rewrite <- app_nil_r; apply stacked_when; [reflexivity | exact I]
    | |- stacked _ ((if ?c then _ else _) ++ _) =>
        apply stacked_app; [destruct c; repeat constructor|]
    | |- stacked _ (if ?c then _ else _) => destruct c
    | |- stacked ?r ([] ++ ?l) => change (stacked r l)
    | |- stacked ?r ((?e :: ?l1) ++ ?l2) =>
        change (stacked r (e :: (l1 ++ l2)))
    | |- stacked _ ((_ ++ _) ++ _) => rewrite <- app_assoc
    | |- stacked _ (?l ++ _) => apply stacked_app; [segment|]
    | |- stacked _ (Push_filter_out _ _ :: _) =>
        apply stacked_push; [reflexivity|]
    | |- stacked _ (_ :: _) => apply stacked_skip; [exact I|]
    end.

(** The compression decision of a symbolic run: the condition of its
    push of the compress filter. *)
Ltac compress_ghost :=
  first
    [ match goal with
      | |- context [if ?c then [Push_filter_out _ (compress_filter _)]
                    else []] => exists c
      end
    | exists false ].

Ltac split_conditions H :=
  repeat match type of H with
         | context [nz ?x] =>
             let E := fresh "E" in
             destruct (nz x) eqn:E; simpl in H
         end.

(** The cipher filter of a run that compresses is told no length. *)
Ltac cipher_length :=
  match goal with
  | |- compress_ok _ (Push_filter_out _ (cipher_filter _)) =>
      cbn [compress_ok cfx_datalen];
      let Hc := fresh "Hc" in
      intro Hc;
      first
        [ discriminate Hc
        | try (apply andb_true_iff in Hc; destruct Hc as [Hc _]);
          rewrite Hc; cbn [negb andb]; rewrite ?andb_false_r; reflexivity ]
  end.

Ltac option_facts :=
  repeat match goal with
         | H : negb (nz _) = true |- _ => apply negb_true_iff in H
         | H : negb (nz _) = false |- _ => apply negb_false_iff in H
         end.

Section Filters.
Context {W : Type} {X : Externals W}.

Lemma encode_crypt_stacked filename remusr o :
  spec o (encode_crypt filename remusr) (fun _ _ l => stacked 0 l).
Proof.
  unfold encode_crypt, leave. spec_exec_blocks.
  all: stacked_run.
Qed.

Lemma encode_simple_stacked filename mode o :
  spec o (encode_simple filename mode) (fun _ _ l => stacked 0 l).
Proof.
  unfold encode_simple. spec_exec.
  all: stacked_run.
Qed.

Lemma encode_simple_compress filename mode o :
  spec o (encode_simple filename mode)
    (fun _ _ l =>
       exists b : bool,
         (b = true -> opt.compress o <> 0 /\ opt.rfc1991 o = 0) /\
         Forall (compress_ok b) l).
Proof.
  unfold encode_simple. spec_exec.
  all: compress_ghost.
  all: split;
    [ let Hb := fresh "Hb" in
      intro Hb;
      first
        [ discriminate Hb
        | split_conditions Hb;
          first
            [ discriminate Hb
            | option_facts;
              split; [apply nz_true | apply nz_false]; assumption ] ]
    | forall_log; try exact I; try segment; try reflexivity;
      try cipher_length ].
Qed.

Lemma encode_crypt_compress filename remusr o :
  spec o (encode_crypt filename remusr)
    (fun _ _ l =>
       exists b : bool,
         (b = true -> opt.compress o <> 0 /\ opt.rfc1991 o = 0) /\
         Forall (compress_ok b) l).
Proof.
  unfold encode_crypt, leave. spec_exec_blocks.
  all: compress_ghost.
  all: split;
    [ let Hb := fresh "Hb" in
      intro Hb;
      first
        [ discriminate Hb
        | split_conditions Hb;
          first
            [ discriminate Hb
            | option_facts;
              split; [apply nz_true | apply nz_false]; assumption ] ]
    | forall_log; try exact I; try segment; try reflexivity;
      try cipher_length ].
Qed.

(** X6.  On the output stream the filters are pushed in the order armor,
    cipher, compress, each at most once, and the text filter never: what
    is written is compressed first, then encrypted, then armored. *)
Theorem output_filters_are_pushed_in_order :
  forall (s : state W) filename mode remusr,
    stacked 0 (log (encode_simple filename mode s)) /\
    stacked 0 (log (encode_crypt filename remusr s)).
Proof.
  intros s filename mode remusr. split.
  - exact (@encode_simple_stacked filename mode (options s) s eq_refl).
  - exact (@encode_crypt_stacked filename remusr (options s) s eq_refl).
Qed.

(** X7.  A compress filter is pushed only with [opt.compress] set and
    [opt.rfc1991] off, and in a run that pushes one the cipher filter is
    given no length ([cfx.datalen] is 0): the length of compressed data
    is not known in advance. *)
Theorem compression_needs_the_option_and_hides_the_length :
  forall (s : state W) filename mode remusr l out zfx,
    l = log (encode_simple filename mode s) \/
    l = log (encode_crypt filename remusr s) ->
    In (Push_filter_out out (compress_filter zfx)) l ->
    opt.compress (options s) <> 0 /\
    opt.rfc1991 (options s) = 0 /\
    (forall out' cfx,
        In (Push_filter_out out' (cipher_filter cfx)) l ->
        cfx_datalen cfx = 0).
Proof.
  intros s filename mode remusr l out zfx Hl Hin.
  assert (H : exists b : bool,
             (b = true ->
              opt.compress (options s) <> 0 /\
              opt.rfc1991 (options s) = 0) /\
             Forall (compress_ok b) l).
  { destruct Hl as [-> | ->].
    - exact (@encode_simple_compress filename mode (options s) s eq_refl).
    - exact (@encode_crypt_compress filename remusr (options s) s eq_refl). }
  destruct H as (b & Hb & Hall). rewrite Forall_forall in Hall.
  assert (E : b = true) by exact (Hall _ Hin).
  destruct (Hb E) as [H1 H2]. repeat split; [exact H1 | exact H2 |].
  intros out' cfx Hc. exact (Hall _ Hc E).
Qed.

End Filters.

Lemma compression_needs_the_option_and_hides_the_length_witness :
  opt.compress compress_opt <> 0 /\
  opt.rfc1991 compress_opt = 0 /\
  (forall out' cfx,
      In (Push_filter_out out' (cipher_filter cfx))
         (log (encode_crypt (X := scenario_externals (all_good [rsa_key]))
                 (Some "hello.txt"%string) ["alice"%string]
                 (start compress_opt))) ->
      cfx_datalen cfx = 0).
Proof.
  apply (@compression_needs_the_option_and_hides_the_length
           unit (scenario_externals (all_good [rsa_key]))
           (start compress_opt) (Some "hello.txt"%string) 1
           ["alice"%string] _ 1 (mkZfx 1)).
  - right. reflexivity.
  - vm_compute. tauto.
Defined.

(** * The key that encrypts *)

(** The key of a symbolic run: the one its log shows being made or
    derived. *)
Ltac session_key_ghost :=
  first
    [ match goal with
      | |- context [Make_session_key ?d] => exists (Some d)
      end
    | exists None ].

Ltac passphrase_ghost :=
  first
    [ match goal with
      | |- context [Passphrase_to_dek _ ?s ?k] => exists s, k
      end
    | exists zeroed_s2k, None ].

Section Keys.
Context {W : Type} {X : Externals W}.

Lemma encode_crypt_session_key filename remusr o :
  spec o (encode_crypt filename remusr)
    (fun _ _ l =>
       exists k,
         Forall (session_key_is k) l /\
         (forall d, k = Some d -> In (Make_session_key d) l)).
Proof.
  unfold encode_crypt, leave. spec_exec_blocks.
  all: session_key_ghost.
  all: split;
    [ forall_log; try exact I; try segment; try reflexivity;
      try (split; [reflexivity | discriminate])
    | let d := fresh "d" in
      let Hd := fresh "Hd" in
      intros d Hd;
      first [discriminate Hd | injection Hd as <-; in_tail] ].
Qed.

Lemma encode_simple_passphrase_key filename mode o :
  spec o (encode_simple filename mode)
    (fun _ _ l =>
       exists s2k k,
         Forall (passphrase_key_is o s2k k) l /\
         (forall d, k = Some d ->
                    In (Passphrase_to_dek (passphrase_cipher o) s2k k) l)).
Proof.
  unfold encode_simple. spec_exec.
  all: passphrase_ghost.
  all: split;
    [ forall_log; try exact I; try segment; try reflexivity;
      try (repeat split; reflexivity);
      try (left; reflexivity); try (right; reflexivity);
      try (eexists; repeat split; try reflexivity;
           apply nz_true; assumption)
    | let d := fresh "d" in
      let Hd := fresh "Hd" in
      intros d Hd;
      first [discriminate Hd | injection Hd as <-; in_tail] ].
Qed.

(** X8.  When [encode_crypt] pushes the cipher filter, the filter holds the
    session key that [make_session_key] made in this run, which is the
    only one made and the only key freed. *)
Theorem cipher_filter_holds_the_session_key :
  forall (s : state W) filename remusr out cfx,
    let l := log (encode_crypt filename remusr s) in
    In (Push_filter_out out (cipher_filter cfx)) l ->
    exists d,
      cfx_dek cfx = Some d /\
      In (Make_session_key d) l /\
      (forall d', In (Make_session_key d') l -> d' = d) /\
      (forall k, In (Free_dek k) l -> k = Some d).
Proof.
  intros s filename remusr out cfx l Hin. subst l.
  destruct (@encode_crypt_session_key filename remusr (options s) s eq_refl)
    as (k & Hall & Hmade).
  rewrite Forall_forall in Hall.
  destruct (Hall _ Hin) as [Hk Hsome]. simpl in Hk.
  destruct k as [d|]; [|congruence].
  exists d. split; [|split; [|split]].
  - exact Hk.
  - exact (Hmade d eq_refl).
  - intros d' Hd'. specialize (Hall _ Hd'). simpl in Hall. congruence.
  - intros k Hk'. exact (Hall _ Hk').
Qed.

(** X9.  In [encode_simple] the key comes from the one call of
    [passphrase_to_dek], asked for the cipher [opt.def_cipher_algo] or,
    without it, [opt.s2k_cipher_algo].  A cipher filter is pushed only
    with the key that call returned, and only if its length is not 0; a
    symmetric session-key packet is of version 4 and names the S2K
    specifier the call filled in and the cipher of that key, cut to the
    byte the packet has for it (cipher 300 of a key is named as 44). *)
Theorem symmetric_key_is_the_passphrase_key :
  forall (s : state W) filename mode,
    let l := log (encode_simple filename mode s) in
    let algo := passphrase_cipher (options s) in
    (forall out cfx,
        In (Push_filter_out out (cipher_filter cfx)) l ->
        exists s2k d,
          In (Passphrase_to_dek algo s2k (Some d)) l /\
          cfx_dek cfx = Some d /\ dek_keylen d <> 0) /\
    (forall out enc rc,
        In (Build_packet out (PKT_SYMKEY_ENC enc) rc) l ->
        exists s2k d,
          In (Passphrase_to_dek algo s2k (Some d)) l /\
          enc = mkSymkeyEnc 4 (to_byte (dek_algo d)) s2k /\
          0 <= symkey_cipher_algo enc < 256 /\
          (0 <= dek_algo d < 256 ->
           symkey_cipher_algo enc = dek_algo d)) /\
    (forall a s2k k a' s2k' k',
        In (Passphrase_to_dek a s2k k) l ->
        In (Passphrase_to_dek a' s2k' k') l ->
        a = algo /\ a' = a /\ s2k' = s2k /\ k' = k).
Proof.
  intros s filename mode l algo. subst l algo.
  destruct (@encode_simple_passphrase_key filename mode (options s) s
              eq_refl) as (s2k & k & Hall & Hasked).
  rewrite Forall_forall in Hall. split; [|split].
  - intros out cfx Hin. destruct (Hall _ Hin) as (d & -> & Hc & Hlen).
    exists s2k, d.
    split; [exact (Hasked d eq_refl) | split; assumption].
  - intros out enc rc Hin. destruct (Hall _ Hin) as (d & -> & Henc).
    exists s2k, d. split; [exact (Hasked d eq_refl)|].
    split; [exact Henc|]. rewrite Henc. cbn [symkey_cipher_algo].
    unfold to_byte. split.
    + apply Z.mod_pos_bound. reflexivity.
    + intro Hr. apply Z.mod_small. exact Hr.
  - intros a s1 k1 a' s1' k1' H H0.
    destruct (Hall _ H) as (-> & -> & ->).
    destruct (Hall _ H0) as (-> & -> & ->).
    repeat split; reflexivity.
Qed.

End Keys.

Lemma cipher_filter_holds_the_session_key_witness :
  let l := log (encode_crypt (X := scenario_externals (all_good [rsa_key]))
                  (Some "hello.txt"%string) ["alice"%string]
                  (start default_opt)) in
  exists d,
    cfx_dek (mkCfx (Some (mkDEK 9 16 (repeat 0 16%nat) 1)) 25) = Some d /\
    In (Make_session_key d) l /\
    (forall d', In (Make_session_key d') l -> d' = d) /\
    (forall k, In (Free_dek k) l -> k = Some d).
Proof.
  apply (@cipher_filter_holds_the_session_key
           unit (scenario_externals (all_good [rsa_key]))
           (start default_opt) (Some "hello.txt"%string) ["alice"%string] 1
           (mkCfx (Some (mkDEK 9 16 (repeat 0 16%nat) 1)) 25)).
  vm_compute. tauto.
Defined.

(** A passphrase key with cipher number 300: the session-key packet
    names cipher 44. *)
Lemma symmetric_key_is_the_passphrase_key_witness :
  let X := scenario_externals wide_cipher in
  let l := log (encode_simple (Some "hello.txt"%string) 1
                  (start default_opt)) in
  let enc := mkSymkeyEnc 4 44 (mkS2K 3 2 (repeat 0 8%nat) 0) in
  In (Build_packet 1 (PKT_SYMKEY_ENC enc) 0) l /\
  exists s2k d,
    In (Passphrase_to_dek 3 s2k (Some d)) l /\
    enc = mkSymkeyEnc 4 (to_byte (dek_algo d)) s2k /\
    0 <= symkey_cipher_algo enc < 256 /\
    (0 <= dek_algo d < 256 -> symkey_cipher_algo enc = dek_algo d).
Proof.
  intros X l enc.
  assert (Hin : In (Build_packet 1 (PKT_SYMKEY_ENC enc) 0) l)
    by (vm_compute; tauto).
  split; [exact Hin|].
  exact (proj1 (proj2
           (@symmetric_key_is_the_passphrase_key
              unit X (start default_opt) (Some "hello.txt"%string) 1))
           1 enc 0 Hin).
Defined.

(** * Store mode, text mode and the packet that is freed *)

Lemma text_consistent_skip b e l :
  match e with
  | Push_filter_inp _ | Build_packet _ (PKT_PLAINTEXT _) _ => False
  | _ => True
  end ->
  text_consistent b l -> text_consistent b (e :: l).
Proof.
  destruct e; simpl; try tauto. destruct pkt; simpl; tauto.
Qed.

Lemma text_consistent_app b l1 l2 :
  Forall (fun e => match e with
                   | Push_filter_inp _
                   | Build_packet _ (PKT_PLAINTEXT _) _ => False
                   | _ => True
                   end) l1 ->
  text_consistent b l2 -> text_consistent b (l1 ++ l2).
Proof.
  induction 1 as [|e l1 He Hl IH]; intro H2; simpl app; auto.
  apply text_consistent_skip; auto.
Qed.

Ltac text_run :=
  repeat match goal with
    | |- text_consistent _ [] => exact I
    | |- text_consistent _
           ((if ?c then [Push_filter_inp text_filter] else []) ++ _) =>
        let E := fresh "Etext" in
        destruct c eqn:E;
        [ change (if true then [Push_filter_inp text_filter] else [])
            with [Push_filter_inp text_filter]
        | change (if false then [Push_filter_inp text_filter] else [])
            with (@nil event) ]
    | |- text_consistent _ ((if ?c then _ else _) ++ _) =>
        apply text_consistent_app; [destruct c; repeat constructor|]
    | |- text_consistent _ (if ?c then _ else _) => destruct c
    | |- text_consistent ?b ([] ++ ?l) => change (text_consistent b l)
    | |- text_consistent ?b ((?e :: ?l1) ++ ?l2) =>
        change (text_consistent b (e :: (l1 ++ l2)))
    | |- text_consistent _ ((_ ++ _) ++ _) => rewrite <- app_assoc
    | |- text_consistent _ (?l ++ _) =>
        apply text_consistent_app; [segment|]
    | |- text_consistent _ (Push_filter_inp text_filter :: _) =>
        split; [reflexivity|]
    | |- text_consistent _ (Build_packet _ (PKT_PLAINTEXT _) _ :: _) =>
        split; [cbn [pt_mode]; use_codes; reflexivity|]
    | |- text_consistent _ (_ :: _) =>
        apply text_consistent_skip; [exact I|]
    end.

Section Store.
Context {W : Type} {X : Externals W}.

Lemma encode_simple_store filename mode :
  nz mode = false ->
  always (fun e => ~ encrypts e) (encode_simple filename mode).
Proof.
  intro Hmode. unfold encode_simple.
  always_run; simpl; try tauto; try discriminate;
    try (apply always_copy_plain; intros; simpl; tauto).
Qed.

Lemma encode_simple_text filename mode o :
  spec o (encode_simple filename mode)
    (fun _ _ l => text_consistent false l).
Proof.
  unfold encode_simple. spec_exec.
  all: text_run.
Qed.

Lemma encode_crypt_text filename remusr o :
  spec o (encode_crypt filename remusr)
    (fun _ _ l => text_consistent false l).
Proof.
  unfold encode_crypt, leave. spec_exec_blocks.
  all: text_run.
Qed.

Lemma encode_crypt_freed_packet filename remusr :
  always freed_packet_ok (encode_crypt filename remusr).
Proof.
  unfold encode_crypt, leave.
  always_run; try exact I; try reflexivity;
    try (apply always_pgp2_scan; intros; exact I);
    try (apply always_write_pubkey_impl; wrap_cases);
    try (apply always_copy_plain; intros; exact I).
Qed.

Lemma encode_simple_freed_packet filename mode o :
  spec o (encode_simple filename mode)
    (fun _ _ l =>
       (nz (opt.no_literal o) = false -> Forall freed_packet_ok l) /\
       (forall enc,
           In (Free_symkey_enc enc) l -> nz (opt.no_literal o) = true ->
           In (Free_packet (PKT_SYMKEY_ENC enc)) l)).
Proof.
  unfold encode_simple. spec_exec.
  all: split;
    [ let Hnl := fresh "Hnl" in
      intro Hnl; forall_log; try exact I; try reflexivity; try segment;
      try (exfalso; option_facts; congruence)
    | let enc := fresh "enc" in
      let Hin := fresh "Hin" in
      let Hnl := fresh "Hnl" in
      intros enc Hin Hnl; in_log Hin; try discriminate Hin;
      try (in_copy; contradiction);
      try (exfalso; option_facts; congruence);
      try (injection Hin as <-; in_tail) ].
Qed.

(** X10.  [encode_store] never encrypts: it asks for no passphrase, makes and
    wraps no key, writes no session-key packet, pushes no cipher filter
    and does not report the end of an encryption. *)
Theorem encode_store_never_encrypts :
  forall (s : state W) filename,
    Forall (fun e => ~ encrypts e) (log (encode_store filename s)).
Proof.
  intros s filename. unfold encode_store.
  apply encode_simple_store. reflexivity.
Qed.

(** X11.  The literal packet is marked as text (mode 't') exactly if the
    text filter was pushed onto the input stream before it was built,
    and as binary (mode 'b') otherwise; nothing but the text filter is
    ever pushed onto the input, and it at most once. *)
Theorem literal_mode_follows_the_text_filter :
  forall (s : state W) filename mode remusr,
    text_consistent false (log (encode_simple filename mode s)) /\
    text_consistent false (log (encode_crypt filename remusr s)).
Proof.
  intros s filename mode remusr. split.
  - exact (@encode_simple_text filename mode (options s) s eq_refl).
  - exact (@encode_crypt_text filename remusr (options s) s eq_refl).
Qed.

(** X12.  What is handed to [free_packet] at the end of [encode_crypt], and
    of [encode_simple] unless [opt.no_literal] is set, is the empty
    packet or the literal packet with its reference to the input stream
    removed, so that freeing it does not close the input again. *)
Theorem freed_packet_is_detached_from_input :
  forall (s : state W) filename mode remusr,
    Forall freed_packet_ok (log (encode_crypt filename remusr s)) /\
    (opt.no_literal (options s) = 0 ->
     Forall freed_packet_ok (log (encode_simple filename mode s))).
Proof.
  intros s filename mode remusr. split.
  - apply encode_crypt_freed_packet.
  - intro Hnl. apply nz_false in Hnl.
    exact (proj1 (@encode_simple_freed_packet filename mode (options s)
                    s eq_refl) Hnl).
Qed.

(** X13.  With [opt.no_literal] set, [encode_simple] leaves the symmetric
    session-key structure in the packet after releasing it with
    [m_free]: the structure it has released is the one it hands to
    [free_packet] at the end. *)
Theorem released_symkey_is_handed_to_free_packet :
  forall (s : state W) filename mode enc,
    let l := log (encode_simple filename mode s) in
    opt.no_literal (options s) <> 0 ->
    In (Free_symkey_enc enc) l ->
    In (Free_packet (PKT_SYMKEY_ENC enc)) l.
Proof.
  intros s filename mode enc l Hnl Hin. subst l.
  apply nz_true in Hnl.
  exact (proj2 (@encode_simple_freed_packet filename mode (options s)
                  s eq_refl) enc Hin Hnl).
Qed.

End Store.

Lemma released_symkey_is_handed_to_free_packet_witness :
  In (Free_packet
        (PKT_SYMKEY_ENC (mkSymkeyEnc 4 3 (mkS2K 3 2 (repeat 0 8%nat) 0))))
     (log (encode_simple (X := scenario_externals (all_good []))
             (Some "hello.txt"%string) 1 (start no_literal_opt))).
Proof.
  apply (@released_symkey_is_handed_to_free_packet
           unit (scenario_externals (all_good []))
           (start no_literal_opt) (Some "hello.txt"%string) 1
           (mkSymkeyEnc 4 3 (mkS2K 3 2 (repeat 0 8%nat) 0))).
  - discriminate.
  - vm_compute. tauto.
Defined.

(** * The copy loop of [--no-literal] *)

Lemma written_app l1 l2 : written (l1 ++ l2) = written l1 ++ written l2.
Proof.
  induction l1 as [|e l1 IH]; [reflexivity|].
  destruct e; simpl; rewrite ?IH; reflexivity.
Qed.

Lemma written_none l : Forall no_write l -> written l = [].
Proof.
  induction 1 as [|e l He Hl IH]; [reflexivity|].
  destruct e; simpl in *; try contradiction; exact IH.
Qed.

Lemma written_skip e l ws :
  no_write e -> written l = ws -> written (e :: l) = ws.
Proof. destruct e; simpl; try contradiction; auto. Qed.

Lemma written_app_none l1 l2 ws :
  Forall no_write l1 -> written l2 = ws -> written (l1 ++ l2) = ws.
Proof.
  intros H1 H2. rewrite written_app, (written_none H1). exact H2.
Qed.

Lemma written_copy_tail l1 l2 :
  written l2 = [] -> written (l1 ++ l2) = written l1.
Proof. intro H. rewrite written_app, H. apply app_nil_r. Qed.

(** The buffers written in the log of a symbolic run. *)
Ltac written_run :=
  repeat match goal with
    | |- written [] = _ => reflexivity
    | |- written ((if ?c then _ else _) ++ _) = _ =>
        apply written_app_none; [destruct c; repeat constructor|]
    | |- written (if ?c then _ else _) = _ =>
        apply written_none; destruct c; repeat constructor
    | |- written ([] ++ ?l) = ?ws => change (written l = ws)
    | |- written ((?e :: ?l1) ++ ?l2) = ?ws =>
        change (written (e :: (l1 ++ l2)) = ws)
    | |- written ((_ ++ _) ++ _) = _ => rewrite <- app_assoc
    | H : Forall (copy_event _) ?lc |- written (?lc ++ _) = _ =>
        apply written_copy_tail
    | |- written (?l ++ _) = _ => apply written_app_none; [segment|]
    | |- written (_ :: _) = _ => apply written_skip; [exact I|]
    end.

Section Copy.
Context {W : Type} {X : Externals W}.


End Copy.






Section CopyRuns.
Context {W : Type} {X : Externals W}.




End CopyRuns.


(** * Legacy mode: the run goes on and the output is produced *)

Lemma key_here (X : list event) : X = [] ++ X.
Proof. reflexivity. Qed.

Lemma key_later_app (a rest pre X : list event) :
  rest = pre ++ X -> a ++ rest = (a ++ pre) ++ X.
Proof. intros ->. apply app_assoc. Qed.

Lemma key_later_cons (e : event) (rest pre X : list event) :
  rest = pre ++ X -> e :: rest = (e :: pre) ++ X.
Proof. intros ->. reflexivity. Qed.

(** Split the log of a symbolic run at the session key. *)
Ltac split_at_key :=
  repeat match goal with
    | |- Make_session_key _ :: _ = _ => apply key_here
    | |- _ :: _ = _ => apply key_later_cons
    | |- _ ++ _ = _ => apply key_later_app
    end.

Section CooperativeLoops.
Context {W : Type} {X : Externals W}.

(** A call whose answer is known to be one the rest of GnuPG gives in
    some world. *)
Lemma spec_bind_call_at R B o (g : W -> R * W) ev (f : R -> M W B) Q :
  (forall w,
      spec o (f (fst (g w))) (fun b o' l => Q b o' (ev (fst (g w)) ++ l))) ->
  spec o (bind (call g ev) f) Q.
Proof.
  intros H s Hs. rewrite val_bind, st_bind, log_bind.
  assert (Hv : val (call g ev s) = fst (g (world s))).
  { unfold call, val. destruct (g (world s)) as [r w]. reflexivity. }
  assert (Hl : log (call g ev s) = ev (fst (g (world s)))).
  { unfold call, log. destruct (g (world s)) as [r w]. reflexivity. }
  rewrite Hv, Hl. apply (H (world s)). rewrite <- Hs.
  unfold call, st. destruct (g (world s)) as [r w]. reflexivity.
Qed.

Lemma spec_call_at R o (g : W -> R * W) ev
  (Q : R -> opt.t -> list event -> Prop) :
  (forall w, Q (fst (g w)) o (ev (fst (g w)))) -> spec o (call g ev) Q.
Proof.
  intros H s Hs. unfold call, val, st, log.
  specialize (H (world s)).
  destruct (g (world s)) as [r w]. simpl in *. rewrite Hs. exact H.
Qed.

Lemma spec_conj A o (m : M W A) (Q1 Q2 : A -> opt.t -> list event -> Prop) :
  spec o m Q1 -> spec o m Q2 ->
  spec o m (fun a o' l => Q1 a o' l /\ Q2 a o' l).
Proof. intros H1 H2 s Hs. split; [apply H1 | apply H2]; exact Hs. Qed.

Hypothesis Hcoop : cooperative.

(** Every key wrap succeeds. *)
Lemma write_pubkey_enc_from_list_cooperative o pk_list dek out :
  spec o (write_pubkey_enc_from_list pk_list dek out)
       (fun rc _ _ => rc = 0).
Proof.
  destruct Hcoop as (_ & _ & _ & Henc & Hbuild & _).
  induction pk_list as [|pk next IH]; simpl.
  - apply spec_ret. reflexivity.
  - apply spec_bind_get_opt. apply spec_bind_emit.
    unfold pubkey_encrypt. apply spec_bind_call_at. intro w. cbv beta.
    assert (E := Henc w (pubkey_algo pk)
                   (encode_session_key dek
                      (pubkey_nbits (pubkey_algo pk) (pkey pk)))
                   (pkey pk)).
    destruct (fst (ext_pubkey_encrypt w (pubkey_algo pk)
                     (encode_session_key dek
                        (pubkey_nbits (pubkey_algo pk) (pkey pk)))
                     (pkey pk))) as [rc data].
    cbn [fst] in E. subst rc. cbv iota.
    change (nz 0) with false. cbv iota.
    apply spec_bind_assoc. apply spec_bind_when.
    apply spec_bind_assoc.
    unfold build_packet. apply spec_bind_call_at. intro w'. cbv beta.
    rewrite Hbuild. change (nz 0) with false.
    apply spec_bind_assoc. apply spec_bind_when.
    apply spec_bind_ret. apply spec_bind_emit. cbv iota.
    eapply spec_weaken; [exact IH|]. intros rc o' l Hrc. exact Hrc.
Qed.

Lemma write_pubkey_enc_from_list_done o pk_list dek out :
  spec o (write_pubkey_enc_from_list pk_list dek out)
       (fun rc o' l => rc = 0 /\ wrap_post o pk_list out rc o' l).
Proof.
  apply spec_conj.
  - apply write_pubkey_enc_from_list_cooperative.
  - apply write_pubkey_enc_from_list_spec.
Qed.

(** Every write of the copy loop succeeds: the loop writes all the
    buffers and hands back the code it was given. *)
Lemma copy_plain_cooperative o out reads rc :
  spec o (copy_plain out reads rc)
    (fun rc' o' l =>
       rc' = rc /\ o' = o /\
       Forall (copy_event out) l /\
       written l = reads /\ Forall write_ok l).
Proof.
  destruct Hcoop as (_ & _ & _ & _ & _ & Hwrite).
  induction reads as [|buf rest IH]; simpl.
  - apply spec_ret. repeat split; constructor.
  - unfold iobuf_write. apply spec_bind_call_at. intro w. cbv beta.
    assert (E := Hwrite w out buf). apply Z.eqb_neq in E. rewrite E.
    apply Z.eqb_neq in E.
    eapply spec_weaken; [exact IH|].
    intros rc' o' l (-> & -> & Hl & Hw & Hok).
    split; [reflexivity|]. split; [reflexivity|].
    split; [repeat constructor; assumption|].
    split; [simpl; rewrite Hw; reflexivity|].
    constructor; [exact E | exact Hok].
Qed.

End CooperativeLoops.

(** Symbolic execution in a cooperative rest of GnuPG: the calls whose
    failure would end the run answer as [cooperative] says. *)
Ltac coop_step Hcompr Hopen Hout Hbuild :=
  match goal with
  | |- spec _ (bind (is_file_compressed ?f) _) _ =>
      unfold is_file_compressed; apply spec_bind_call_at;
      let w := fresh "w" in
      let E := fresh "E" in
      intro w; cbv beta; assert (E := Hcompr w f);
      destruct (fst (ext_is_file_compressed w f)) as [? ?];
      cbn [fst snd] in E; subst; change (nz 0) with false
  | |- spec _ (bind (iobuf_open ?f) _) _ =>
      unfold iobuf_open; apply spec_bind_call_at;
      let w := fresh "w" in
      let E := fresh "E" in
      intro w; cbv beta; assert (E := Hopen w f);
      destruct (fst (ext_iobuf_open w f)) as [?|];
      [clear E | exfalso; exact (E eq_refl)]
  | |- spec _ (bind (open_outfile ?f ?m) _) _ =>
      unfold open_outfile; apply spec_bind_call_at;
      let w := fresh "w" in
      let E := fresh "E" in
      intro w; cbv beta; assert (E := Hout w f m);
      destruct (fst (ext_open_outfile w f m)) as [? ?];
      cbn [fst snd] in E; subst; change (nz 0) with false
  | |- spec _ (bind (build_packet ?out ?pkt) _) _ =>
      unfold build_packet; apply spec_bind_call_at;
      let w := fresh "w" in
      intro w; cbv beta; rewrite (Hbuild w out pkt);
      change (nz 0) with false
  | |- spec _ (bind (write_pubkey_enc_from_list _ _ _) _) _ =>
      eapply spec_bind; [apply write_pubkey_enc_from_list_done; assumption|];
      let Hpost := fresh "Hpost" in
      let Ho := fresh "Ho" in
      intros ? ? ? (-> & Hpost); assert (Ho := proj1 Hpost); subst;
      change (nz 0) with false
  | |- spec _ (bind (copy_plain _ _ _) _) _ =>
      eapply spec_bind; [apply copy_plain_cooperative; assumption|];
      let Hc := fresh "Hcopy" in
      let Hw := fresh "Hwritten" in
      let Hk := fresh "Hwrite_ok" in
      intros ? ? ? (-> & -> & Hc & Hw & Hk)
  end.

Ltac spec_exec_coop Hcompr Hopen Hout Hbuild :=
  repeat (first [ coop_step Hcompr Hopen Hout Hbuild
                | spec_step_block | spec_step ];
          cbv beta iota; cbn [fst snd]).

(** No event of the log of a symbolic run cancels the output. *)
Ltac never_cancelled :=
  repeat first
    [ apply Forall_nil
    | apply Forall_cons; [exact (fun H : False => H)|]
    | apply Forall_app; split
    | match goal with
      | |- Forall _ (if ?c then _ else _) => destruct c
      end
    | segment ].

Section Cooperative.
Context {W : Type} {X : Externals W}.

Hypothesis Hcoop : cooperative.

(** With the recipient list at hand, a run in a cooperative rest of
    GnuPG returns 0 and produces its output. *)
Lemma encode_crypt_cooperative filename remusr o :
  spec o (encode_crypt filename remusr)
    (fun v _ l =>
       exists rc pk rest,
         l = Build_pk_list remusr rc pk :: rest /\
         (rc = 0 -> v = 0 /\ output_produced o filename pk l)).
Proof.
  assert (Hc := Hcoop).
  destruct Hc as (Hcompr & Hopen & Hout & _ & Hbuild & _).
  unfold encode_crypt, leave, output_produced.
  apply spec_bind_get_opt.
  destruct (nz (opt.no_literal o)) eqn:Hnl; cbn [negb].
  all: spec_exec_coop Hcompr Hopen Hout Hbuild.
  all: try match goal with
           | Hf : nz ?z = true |- _ =>
               do 3 eexists; (split; [reflexivity|]);
               intro Hz; apply nz_true in Hf; contradiction
           end.
  all: match goal with
       | Hp : wrap_post _ _ _ 0 _ _ |- _ =>
           let H0 := fresh "H0" in
           let Hem := fresh "Hem" in
           let Hz := fresh "Hz" in
           destruct (proj2 (proj2 Hp)) as (n & _ & _ & H0 & _);
           destruct (H0 eq_refl) as (_ & Hem & Hz)
       end.
  all: do 3 eexists; (split; [reflexivity|]); intros _;
    (split; [reflexivity|]); do 7 eexists.
  all: refine (conj _ (conj _ (conj _ (conj _ (conj _ (conj _
                 (conj _ (conj _ (conj _ (conj _ (conj _ _))))))))))).
  (* the log around the session key, and the events found in it *)
  all: try split_at_key.
  all: try in_tail.
  (* the key wrap *)
  all: try exact (proj1 (proj2 Hpost)).
  all: try assumption.
  all: try reflexivity.
  (* the literal packet *)
  all: try (eexists; split; [in_tail | reflexivity]).
  all: try never_cancelled.
  (* the buffers copied *)
  all: split;
    [ rewrite <- Hwritten; written_run
    | repeat first
        [ assumption
        | apply Forall_nil
        | apply Forall_cons; [exact I|]
        | apply Forall_app; split
        | match goal with
          | |- Forall _ (if ?c then _ else _) => destruct c
          end ] ].
Qed.

End Cooperative.

Section LegacyRun.
Context {W : Type} {X : Externals W}.

Lemma log_is_file_compressed filename (s : state W) :
  log (is_file_compressed filename s) = [Is_file_compressed filename].
Proof.
  unfold is_file_compressed, call, log.
  destruct (ext_is_file_compressed (world s) filename) as [r w].
  reflexivity.
Qed.

(** With [opt.pgp2] off, the run goes from the recipient list to the
    compression check. *)
Lemma encode_crypt_after_list (s : state W) filename remusr pk_list w1 :
  opt.pgp2 (options s) = 0 ->
  ext_build_pk_list (world s) remusr PUBKEY_USAGE_ENC = (0, pk_list, w1) ->
  exists rest,
    log (encode_crypt filename remusr s)
    = Build_pk_list remusr 0 pk_list :: Is_file_compressed filename :: rest.
Proof.
  intros Hpgp2 Hb. destruct s as [w o]. cbn [world options] in *.
  unfold encode_crypt, build_pk_list.
  rewrite run_get_opt. cbv beta. cbn [world options].
  rewrite (@run_call _ _ _
             (fun w0 => ext_build_pk_list w0 remusr PUBKEY_USAGE_ENC)
             _ _ (mkState w o) (0, pk_list) w1 Hb).
  cbn [fst snd val st log world options]. cbv beta iota.
  change (nz 0) with false. cbv iota.
  rewrite Hpgp2. change (nz 0) with false. cbv iota.
  rewrite run_ret. rewrite log_bind, log_is_file_compressed.
  cbn [app]. eexists. reflexivity.
Qed.

(** C6.  When [opt.pgp2] is set and the recipient list holds a key that
    is not an RSA key of at most 2048 bits, [encode_crypt] switches
    [opt.pgp2] off for good, logs two warnings with [log_info], and goes
    on with the compression check, the step after the scan: from there
    it runs exactly as it does with [opt.pgp2] off, with the same
    return code, the same final world and the same events.  So the
    check adds no error and removes no output.  And when the rest of
    GnuPG is cooperative (the compression check, opening input and
    output, the key wraps, [build_packet] and the writes succeed), the
    run returns 0 and produces its output: input and output opened, a
    session key wrapped into one packet per recipient, the cipher
    filter pushed, the data handed over, the output closed and not
    cancelled, the end of encryption reported. *)
Theorem C6_legacy_violation_only_warns :
  forall (s : state W) filename remusr pk_list w1,
    opt.pgp2 (options s) <> 0 ->
    ext_build_pk_list (world s) remusr PUBKEY_USAGE_ENC
    = (0, pk_list, w1) ->
    (exists pk,
        In pk pk_list /\
        is_RSA (pubkey_algo pk) && (nbits_from_pk pk <=? 2048) = false) ->
    let r := encode_crypt filename remusr s in
    let r0 := encode_crypt filename remusr
                (mkState (world s) (opt.with_pgp2 0 (options s))) in
    opt.pgp2 (options (st r)) = 0 /\
    val r = val r0 /\
    world (st r) = world (st r0) /\
    log r =
      Build_pk_list remusr 0 pk_list
      :: Log_info
           "you can only encrypt to RSA keys of 2048 bits or less in --pgp2 mode"
      :: Log_info "this message may not be usable by PGP 2.x"
      :: tl (log r0) /\
    log r0 = Build_pk_list remusr 0 pk_list :: tl (log r0) /\
    (exists rest, tl (log r0) = Is_file_compressed filename :: rest) /\
    (cooperative ->
     val r = 0 /\ output_produced (options s) filename pk_list (log r)).
Proof.
  intros s filename remusr pk_list w1 Hpgp2 Hb (pk & Hpk & Hbig) r r0.
  apply nz_true in Hpgp2.
  assert (Hex : existsb too_big_for_pgp2 pk_list = true).
  { apply existsb_exists. exists pk. split; [exact Hpk|].
    unfold too_big_for_pgp2. rewrite Hbig. reflexivity. }
  destruct (@encode_crypt_legacy_run _ _ s filename remusr pk_list w1
              Hpgp2 Hb Hex) as (Hv & Hs & Hl & Hh).
  fold r in Hv, Hs, Hl. fold r0 in Hv, Hs, Hl, Hh.
  destruct (@encode_crypt_after_list
              (mkState (world s) (opt.with_pgp2 0 (options s)))
              filename remusr pk_list w1 eq_refl Hb) as (rest0 & Hrest0).
  fold r0 in Hrest0.
  split; [|split; [|split; [|split; [|split; [|split]]]]].
  - rewrite Hs.
    assert (H := encode_crypt_pgp2_off
                   (o := opt.with_pgp2 0 (options s)) filename remusr).
    apply (H (mkState (world s) (opt.with_pgp2 0 (options s))) eq_refl).
    reflexivity.
  - exact Hv.
  - rewrite Hs. reflexivity.
  - exact Hl.
  - rewrite Hrest0. reflexivity.
  - exists rest0. rewrite Hrest0. reflexivity.
  - intro Hcoop.
    assert (Hc := @encode_crypt_cooperative _ _ Hcoop filename remusr
                    (options s) s eq_refl).
    fold r in Hc. cbv beta in Hc.
    revert Hc. rewrite Hl. generalize (val r). intros v Hc.
    destruct Hc as (rc & pk' & rest & Heq & Hprod).
    injection Heq as <- <- _. exact (Hprod eq_refl).
Qed.

End LegacyRun.

Lemma C6_witness :
  let X := scenario_externals (all_good [rsa_key; elg_key]) in
  let r := encode_crypt (Some "hello.txt"%string)
             ["alice"%string; "bob"%string] (start pgp2_opt) in
  opt.pgp2 (options (st r)) = 0 /\
  val r = 0 /\
  output_produced pgp2_opt (Some "hello.txt"%string) [rsa_key; elg_key]
    (log r) /\
  exists rest,
    log r =
      Build_pk_list ["alice"%string; "bob"%string] 0 [rsa_key; elg_key]
      :: Log_info
           "you can only encrypt to RSA keys of 2048 bits or less in --pgp2 mode"
      :: Log_info "this message may not be usable by PGP 2.x"
      :: Is_file_compressed (Some "hello.txt"%string)
      :: rest.
Proof.
  intros X r.
  assert (H1 : opt.pgp2 (options (start pgp2_opt)) <> 0) by discriminate.
  assert (H2 : ext_build_pk_list (world (start pgp2_opt))
                 ["alice"%string; "bob"%string] PUBKEY_USAGE_ENC
               = (0, [rsa_key; elg_key], tt)) by reflexivity.
  assert (H3 : exists pk,
             In pk [rsa_key; elg_key] /\
             is_RSA (pubkey_algo pk) && (nbits_from_pk pk <=? 2048) = false).
  { exists elg_key. split; [right; left; reflexivity | reflexivity]. }
  assert (Hc : cooperative (X := X)).
  { unfold cooperative. repeat split; intros; cbn; discriminate. }
  destruct (@C6_legacy_violation_only_warns
              unit X (start pgp2_opt) (Some "hello.txt"%string)
              ["alice"%string; "bob"%string] [rsa_key; elg_key] tt
              H1 H2 H3) as (A & _ & _ & B & _ & (rest & C) & D).
  destruct (D Hc) as (Hv & Hp).
  split; [exact A|]. split; [exact Hv|]. split; [exact Hp|].
  exists rest. rewrite C in B. exact B.
Defined.

(** * Failures before the output is opened, and the option block *)

Section Early.
Context {W : Type} {X : Externals W}.

Lemma encode_crypt_early filename remusr o :
  spec o (encode_crypt filename remusr)
    (fun v o' l =>
       (Forall recipients_found l \/
        exists rc pk, l = [Build_pk_list remusr rc pk] /\ v = rc /\ o' = o)
       /\
       (Forall input_opened l \/
        v = G10ERR_OPEN_FILE /\
        Forall (fun e => ~ starts_message e) l /\
        exists pk, In (Release_pk_list pk) l) /\
       (o' = o \/ o' = opt.with_pgp2 0 o)).
Proof.
  unfold encode_crypt, leave. spec_exec_blocks.
  all: split; [|split].
  all: try match goal with
         | |- _ = _ \/ _ = _ =>
             repeat match goal with
                    | H : _ = _ \/ _ = _ |- _ => destruct H as [-> | ->]
                    end;
             first [left; reflexivity | right; reflexivity]
         end.
  all: try solve
         [ right; eexists; eexists; repeat split; reflexivity
         | left; forall_log; try exact I; try segment;
           try (apply nz_false; assumption) ].
  all: right; split; [reflexivity|];
    (split; [|eexists; in_tail]);
    forall_log; try segment; exact (fun H : False => H).
Qed.

Lemma encode_simple_early filename mode o :
  spec o (encode_simple filename mode)
    (fun v o' l =>
       (Forall input_opened l \/
        v = G10ERR_OPEN_FILE /\
        Forall (fun e => ~ starts_message e) l) /\
       o' = o).
Proof.
  unfold encode_simple. spec_exec.
  all: split; [|reflexivity].
  all: try solve [left; forall_log; try exact I; try segment].
  all: right; split; [reflexivity|]; forall_log;
    exact (fun H : False => H).
Qed.

(** X15.  When [build_pk_list] fails, [encode_crypt] returns its code at
    once: nothing else is called, no stream is opened, and the option
    block is as before. *)
Theorem encode_crypt_without_recipients_does_nothing :
  forall (s : state W) filename remusr rc pk,
    let r := encode_crypt filename remusr s in
    In (Build_pk_list remusr rc pk) (log r) ->
    rc <> 0 ->
    log r = [Build_pk_list remusr rc pk] /\
    val r = rc /\
    options (st r) = options s.
Proof.
  intros s filename remusr rc pk r Hin Hrc. subst r.
  destruct (@encode_crypt_early filename remusr (options s) s eq_refl)
    as ([Hall | (rc' & pk' & Hl & Hv & Ho)] & _).
  - rewrite Forall_forall in Hall. apply Hall in Hin. simpl in Hin.
    contradiction.
  - rewrite Hl in Hin. destruct Hin as [Hin | []].
    injection Hin as <- <-. repeat split; assumption.
Qed.

(** X16.  When the input cannot be opened, [encode_simple] and
    [encode_crypt] return [G10ERR_OPEN_FILE] without having created
    any output or asked for any key: no output file is opened, no
    filter pushed, no packet built, nothing written, no passphrase
    asked for, no session key made or wrapped. *)
Theorem unreadable_input_creates_no_output :
  forall (s : state W) filename mode remusr l v f,
    (l = log (encode_simple filename mode s) /\
     v = val (encode_simple filename mode s)) \/
    (l = log (encode_crypt filename remusr s) /\
     v = val (encode_crypt filename remusr s)) ->
    In (Iobuf_open f None) l ->
    v = G10ERR_OPEN_FILE /\ Forall (fun e => ~ starts_message e) l.
Proof.
  intros s filename mode remusr l v f Hl Hin.
  assert (H : Forall input_opened l \/
              v = G10ERR_OPEN_FILE /\
              Forall (fun e => ~ starts_message e) l).
  { destruct Hl as [[-> ->] | [-> ->]].
    - exact (proj1 (@encode_simple_early filename mode (options s) s
                      eq_refl)).
    - destruct (proj1 (proj2 (@encode_crypt_early filename remusr
                                (options s) s eq_refl)))
        as [H | (H1 & H2 & _)]; [left | right; split]; assumption. }
  destruct H as [Hall | H]; [|exact H].
  rewrite Forall_forall in Hall. apply Hall in Hin. contradiction.
Qed.

Lemma pgp2_cleared_trans o1 o2 o3 :
  pgp2_cleared o1 o2 -> pgp2_cleared o2 o3 -> pgp2_cleared o1 o3.
Proof.
  unfold pgp2_cleared. intros [-> | ->] [-> | ->]; auto.
Qed.

Lemma encode_crypt_options filename remusr (s : state W) :
  pgp2_cleared (options s) (options (st (encode_crypt filename remusr s))).
Proof.
  exact (proj2 (proj2 (@encode_crypt_early filename remusr (options s) s
                         eq_refl))).
Qed.

Lemma one_file_options name remusr (k : MF W unit) (s : state W) :
  (forall s', pgp2_cleared (options s') (options (fstate (k s')))) ->
  pgp2_cleared (options s)
    (options
       (fstate
          (fbind (femit (Print_file_status STATUS_FILE_START name 2))
             (fun _ =>
                fbind (lift (encode_crypt (Some name) remusr))
                  (fun rc =>
                     fbind (if nz rc then femit (Log_error_failed name rc)
                            else fret tt)
                       (fun _ =>
                          fbind (femit (Write_file_status STATUS_FILE_DONE))
                                (fun _ => k)))) s))).
Proof.
  intro Hk. repeat rewrite fstate_fbind.
  change (fstate (femit (Print_file_status STATUS_FILE_START name 2) s))
    with s.
  rewrite fval_lift, fstate_lift.
  assert (H1 := encode_crypt_options (Some name) remusr s). revert H1.
  generalize (st (encode_crypt (Some name) remusr s)).
  generalize (nz (val (encode_crypt (Some name) remusr s))).
  intros c s1 H1.
  eapply pgp2_cleared_trans; [exact H1|].
  destruct c; apply (Hk s1).
Qed.

Lemma encode_crypt_files_options outfile stdin files remusr (s : state W) :
  pgp2_cleared (options s)
    (options (fstate (encode_crypt_files outfile stdin files remusr s))).
Proof.
  unfold encode_crypt_files. destruct outfile as [f|]; [left; reflexivity|].
  destruct (Z.of_nat (List.length files) =? 0).
  - generalize 0 at 1. revert s.
    induction stdin as [|line rest IH]; intros s lno;
      cbn [files_from_stdin].
    + left. reflexivity.
    + destruct (line_unusable line); [left; reflexivity|].
      apply one_file_options. intro s'. apply IH.
  - revert s. induction files as [|file rest IH]; intro s;
      cbn [files_from_args].
    + left. reflexivity.
    + apply one_file_options. exact IH.
Qed.

(** X17.  The option block after a run: [encode_simple] and [encrypt_filter]
    leave it as it is; [encode_crypt], and so [encode_crypt_files],
    change nothing but [opt.pgp2], and that only to 0. *)
Theorem only_pgp2_is_ever_changed :
  forall (s : state W) filename mode remusr efx control a buf
         outfile stdin files,
    options (st (encode_simple filename mode s)) = options s /\
    options (st (encrypt_filter efx control a buf s)) = options s /\
    pgp2_cleared (options s)
      (options (st (encode_crypt filename remusr s))) /\
    pgp2_cleared (options s)
      (options (fstate (encode_crypt_files outfile stdin files remusr s))).
Proof.
  intros s filename mode remusr efx control a buf outfile stdin files.
  split; [|split; [|split]].
  - exact (proj2 (@encode_simple_early filename mode (options s) s
                    eq_refl)).
  - destruct control;
      match goal with
      | |- context [IOBUFCTRL_FLUSH] =>
          exact (proj1 (@encrypt_filter_flush_spec _ _ (options s) efx a
                          buf s eq_refl))
      | _ => reflexivity
      end.
  - apply encode_crypt_options.
  - apply encode_crypt_files_options.
Qed.

End Early.

Lemma encode_crypt_without_recipients_does_nothing_witness :
  let r := encode_crypt
             (X := faulty_externals (all_good []) no_recipient)
             (Some "hello.txt"%string) ["nobody"%string]
             (start default_opt) in
  log r = [Build_pk_list ["nobody"%string] 15 []] /\
  val r = 15 /\
  options (st r) = options (start default_opt).
Proof.
  apply (@encode_crypt_without_recipients_does_nothing
           unit (faulty_externals (all_good []) no_recipient)
           (start default_opt) (Some "hello.txt"%string)
           ["nobody"%string] 15 []).
  - vm_compute. tauto.
  - discriminate.
Defined.

Lemma unreadable_input_creates_no_output_witness :
  let r := encode_crypt (X := scenario_externals no_input)
             (Some "missing.txt"%string) ["alice"%string]
             (start default_opt) in
  val r = 24 /\ Forall (fun e => ~ starts_message e) (log r).
Proof.
  intro r.
  apply (@unreadable_input_creates_no_output
           unit (scenario_externals no_input)
           (start default_opt) (Some "missing.txt"%string) 1
           ["alice"%string] (log r) (val r) (Some "missing.txt"%string)).
  - right. split; reflexivity.
  - vm_compute. tauto.
Defined.

(** * The key-wrap loop and the filter, call by call *)

Lemma count_cons (p : event -> bool) e l :
  count p (e :: l) = ((if p e then 1 else 0) + count p l)%nat.
Proof. unfold count. simpl. destruct (p e); reflexivity. Qed.

Lemma count_app (p : event -> bool) l1 l2 :
  count p (l1 ++ l2) = (count p l1 + count p l2)%nat.
Proof. unfold count. rewrite filter_app. apply length_app. Qed.

Section WrapLoop.
Context {W : Type} {X : Externals W}.

Lemma write_pubkey_enc_from_list_details o pk_list dek out :
  spec o (write_pubkey_enc_from_list pk_list dek out)
    (fun rc _ l =>
       count is_log_error l = (if rc =? 0 then 0%nat else 1%nat) /\
       count is_free_pubkey_enc l = List.length (wrapped l) /\
       Forall (carries_throw_keyid (to_byte (opt.throw_keyid o))) l).
Proof.
  induction pk_list as [|pk next IH]; simpl.
  - apply spec_ret. repeat split. constructor.
  - spec_exec.
    + apply nz_true in Heqb. apply Z.eqb_neq in Heqb. rewrite Heqb.
      repeat split. repeat constructor.
    + apply nz_true in Heqb0. apply Z.eqb_neq in Heqb0. rewrite Heqb0.
      destruct (nz (opt.verbose o)); repeat split; repeat constructor.
    + eapply spec_weaken; [exact IH|].
      intros rc o' l0 (H1 & H2 & H3).
      destruct (nz (opt.verbose o)); cbn [app];
        repeat rewrite count_cons; cbn [is_log_error is_free_pubkey_enc];
        cbn [wrapped List.length]; rewrite H1, H2;
        (split; [reflexivity|]); (split; [lia|]);
        repeat constructor; assumption.
Qed.

(** X18.  [write_pubkey_enc_from_list] reports a failure exactly once with
    [log_error] and reports no error when it returns 0; it frees the
    session-key structure of every recipient it has tried, also of the
    one whose wrap failed; and every such structure carries
    [opt.throw_keyid] cut to the byte the structure has for it (256 is
    carried as 0). *)
Theorem key_wrap_reports_and_frees :
  forall (s : state W) pk_list dek out,
    let r := write_pubkey_enc_from_list pk_list dek out s in
    count is_log_error (log r) = (if val r =? 0 then 0%nat else 1%nat) /\
    count is_free_pubkey_enc (log r) = List.length (wrapped (log r)) /\
    Forall (carries_throw_keyid (to_byte (opt.throw_keyid (options s))))
           (log r).
Proof.
  intros s pk_list dek out r.
  exact (@write_pubkey_enc_from_list_details (options s) pk_list dek out
           s eq_refl).
Qed.

(** X19.  One call of [encrypt_filter].  Only [IOBUFCTRL_FLUSH] and
    [IOBUFCTRL_UNDERFLOW] do anything; the other controls return 0 and
    leave the context alone.  A flush through an uninitialized filter
    whose initialization fails returns the non-zero code, leaves the
    filter uninitialized and writes nothing: the buffer of that call is
    not written.  Otherwise the flush ends with the write of its
    buffer, returns the code of that write, and the filter is
    initialized. *)
Theorem encrypt_filter_call_by_call :
  forall (s : state W) efx control a buf,
    let r := encrypt_filter efx control a buf s in
    let res := fst (fst (val r)) in
    let efx' := snd (fst (val r)) in
    match control with
    | IOBUFCTRL_FLUSH =>
        efx_pk_list efx' = efx_pk_list efx /\
        ((efx_header_okay efx = 0 /\ efx_header_okay efx' = 0 /\
          (exists rc, rc <> 0 /\ res = Returns rc) /\
          Forall (fun e => ~ is_app_write e) (log r)) \/
         (efx_header_okay efx' <> 0 /\
          exists rc pre,
            res = Returns rc /\
            log r = pre ++ [Iobuf_write a buf rc] /\
            Forall (fun e => ~ is_app_write e) pre))
    | IOBUFCTRL_UNDERFLOW => res = Aborts /\ log r = [Bug]
    | _ => res = Returns 0 /\ efx' = efx /\ log r = [] /\ st r = s
    end.
Proof.
  intros s efx control a buf r res efx'. subst r res efx'.
  destruct control; try (repeat split; reflexivity).
  assert (H := @encrypt_filter_flush_spec _ _ (options s) efx a buf s
                 eq_refl).
  unfold flush_post in H. destruct H as (_ & H).
  destruct (nz (efx_header_okay efx)) eqn:Hh.
  - destruct H as (-> & rc & -> & ->). split; [reflexivity|].
    right. split; [apply nz_true; exact Hh|].
    exists rc, []. repeat split. constructor.
  - destruct H as (Hpk & _ & dek & lw & Hlw & H).
    split; [exact Hpk|].
    assert (Hno : Forall (fun e => ~ is_app_write e) lw).
    { revert Hlw. apply Forall_impl. intros [] He; simpl in *; tauto. }
    destruct H as [(rcw & Hrcw & -> & Hh' & ->)
                  | (rc & -> & Hh' & _ & ->)].
    + left. apply nz_false in Hh.
      split; [exact Hh|]. split; [congruence|].
      split; [exists rcw; split; [exact Hrcw | reflexivity]|].
      constructor; [simpl; tauto | exact Hno].
    + right. split; [rewrite Hh'; discriminate|].
      exists rc.
      exists (Make_session_key dek
              :: lw ++ [Push_filter_out a
                          (cipher_filter
                             (mkCfx (Some dek)
                                    (cfx_datalen (efx_cfx efx))))]).
      split; [reflexivity|]. split.
      * simpl. rewrite <- app_assoc. reflexivity.
      * constructor; [simpl; tauto|].
        apply Forall_app. split; [exact Hno|].
        repeat constructor. simpl. tauto.
Qed.

End WrapLoop.

(** [opt.throw_keyid] is 256: the structure carries 0. *)
Lemma key_wrap_reports_and_frees_witness :
  let X := scenario_externals (all_good [rsa_key]) in
  let r := write_pubkey_enc_from_list [rsa_key]
             (mkDEK 3 16 (repeat 0 16%nat) 0) 1
             (start wide_throw_keyid_opt) in
  count is_log_error (log r) = 0%nat /\
  count is_free_pubkey_enc (log r) = 1%nat /\
  Forall (carries_throw_keyid 0) (log r).
Proof.
  exact (@key_wrap_reports_and_frees
           unit (scenario_externals (all_good [rsa_key]))
           (start wide_throw_keyid_opt) [rsa_key]
           (mkDEK 3 16 (repeat 0 16%nat) 0) 1).
Defined.

(** * Input that is compressed already *)

Section Compressed.
Context {W : Type} {X : Externals W}.

Lemma st_call R (f : W -> R * W) ev (s : state W) :
  st (call f ev s) = mkState (snd (f (world s))) (options s).
Proof. unfold call, st. destruct (f (world s)). reflexivity. Qed.

Lemma log_call R (f : W -> R * W) ev (s : state W) :
  log (call f ev s) = ev (fst (f (world s))).
Proof. unfold call, log. destruct (f (world s)). reflexivity. Qed.

Lemma pgp2_scan_world work_list (s : state W) :
  world (st (pgp2_scan work_list s)) = world s.
Proof.
  rewrite pgp2_scan_run. destruct (existsb _ work_list); reflexivity.
Qed.

Lemma encode_simple_compressed (s : state W) filename mode :
  fst (fst (ext_is_file_compressed (world s) filename)) <> 0 ->
  Forall no_compression (log (encode_simple filename mode s)).
Proof.
  intro Hc. apply nz_true in Hc.
  unfold encode_simple, is_file_compressed.
  rewrite log_bind. change (log (get_opt s)) with (@nil event).
  change (val (get_opt s)) with (options s).
  change (st (get_opt s)) with s.
  rewrite log_bind, log_call, val_call, st_call.
  destruct (ext_is_file_compressed (world s) filename) as [[c rc] w1].
  cbn [fst snd] in Hc |- *.
  cbn [app]. constructor; [exact I|].
  match goal with
  | |- Forall _ (log (?m ?s')) => generalize s'; change (always no_compression m)
  end.
  always_run; try exact I;
    try (apply always_copy_plain; intros; exact I).
  all: match goal with
       | H : _ = true |- _ => rewrite Hc in H; discriminate H
       end.
Qed.

Lemma encode_crypt_compressed (s : state W) filename remusr :
  fst (fst (ext_is_file_compressed
              (snd (ext_build_pk_list (world s) remusr PUBKEY_USAGE_ENC))
              filename)) <> 0 ->
  Forall no_compression (log (encode_crypt filename remusr s)).
Proof.
  intro Hc. apply nz_true in Hc.
  unfold encode_crypt, build_pk_list.
  rewrite log_bind. change (log (get_opt s)) with (@nil event).
  change (val (get_opt s)) with (options s).
  change (st (get_opt s)) with s.
  rewrite log_bind, log_call, val_call, st_call.
  destruct (ext_build_pk_list (world s) remusr PUBKEY_USAGE_ENC)
    as [[rc pk_list] w1].
  cbn [fst snd app] in Hc |- *.
  constructor; [exact I|].
  destruct (nz rc); [constructor|].
  rewrite log_bind. apply Forall_app. split.
  - destruct (nz (opt.pgp2 (options s))); [|constructor].
    apply always_pgp2_scan. intros. exact I.
  - unfold is_file_compressed.
    rewrite log_bind, log_call, val_call, st_call.
    assert (Hw : world
                   (st ((if nz (opt.pgp2 (options s))
                         then pgp2_scan pk_list else ret tt)
                          (mkState w1 (options s)))) = w1).
    { destruct (nz (opt.pgp2 (options s))); [|reflexivity].
      apply pgp2_scan_world. }
    rewrite Hw.
    destruct (ext_is_file_compressed w1 filename) as [[c rc2] w2].
    cbn [fst snd app] in Hc |- *.
    constructor; [exact I|].
    match goal with
    | |- Forall _ (log (?m ?s')) =>
        generalize s'; change (always no_compression m)
    end.
    unfold leave.
    always_run; try exact I;
      try (apply always_write_pubkey_impl; wrap_cases);
      try (apply always_copy_plain; intros; exact I).
    all: match goal with
         | H : _ = true |- _ =>
             rewrite Hc in H; discriminate H
         end.
Qed.

(** X20.  When [is_file_compressed] reports that the input is compressed
    already, no compress filter is pushed, whatever [opt.compress]
    says: the data is not compressed a second time.  ([encode_crypt]
    asks after [build_pk_list] has run.) *)
Theorem compressed_input_is_not_compressed_again :
  forall (s : state W) filename mode remusr l,
    (l = log (encode_simple filename mode s) /\
     fst (fst (ext_is_file_compressed (world s) filename)) <> 0) \/
    (l = log (encode_crypt filename remusr s) /\
     fst (fst (ext_is_file_compressed
                 (snd (ext_build_pk_list (world s) remusr
                         PUBKEY_USAGE_ENC))
                 filename)) <> 0) ->
    Forall no_compression l.
Proof.
  intros s filename mode remusr l [[-> H] | [-> H]].
  - apply encode_simple_compressed. exact H.
  - apply encode_crypt_compressed. exact H.
Qed.

End Compressed.

Lemma compressed_input_is_not_compressed_again_witness :
  Forall no_compression
    (log (encode_crypt
            (X := faulty_externals (all_good [rsa_key]) compressed_input)
            (Some "hello.gz"%string) ["alice"%string]
            (start compress_opt))).
Proof.
  apply (@compressed_input_is_not_compressed_again
           unit (faulty_externals (all_good [rsa_key]) compressed_input)
           (start compress_opt) (Some "hello.gz"%string) 1
           ["alice"%string]).
  right. split; [reflexivity | discriminate].
Defined.
